(** * Projection mapper: mesh model, edit history, editor, warp renderer
      and playback controller

    A shallow embedding of the TypeScript sources of the projection
    mapper (App.tsx, useMeshHistory.ts, MeshWarpEditor.tsx,
    MeshWarpCanvas.tsx, PlaybackScreen.tsx, CalibrationScreen.tsx,
    HiddenKeyCapture.tsx, ResizableVideoContainer.tsx, video.ts)
    together with the properties its specification states about them
    and further properties that the code itself shows.

    Numbers.  A JavaScript number is modelled by [num]: NaN, the two
    infinities, or a finite value carried as an exact rational.  The
    model therefore computes without rounding and without overflow, and
    does not distinguish the two zeros; every division by zero in the
    sources has a non-negative loop counter or a clamped pixel position
    as numerator, so the sign of the zero never decides a result there.
    Loop counters are natural numbers and their texts are plain decimal
    digits, as JavaScript prints every integer below 10^21.

    Texts.  A string is a list of 8-bit characters and stands for a
    JavaScript string of ASCII characters.  [Number] of a text is the
    exact value of the literal: it is the value the code computes when
    that value is an integer of magnitude at most 2^53, and on ASCII
    texts it is NaN exactly when the code's is.  A property that
    depends on either limit states it as a hypothesis.

    React state.  A hook or a component is modelled by a record of its
    refs and state variables and each callback by a function from the
    record before the call to the record after it. *)

From Stdlib Require Import ZArith QArith Qabs Qround Lia.
From Stdlib Require Import Reals Qreals Lra Lqa Psatz.
From Stdlib Require Import Ascii String List.
From Stdlib Require Import DecimalString DecimalNat.
From stdpp Require Import base tactics option list.

Local Open Scope string_scope.
Local Open Scope Z_scope.

(* ================================================================== *)
(** ** JavaScript numbers *)
(* ================================================================== *)

Module JS.

Inductive num : Type :=
| NaN
| PInf
| NInf
| Fin (q : Q).

Definition of_Z (z : Z) : num := Fin (inject_Z z).
Definition of_nat (n : nat) : num := of_Z (Z.of_nat n).

(** The same number: rationals are compared by value. *)
Definition num_eq (a b : num) : Prop :=
  match a, b with
  | NaN, NaN | PInf, PInf | NInf, NInf => True
  | Fin p, Fin q => (p == q)%Q
  | _, _ => False
  end.


Definition neg (a : num) : num :=
  match a with
  | NaN => NaN
  | PInf => NInf
  | NInf => PInf
  | Fin q => Fin (- q)
  end.

Definition add (a b : num) : num :=
  match a, b with
  | NaN, _ | _, NaN => NaN
  | PInf, NInf | NInf, PInf => NaN
  | PInf, _ | _, PInf => PInf
  | NInf, _ | _, NInf => NInf
  | Fin p, Fin q => Fin (p + q)
  end.

Definition sub (a b : num) : num := add a (neg b).

(** Sign of a finite value, as a comparison with zero. *)
Definition sgn (q : Q) : comparison := (q ?= 0)%Q.

Definition inf_of_sign (c : comparison) : num :=
  match c with
  | Gt => PInf
  | Lt => NInf
  | Eq => NaN
  end.

Definition flip (c : comparison) : comparison := CompOpp c.

Definition mul (a b : num) : num :=
  match a, b with
  | NaN, _ | _, NaN => NaN
  | PInf, PInf | NInf, NInf => PInf
  | PInf, NInf | NInf, PInf => NInf
  | PInf, Fin q | Fin q, PInf => inf_of_sign (sgn q)
  | NInf, Fin q | Fin q, NInf => inf_of_sign (flip (sgn q))
  | Fin p, Fin q => Fin (p * q)
  end.

(** Division; a zero divisor is the positive zero. *)
Definition div (a b : num) : num :=
  match a, b with
  | NaN, _ | _, NaN => NaN
  | (PInf | NInf), (PInf | NInf) => NaN
  | PInf, Fin q => match sgn q with Lt => NInf | _ => PInf end
  | NInf, Fin q => match sgn q with Lt => PInf | _ => NInf end
  | Fin _, (PInf | NInf) => Fin 0
  | Fin p, Fin q =>
      if Qeq_bool q 0 then inf_of_sign (sgn p) else Fin (p / q)
  end.

(** [x ** 2]. *)
Definition sq (a : num) : num := mul a a.

(** [a < b]; every comparison with NaN is false. *)
Definition ltb (a b : num) : bool :=
  match a, b with
  | NaN, _ | _, NaN => false
  | _, NInf => false
  | NInf, _ => true
  | PInf, _ => false
  | _, PInf => true
  | Fin p, Fin q => if Qlt_le_dec p q then true else false
  end.

(** [Math.max] and [Math.min] of two arguments. *)
Definition max2 (a b : num) : num :=
  match a, b with
  | NaN, _ | _, NaN => NaN
  | _, _ => if ltb a b then b else a
  end.

Definition min2 (a b : num) : num :=
  match a, b with
  | NaN, _ | _, NaN => NaN
  | _, _ => if ltb b a then b else a
  end.

(** [Math.max(...l)]: minus infinity for no argument, NaN as soon as
    one argument is NaN. *)
Definition Math_max (l : list num) : num := fold_left max2 l NInf.

(** Truthiness of a number and [a || b]. *)
Definition truthy (a : num) : bool :=
  match a with
  | NaN => false
  | Fin q => negb (Qeq_bool q 0)
  | _ => true
  end.

Definition or_else (a b : num) : num := if truthy a then a else b.

(** Equality of the JSON text of two numbers: [JSON.stringify] writes
    every non-finite number as [null]. *)
Definition json_eqb (a b : num) : bool :=
  match a, b with
  | Fin p, Fin q => Qeq_bool p q
  | Fin _, _ | _, Fin _ => false
  | _, _ => true
  end.

(** [Math.min(...l)], dually. *)
Definition Math_min (l : list num) : num := fold_left min2 l PInf.

(* ------------------------------------------------------------------ *)
(** *** Square roots

    The square root of a rational is in general irrational.  A [root]
    stands for the exact square root of its radicand, so that the
    distances of the hit test are carried without approximation; the
    section on real numbers below relates [root_ltb] to the order of
    the real square roots. *)

Inductive root : Type := Sqrt (radicand : num).

Definition radicand (r : root) : num := match r with Sqrt a => a end.

(** [Math.sqrt(a)]: NaN below zero. *)
Definition Math_sqrt (a : num) : root :=
  if ltb a (Fin 0) then Sqrt NaN else Sqrt a.

(** A non-negative number seen as a root. *)
Definition root_of (a : num) : root := Sqrt (sq a).

(** [r < s] on roots of non-negative radicands. *)
Definition root_ltb (r s : root) : bool := ltb (radicand r) (radicand s).

(* ------------------------------------------------------------------ *)
(** *** Strings: [split] and [Number] *)

(** [s.split(sep)] for a one-character separator. *)
Fixpoint split (sep : ascii) (s : string) : list string :=
  match s with
  | EmptyString => [EmptyString]
  | String c s' =>
      if Ascii.eqb c sep then EmptyString :: split sep s'
      else match split sep s' with
           | [] => [String c EmptyString]
           | w :: ws => String c w :: ws
           end
  end.

(** White space stripped by the string-to-number conversion (the ASCII
    part of it: TAB, LF, VT, FF, CR, SP). *)
Definition is_ws (c : ascii) : bool :=
  match nat_of_ascii c with
  | 9%nat | 10%nat | 11%nat | 12%nat | 13%nat | 32%nat => true
  | _ => false
  end.

Fixpoint trim_left (s : string) : string :=
  match s with
  | String c s' => if is_ws c then trim_left s' else s
  | EmptyString => EmptyString
  end.

Fixpoint trim_right (s : string) : string :=
  match s with
  | EmptyString => EmptyString
  | String c s' =>
      match trim_right s' with
      | EmptyString => if is_ws c then EmptyString else String c EmptyString
      | t => String c t
      end
  end.

Definition trim (s : string) : string := trim_right (trim_left s).

(** Value of a digit in the given base. *)
Definition digit_val (base : Z) (c : ascii) : option Z :=
  let n := Z.of_nat (nat_of_ascii c) in
  let v :=
    if (48 <=? n) && (n <=? 57) then Some (n - 48)
    else if (97 <=? n) && (n <=? 102) then Some (n - 87)
    else if (65 <=? n) && (n <=? 70) then Some (n - 55)
    else None in
  match v with
  | Some d => if d <? base then Some d else None
  | None => None
  end.

(** Reads the longest prefix of digits: the accumulated value, the
    number of digits read and the rest of the string. *)
Fixpoint read_digits (base : Z) (s : string) (acc : Z) (count : nat)
  : Z * nat * string :=
  match s with
  | String c s' =>
      match digit_val base c with
      | Some d => read_digits base s' (acc * base + d) (S count)
      | None => (acc, count, s)
      end
  | EmptyString => (acc, count, s)
  end.

(** A whole string of digits in the given base, at least one. *)
Definition all_digits (base : Z) (s : string) : num :=
  match read_digits base s 0 0%nat with
  | (v, S _, EmptyString) => of_Z v
  | _ => NaN
  end.

(** Optional exponent part [e[+-]ddd] that must end the string. *)
Definition read_exponent (s : string) : option Z :=
  match s with
  | EmptyString => Some 0
  | String c s' =>
      if Ascii.eqb c "e" || Ascii.eqb c "E" then
        let '(sg, s'') :=
          match s' with
          | String "+" t => (1, t)
          | String "-" t => (-1, t)
          | _ => (1, s')
          end in
        match read_digits 10 s'' 0 0%nat with
        | (v, S _, EmptyString) => Some (sg * v)
        | _ => None
        end
      else None
  end.

(** An unsigned decimal literal: [ddd], [ddd.], [ddd.ddd], [.ddd], each
    with an optional exponent.  The value is exact, where the code
    rounds it to the nearest number it can hold. *)
Definition unsigned_decimal (s : string) : num :=
  let '(vi, ni, r) := read_digits 10 s 0 0%nat in
  let '(m, nf, r') :=
    match r with
    | String "." t =>
        let '(v, n, t') := read_digits 10 t vi 0%nat in (v, n, t')
    | _ => (vi, 0%nat, r)
    end in
  match (ni + nf)%nat with
  | O => NaN
  | S _ =>
      match read_exponent r' with
      | Some e => Fin (inject_Z m * Qpower 10 (e - Z.of_nat nf))
      | None => NaN
      end
  end.

Definition unsigned_literal (s : string) : num :=
  if String.eqb s "Infinity" then PInf else unsigned_decimal s.

(** The string-to-number conversion of [Number(s)]. *)
Definition StringToNumber (s : string) : num :=
  match trim s with
  | EmptyString => Fin 0
  | String "+" t => unsigned_literal t
  | String "-" t => neg (unsigned_literal t)
  | String "0" (String "x" t) | String "0" (String "X" t) => all_digits 16 t
  | String "0" (String "o" t) | String "0" (String "O" t) => all_digits 8 t
  | String "0" (String "b" t) | String "0" (String "B" t) => all_digits 2 t
  | t => unsigned_literal t
  end.

(** [Number(v)] where [v] is a string or [undefined]. *)
Definition Number (v : option string) : num :=
  match v with
  | Some s => StringToNumber s
  | None => NaN
  end.

(** The text of a non-negative integer in a template literal. *)
Definition toString (n : nat) : string :=
  NilEmpty.string_of_uint (Nat.to_uint n).

End JS.

Import JS.

(* ================================================================== *)
(** ** Mesh model (App.tsx) *)
(* ================================================================== *)

Record MeshPoint : Type := mkPoint { id : string; x : num; y : num }.

Abbreviation Mesh := (list MeshPoint).

Definition DEFAULT_ROWS : Z := 4.
Definition DEFAULT_COLS : Z := 4.

(** The point pushed by the loop body of [buildDefaultMesh] at row [r]
    and column [c]. *)
Definition grid_point (rows cols : Z) (r c : nat) : MeshPoint :=
  {| id := toString r ++ "-" ++ toString c;
     x := div (of_nat c) (of_Z (cols - 1));
     y := div (of_nat r) (of_Z (rows - 1)) |}.

(** [buildDefaultMesh]: the two nested counting loops, rows outside. *)
Definition buildDefaultMesh (rows cols : Z) : Mesh :=
  flat_map
    (fun r => map (grid_point rows cols r) (seq 0 (Z.to_nat cols)))
    (seq 0 (Z.to_nat rows)).

(** [p.id.split('-')[k]], [undefined] when there is no such part. *)
Definition id_part (k : nat) (p : MeshPoint) : option string :=
  split "-" (id p) !! k.

(** The grid dimensions the editor derives from the ids:
    [Math.max(...mesh.map(p => Number(p.id.split('-')[k]))) + 1 || 1]. *)
Definition derive_dim (k : nat) (mesh : Mesh) : num :=
  or_else
    (add (Math_max (map (fun p => Number (id_part k p)) mesh)) (of_Z 1))
    (of_Z 1).

Definition derive_rows (mesh : Mesh) : num := derive_dim 0 mesh.
Definition derive_cols (mesh : Mesh) : num := derive_dim 1 mesh.

(** [mesh.find(p => p.id === `${r}-${c}`)]. *)
Definition getPoint (mesh : Mesh) (r c : nat) : option MeshPoint :=
  find (fun p => String.eqb (id p) (toString r ++ "-" ++ toString c)) mesh.

(** Equality of the JSON texts of two meshes, the test
    [JSON.stringify(a) === JSON.stringify(b)]: same length, and point
    by point the same id and the same number texts. *)
Definition point_json_eqb (p q : MeshPoint) : bool :=
  String.eqb (id p) (id q) && json_eqb (x p) (x q) && json_eqb (y p) (y q).

Fixpoint mesh_json_eqb (a b : Mesh) : bool :=
  match a, b with
  | [], [] => true
  | p :: a', q :: b' => point_json_eqb p q && mesh_json_eqb a' b'
  | _, _ => false
  end.

(* ================================================================== *)
(** ** Mesh history (useMeshHistory.ts and App.tsx) *)
(* ================================================================== *)

Module MeshHistory.

(** The two refs and the React state of the hook; [mesh] is [None]
    when the state was set to [undefined]. *)
Record history : Type := mkHistory {
  historyRef : list Mesh;
  indexRef : nat;
  mesh : option Mesh;
}.

(** [useMeshHistory(initialMesh)]. *)
Definition init (initialMesh : Mesh) : history :=
  {| historyRef := [initialMesh]; indexRef := 0; mesh := Some initialMesh |}.

(** [JSON.stringify(m) !== JSON.stringify(historyRef.current[i])]; the
    text of [undefined] is [undefined], different from every string. *)
Definition hasChanged (m : Mesh) (cur : option Mesh) : bool :=
  match cur with
  | Some c => negb (mesh_json_eqb m c)
  | None => true
  end.

Section Bounded.

Variable MAX_HISTORY : nat.

(** [setMesh(newMesh)] with a mesh value. *)
Definition setMesh (newMesh : Mesh) (h : history) : history :=
  let currentMesh := historyRef h !! indexRef h in
  if negb (hasChanged newMesh currentMesh) then h
  else
    let sliced := take (indexRef h + 1) (historyRef h) in
    let pushed := (sliced ++ [newMesh])%list in
    if (MAX_HISTORY <? length pushed)%nat
    then {| historyRef := drop 1 pushed;
            indexRef := indexRef h;
            mesh := Some newMesh |}
    else {| historyRef := pushed;
            indexRef := indexRef h + 1;
            mesh := Some newMesh |}.

(** [setMesh(f)] with an updater function, applied to the snapshot at
    the cursor. *)
Definition setMeshWith (f : option Mesh -> Mesh) (h : history) : history :=
  setMesh (f (historyRef h !! indexRef h)) h.

End Bounded.

Definition undo (h : history) : history :=
  if (0 <? indexRef h)%nat
  then {| historyRef := historyRef h;
          indexRef := indexRef h - 1;
          mesh := historyRef h !! (indexRef h - 1)%nat |}
  else h.

Definition redo (h : history) : history :=
  if Z.of_nat (indexRef h) <? Z.of_nat (length (historyRef h)) - 1
  then {| historyRef := historyRef h;
          indexRef := indexRef h + 1;
          mesh := historyRef h !! (indexRef h + 1)%nat |}
  else h.

(** The flags [canUndo] and [canRedo]; the application keeps them in
    state variables that [updateHistoryState] sets to these values after
    each operation. *)
Definition canUndo (h : history) : bool := (0 <? indexRef h)%nat.
Definition canRedo (h : history) : bool :=
  Z.of_nat (indexRef h) <? Z.of_nat (length (historyRef h)) - 1.

Definition resetHistory (newMesh : Mesh) (h : history) : history :=
  {| historyRef := [newMesh]; indexRef := 0; mesh := Some newMesh |}.

Definition historyLength (h : history) : nat := length (historyRef h).

(** The cursor is a valid index. *)
Definition valid (h : history) : Prop :=
  (indexRef h < length (historyRef h))%nat.

End MeshHistory.

(** The hook keeps 50 snapshots, the application 30. *)
Module useMeshHistory.
Definition MAX_HISTORY : nat := 50.
Definition setMesh := MeshHistory.setMesh MAX_HISTORY.
Definition setMeshWith := MeshHistory.setMeshWith MAX_HISTORY.
Definition undo := MeshHistory.undo.
Definition redo := MeshHistory.redo.
End useMeshHistory.

Module App.
Definition MAX_HISTORY : nat := 30.
Definition setMesh := MeshHistory.setMesh MAX_HISTORY.
Definition handleUndo := MeshHistory.undo.
Definition handleRedo := MeshHistory.redo.
Definition handleResetMesh (h : MeshHistory.history) :=
    MeshHistory.resetHistory (buildDefaultMesh DEFAULT_ROWS DEFAULT_COLS) h.
End App.

(* ================================================================== *)
(** ** Interactive mesh editor (MeshWarpEditor.tsx) *)
(* ================================================================== *)

Record Size : Type := mkSize { width : num; height : num }.

Module Editor.

Definition HANDLE_RADIUS : num := of_Z 12.
Definition HANDLE_HIT_SLOP : num := of_Z 20.

(** Pixel position of a point in the viewport. *)
Definition pixel_x (size : Size) (p : MeshPoint) : num :=
  mul (x p) (width size).
Definition pixel_y (size : Size) (p : MeshPoint) : num :=
  mul (y p) (height size).

(** One turn of the loop of [findNearestPoint] over the pair
    [(nearest, minDist)]. *)
Definition nearest_step (size : Size) (touchX touchY : num)
    (st : option string * root) (point : MeshPoint) : option string * root :=
  let '(nearest, minDist) := st in
  let px := pixel_x size point in
  let py := pixel_y size point in
  let dist := Math_sqrt (add (sq (sub touchX px)) (sq (sub touchY py))) in
  if root_ltb dist minDist then (Some (id point), dist) else (nearest, minDist).

Definition findNearestPoint (size : option Size) (mesh : Mesh)
    (touchX touchY : num) : option string :=
  match size with
  | None => None
  | Some sz =>
      fst (fold_left (nearest_step sz touchX touchY) mesh
             (None, root_of (add HANDLE_HIT_SLOP HANDLE_RADIUS)))
  end.

(** [updatePoint]: the mesh handed to [onMeshChange], nothing when the
    layout size is not known yet. *)
Definition updatePoint (size : option Size) (mesh : Mesh)
    (pid : string) (touchX touchY : num) : option Mesh :=
  match size with
  | None => None
  | Some sz =>
      let clampedX := max2 (Fin 0) (min2 (width sz) touchX) in
      let clampedY := max2 (Fin 0) (min2 (height sz) touchY) in
      Some (map (fun p =>
                   if String.eqb (id p) pid
                   then {| id := id p;
                           x := div clampedX (width sz);
                           y := div clampedY (height sz) |}
                   else p) mesh)
  end.

End Editor.

(* ================================================================== *)
(** ** Warp renderer (MeshWarpCanvas.tsx) *)
(* ================================================================== *)

Module Canvas.

Record Pt : Type := mkPt { px : num; py : num }.

(** One sub-cell drawn by [drawWarpedQuad]: the clip path through the
    four interpolated corners, the source rectangle and the destination
    rectangle of [drawImage]. *)
Record DrawCmd : Type := mkCmd {
  q0 : Pt; q1 : Pt; q2 : Pt; q3 : Pt;
  subSrcX : num; subSrcY : num; subSrcW : num; subSrcH : num;
  dstX : num; dstY : num; dstW : num; dstH : num;
}.

Section Renderer.

Variables (mesh : Mesh) (width height : num) (gridSize : nat).

Definition getMeshPoint (row col : nat) : Pt :=
  let index := (row * gridSize + col)%nat in
  match mesh !! index with
  | Some point => {| px := mul (x point) width; py := mul (y point) height |}
  | None =>
      {| px := mul (div (of_nat col) (of_Z (Z.of_nat gridSize - 1))) width;
         py := mul (div (of_nat row) (of_Z (Z.of_nat gridSize - 1))) height |}
  end.

Definition lerp (a b t : num) : num := add a (mul (sub b a) t).

Definition bilinear (p0 p1 p2 p3 : Pt) (u v : num) : Pt :=
  {| px := lerp (lerp (px p0) (px p1) u) (lerp (px p3) (px p2) u) v;
     py := lerp (lerp (py p0) (py p1) u) (lerp (py p3) (py p2) u) v |}.

(** The body of the two loops of [drawWarpedQuad] at sub-cell [(i, j)]. *)
Definition subQuad (srcX srcY srcW srcH : num) (p0 p1 p2 p3 : Pt)
    (subdivisions : nat) (i j : nat) : DrawCmd :=
  let u0 := div (of_nat i) (of_nat subdivisions) in
  let u1 := div (add (of_nat i) (of_Z 1)) (of_nat subdivisions) in
  let v0 := div (of_nat j) (of_nat subdivisions) in
  let v1 := div (add (of_nat j) (of_Z 1)) (of_nat subdivisions) in
  let c0 := bilinear p0 p1 p2 p3 u0 v0 in
  let c1 := bilinear p0 p1 p2 p3 u1 v0 in
  let c2 := bilinear p0 p1 p2 p3 u1 v1 in
  let c3 := bilinear p0 p1 p2 p3 u0 v1 in
  let minX := Math_min [px c0; px c1; px c2; px c3] in
  let minY := Math_min [py c0; py c1; py c2; py c3] in
  let maxX := Math_max [px c0; px c1; px c2; px c3] in
  let maxY := Math_max [py c0; py c1; py c2; py c3] in
  {| q0 := c0; q1 := c1; q2 := c2; q3 := c3;
     subSrcX := add srcX (mul srcW u0);
     subSrcY := add srcY (mul srcH v0);
     subSrcW := div srcW (of_nat subdivisions);
     subSrcH := div srcH (of_nat subdivisions);
     dstX := minX; dstY := minY;
     dstW := sub maxX minX; dstH := sub maxY minY |}.

Definition drawWarpedQuad (srcX srcY srcW srcH : num) (p0 p1 p2 p3 : Pt)
    (subdivisions : nat) : list DrawCmd :=
  flat_map
    (fun i => map (subQuad srcX srcY srcW srcH p0 p1 p2 p3 subdivisions i)
                (seq 0 subdivisions))
    (seq 0 subdivisions).

(** The cell [(row, col)] as [render] draws it. *)
Definition drawCell (cellWidth cellHeight : num) (row col : nat)
  : list DrawCmd :=
  let p0 := getMeshPoint row col in
  let p1 := getMeshPoint row (col + 1) in
  let p2 := getMeshPoint (row + 1) (col + 1) in
  let p3 := getMeshPoint (row + 1) col in
  drawWarpedQuad (mul (of_nat col) cellWidth) (mul (of_nat row) cellHeight)
    cellWidth cellHeight p0 p1 p2 p3 2.

(** One frame of [render] while the video plays; [video_videoWidth] and
    [video_videoHeight] are the intrinsic size of the video, zero before
    it is known. *)
Definition render (video_videoWidth video_videoHeight : num)
  : list DrawCmd :=
  let videoWidth := or_else video_videoWidth width in
  let videoHeight := or_else video_videoHeight height in
  let cellWidth := div videoWidth (of_Z (Z.of_nat gridSize - 1)) in
  let cellHeight := div videoHeight (of_Z (Z.of_nat gridSize - 1)) in
  flat_map
    (fun row => flat_map (drawCell cellWidth cellHeight row)
                  (seq 0 (gridSize - 1)))
    (seq 0 (gridSize - 1)).

End Renderer.

End Canvas.

(* ================================================================== *)
(** ** Playback controller (PlaybackScreen.tsx with the cue cursor of
       App.tsx) *)
(* ================================================================== *)

Module Playback.

Record VideoCue : Type := mkCue {
  cue_id : string;
  name : string;
  uri : string;
  loop : bool;
  duration : option num;
  thumbnail : option string;
  createdAt : num;
}.

Definition TRIGGER_KEYS : list string :=
  [" "; "Enter"; "ArrowUp"; "MediaPlayPause"; "AudioVolumeUp";
   "AudioVolumeDown"; "VolumeUp"; "VolumeDown"].
Definition NEXT_CUE_KEYS : list string := ["ArrowRight"; "n"; "N"].
Definition PREV_CUE_KEYS : list string := ["ArrowLeft"; "p"; "P"].

Definition includes (l : list string) (k : string) : bool :=
  existsb (String.eqb k) l.

(** The state of the screen and the playlist state it is given. *)
Record state : Type := mkState {
  playing : bool;
  armed : bool;
  showControls : bool;
  blackout : bool;
  videoCues : list VideoCue;
  currentCueIndex : nat;
}.

Definition set_flags (s : state) (p a c : bool) : state :=
  {| playing := p; armed := a; showControls := c; blackout := blackout s;
     videoCues := videoCues s; currentCueIndex := currentCueIndex s |}.

Definition set_blackout (s : state) (b : bool) : state :=
  {| playing := playing s; armed := armed s; showControls := showControls s;
     blackout := b;
     videoCues := videoCues s; currentCueIndex := currentCueIndex s |}.

Definition set_index (s : state) (i : nat) : state :=
  {| playing := playing s; armed := armed s; showControls := showControls s;
     blackout := blackout s;
     videoCues := videoCues s; currentCueIndex := i |}.

(** [handleNextCue] and [handlePrevCue] of the application. *)
Definition onNextCue (s : state) : state :=
  if Z.of_nat (currentCueIndex s) <? Z.of_nat (length (videoCues s)) - 1
  then set_index s (currentCueIndex s + 1)
  else s.

Definition onPrevCue (s : state) : state :=
  if (0 <? currentCueIndex s)%nat
  then set_index s (currentCueIndex s - 1)
  else s.

(** [videoCues[currentCueIndex]?.loop || false]. *)
Definition currentCueLoop (s : state) : bool :=
  match videoCues s !! currentCueIndex s with
  | Some cue => loop cue
  | None => false
  end.

Definition handleKeyPress (key : string) (s : state) : state :=
  if String.eqb key "Escape" then
    let s' := set_blackout s (negb (blackout s)) in
    if playing s then set_flags s' false true (showControls s') else s'
  else if negb (playing s) && includes NEXT_CUE_KEYS key then onNextCue s
  else if negb (playing s) && includes PREV_CUE_KEYS key then onPrevCue s
  else if negb (armed s) || blackout s then s
  else if includes TRIGGER_KEYS key then set_flags s true false false
  else s.

Definition handlePlaybackFinished (s : state) : state :=
  let s' := set_flags s false true (showControls s) in
  if negb (currentCueLoop s)
     && (Z.of_nat (currentCueIndex s) <? Z.of_nat (length (videoCues s)) - 1)
  then onNextCue s'
  else s'.

Definition handleManualTrigger (s : state) : state :=
  if negb (armed s) || blackout s then s
  else set_flags s true false false.

Definition handleBlackout (s : state) : state :=
  let s' := set_blackout s true in
  if playing s then set_flags s' false true (showControls s') else s'.

Definition handleUnblackout (s : state) : state := set_blackout s false.

(** The states of the controller: armed and idle, or playing; neither
    while blacked out. *)
Definition Armed (s : state) : Prop :=
  armed s = true /\ playing s = false /\ blackout s = false.
Definition Playing (s : state) : Prop :=
  playing s = true /\ armed s = false /\ blackout s = false.

(** The two trigger inputs: a key of [TRIGGER_KEYS] from the hardware
    button, or the button on the screen. *)
Inductive trigger : Type :=
| HardwareKey (key : string)
| ManualButton.

Definition is_trigger (t : trigger) : Prop :=
  match t with
  | HardwareKey key => includes TRIGGER_KEYS key = true
  | ManualButton => True
  end.

Definition fire (t : trigger) (s : state) : state :=
  match t with
  | HardwareKey key => handleKeyPress key s
  | ManualButton => handleManualTrigger s
  end.

End Playback.

(* ================================================================== *)
(** ** Playlist operations (App.tsx) *)
(* ================================================================== *)

Module Playlist.

Definition set_cues (s : Playback.state) (cues : list Playback.VideoCue)
  : Playback.state :=
  {| Playback.playing := Playback.playing s;
     Playback.armed := Playback.armed s;
     Playback.showControls := Playback.showControls s;
     Playback.blackout := Playback.blackout s;
     Playback.videoCues := cues;
     Playback.currentCueIndex := Playback.currentCueIndex s |}.

(** [handleVideoSelected], given the cue that [createVideoCue] returned
    (its id and default name come from the clock and a random number). *)
Definition handleVideoSelected (newCue : Playback.VideoCue)
    (s : Playback.state) : Playback.state :=
  let updatedCues := (Playback.videoCues s ++ [newCue])%list in
  Playback.set_index (set_cues s updatedCues)
    (Z.to_nat (Z.of_nat (length updatedCues) - 1)).

Definition handleRemoveCue (cueId : string) (s : Playback.state)
  : Playback.state :=
  let updatedCues :=
    List.filter (fun c => negb (String.eqb (Playback.cue_id c) cueId))
      (Playback.videoCues s) in
  let s' := set_cues s updatedCues in
  if (length updatedCues <=? Playback.currentCueIndex s)%nat
  then Playback.set_index s'
         (Z.to_nat (Z.max 0 (Z.of_nat (length updatedCues) - 1)))
  else s'.

Definition toggle_loop (cueId : string) (c : Playback.VideoCue)
  : Playback.VideoCue :=
  if String.eqb (Playback.cue_id c) cueId
  then {| Playback.cue_id := Playback.cue_id c;
          Playback.name := Playback.name c;
          Playback.uri := Playback.uri c;
          Playback.loop := negb (Playback.loop c);
          Playback.duration := Playback.duration c;
          Playback.thumbnail := Playback.thumbnail c;
          Playback.createdAt := Playback.createdAt c |}
  else c.

Definition handleToggleCueLoop (cueId : string) (s : Playback.state)
  : Playback.state :=
  set_cues s (map (toggle_loop cueId) (Playback.videoCues s)).

Definition handleSelectCue (index : Z) (s : Playback.state)
  : Playback.state :=
  if (0 <=? index) && (index <? Z.of_nat (length (Playback.videoCues s)))
  then Playback.set_index s (Z.to_nat index)
  else s.

(** [videoCues[currentCueIndex]?.uri || null]; the empty uri is falsy. *)
Definition currentVideoUri (s : Playback.state) : option string :=
  match Playback.videoCues s !! Playback.currentCueIndex s with
  | Some cue =>
      if String.eqb (Playback.uri cue) "" then None
      else Some (Playback.uri cue)
  | None => None
  end.

End Playlist.

(* ================================================================== *)
(** ** Events of the playback screen (PlaybackScreen.tsx,
       HiddenKeyCapture.tsx) *)
(* ================================================================== *)

Module Screen.

Definition handleScreenTap (s : Playback.state) : Playback.state :=
  if negb (Playback.playing s)
  then Playback.set_flags s (Playback.playing s) (Playback.armed s)
         (negb (Playback.showControls s))
  else s.

(** What can happen to the screen: a key from the capture component,
    the end of playback, and the touchable elements. *)
Inductive event : Type :=
| KeyPress (key : string)
| PlaybackFinished
| ManualTrigger
| ScreenTap
| BlackoutButton
| UnblackoutTap
| NextButton
| PrevButton.

Definition step (e : event) (s : Playback.state) : Playback.state :=
  match e with
  | KeyPress key => Playback.handleKeyPress key s
  | PlaybackFinished => Playback.handlePlaybackFinished s
  | ManualTrigger => Playback.handleManualTrigger s
  | ScreenTap => handleScreenTap s
  | BlackoutButton => Playback.handleBlackout s
  | UnblackoutTap => Playback.handleUnblackout s
  | NextButton => Playback.onNextCue s
  | PrevButton => Playback.onPrevCue s
  end.

(** The screen when it is first shown. *)
Definition initial (cues : list Playback.VideoCue) (index : nat)
  : Playback.state :=
  {| Playback.playing := false; Playback.armed := true;
     Playback.showControls := true; Playback.blackout := false;
     Playback.videoCues := cues; Playback.currentCueIndex := index |}.

(** The actions of the media session and the key each one is turned
    into. *)
Inductive media_action : Type :=
| MediaPlay
| MediaPause
| MediaPreviousTrack
| MediaNextTrack.

Definition media_key (a : media_action) : string :=
  match a with
  | MediaPlay | MediaPause => " "
  | MediaPreviousTrack => "ArrowLeft"
  | MediaNextTrack => "ArrowRight"
  end.

End Screen.

(* ================================================================== *)
(** ** Touch handling of the editor (MeshWarpEditor.tsx) *)
(* ================================================================== *)

Module Touch.

(** A string or [null] as a condition: [null] and the empty string are
    falsy. *)
Definition truthy_id (o : option string) : bool :=
  match o with
  | Some s => negb (String.eqb s "")
  | None => false
  end.

(** An object or [null] as a condition. *)
Definition known {A : Type} (o : option A) : bool :=
  match o with
  | Some _ => true
  | None => false
  end.

(** The two state variables of the editor. *)
Record editor : Type := mkEditor {
  size : option Size;
  activePointId : option string;
}.

Definition initial : editor := {| size := None; activePointId := None |}.

Definition handleLayout (w h : num) (e : editor) : editor :=
  {| size := Some {| width := w; height := h |};
     activePointId := activePointId e |}.

Definition handleTouchStart (editable : bool) (mesh : Mesh)
    (locationX locationY : num) (e : editor) : editor :=
  if negb editable || negb (known (size e)) then e
  else
    let pointId :=
      Editor.findNearestPoint (size e) mesh locationX locationY in
    if truthy_id pointId
    then {| size := size e; activePointId := pointId |}
    else e.

(** [handleTouchMove]: the mesh handed to [onMeshChange], if any. *)
Definition handleTouchMove (editable : bool) (mesh : Mesh)
    (locationX locationY : num) (e : editor) : option Mesh :=
  if negb editable || negb (truthy_id (activePointId e))
     || negb (known (size e))
  then None
  else
    match activePointId e with
    | Some pid => Editor.updatePoint (size e) mesh pid locationX locationY
    | None => None
    end.

Definition handleTouchEnd (e : editor) : editor :=
  {| size := size e; activePointId := None |}.

End Touch.

(* ================================================================== *)
(** ** The calibration screen: editor, history and buttons
       (CalibrationScreen.tsx, App.tsx) *)
(* ================================================================== *)

Module Calibration.

(** What can happen on the calibration screen. *)
Inductive event : Type :=
| Layout (w h : num)
| TouchStart (locationX locationY : num)
| TouchMove (locationX locationY : num)
| TouchEnd
| UndoButton
| RedoButton
| SaveButton
| ResetButton.

(** The editor is given the mesh of the application and [setMesh] as
    [onMeshChange]; [editable] is [true].  The screen cannot be drawn
    when the mesh is [undefined]. *)
Definition step (ev : event) (st : Touch.editor * MeshHistory.history)
  : option (Touch.editor * MeshHistory.history) :=
  let '(e, h) := st in
  match MeshHistory.mesh h with
  | None => None
  | Some mesh =>
      Some
        match ev with
        | Layout w h' => (Touch.handleLayout w h' e, h)
        | TouchStart lx ly => (Touch.handleTouchStart true mesh lx ly e, h)
        | TouchMove lx ly =>
            match Touch.handleTouchMove true mesh lx ly e with
            | Some newMesh => (e, App.setMesh newMesh h)
            | None => (e, h)
            end
        | TouchEnd => (Touch.handleTouchEnd e, h)
        | UndoButton => (e, App.handleUndo h)
        | RedoButton => (e, App.handleRedo h)
        | SaveButton => (e, App.setMesh mesh h)
        | ResetButton => (e, App.handleResetMesh h)
        end
  end.

Fixpoint run (events : list event)
    (st : Touch.editor * MeshHistory.history)
  : option (Touch.editor * MeshHistory.history) :=
  match events with
  | [] => Some st
  | ev :: rest =>
      match step ev st with
      | Some st' => run rest st'
      | None => None
      end
  end.

(** The screen of an application that found no stored mesh. *)
Definition initial : Touch.editor * MeshHistory.history :=
  (Touch.initial,
   MeshHistory.init (buildDefaultMesh DEFAULT_ROWS DEFAULT_COLS)).

End Calibration.

(* ================================================================== *)
(** ** The lines of the editor grid (MeshWarpEditor.tsx) *)
(* ================================================================== *)

Module Lines.

(** A [Line] element: its key and its two end points in pixels. *)
Record Line : Type := mkLine {
  key : string;
  x1 : num; y1 : num;
  x2 : num; y2 : num;
}.

(** The number of turns of [for (let i = 0; i < n; i++)], the least
    counter that is not below [n]; none when the loop does not end. *)
Definition loop_count (n : num) : option nat :=
  match n with
  | PInf => None
  | Fin q => Some (Z.to_nat (Qceiling q))
  | NaN | NInf => Some 0%nat
  end.

Definition segment (prefix : string) (sz : Size) (r c : nat)
    (p q : MeshPoint) : Line :=
  {| key := prefix ++ toString r ++ "-" ++ toString c;
     x1 := mul (x p) (width sz); y1 := mul (y p) (height sz);
     x2 := mul (x q) (width sz); y2 := mul (y q) (height sz) |}.

(** The body of the two loops of [renderLines] at [(r, c)]. *)
Definition cell_lines (sz : Size) (mesh : Mesh) (rows cols : num)
    (r c : nat) : list Line :=
  let p := getPoint mesh r c in
  let pRight :=
    if ltb (of_nat c) (sub cols (of_Z 1))
    then getPoint mesh r (c + 1) else None in
  let pDown :=
    if ltb (of_nat r) (sub rows (of_Z 1))
    then getPoint mesh (r + 1) c else None in
  (match p, pRight with
   | Some p, Some q => [segment "h-" sz r c p q]
   | _, _ => []
   end
   ++
   match p, pDown with
   | Some p, Some q => [segment "v-" sz r c p q]
   | _, _ => []
   end)%list.

(** What a call of [renderLines] comes to: [null], a list of lines, or
    a loop that does not end. *)
Inductive outcome : Type :=
| Null
| Nodes (lines : list Line)
| Diverges.

Definition renderLines (size : option Size) (mesh : Mesh) : outcome :=
  match size with
  | None => Null
  | Some sz =>
      let rows := derive_rows mesh in
      let cols := derive_cols mesh in
      match loop_count rows, loop_count cols with
      | None, _ => Diverges
      | Some O, _ => Nodes []
      | Some (S _), None => Diverges
      | Some R, Some C =>
          Nodes (flat_map
                   (fun r => flat_map (cell_lines sz mesh rows cols r)
                               (seq 0 C))
                   (seq 0 R))
      end
  end.

End Lines.

(* ================================================================== *)
(** ** Resizable video container (ResizableVideoContainer.tsx) *)
(* ================================================================== *)

Module Resizable.

Record Pos : Type := mkPos { pos_x : num; pos_y : num }.

(** The state variables of the container. *)
Record container : Type := mkContainer {
  size : Size;
  position : Pos;
  activeHandle : option string;
  startTouch : option Pos;
  startSize : option Size;
  startPos : option Pos;
}.

Section Props.

Variables (minWidth minHeight : num).

Definition handleTouchStart (handle : string) (pageX pageY : num)
    (s : container) : container :=
  {| size := size s; position := position s;
     activeHandle := Some handle;
     startTouch := Some {| pos_x := pageX; pos_y := pageY |};
     startSize := Some (size s);
     startPos := Some (position s) |}.

(** The [switch] of [handleTouchMove]: the new width, height, x and y
    for the handle that is dragged. *)
Definition resized (handle : string) (ss : Size) (sp : Pos)
    (deltaX deltaY : num) : Size * Pos :=
  let grow_w := max2 minWidth (add (width ss) deltaX) in
  let shrink_w := max2 minWidth (sub (width ss) deltaX) in
  let grow_h := max2 minHeight (add (height ss) deltaY) in
  let shrink_h := max2 minHeight (sub (height ss) deltaY) in
  let left w := add (pos_x sp) (sub (width ss) w) in
  let top h := add (pos_y sp) (sub (height ss) h) in
  if String.eqb handle "move" then
    (ss, {| pos_x := add (pos_x sp) deltaX; pos_y := add (pos_y sp) deltaY |})
  else if String.eqb handle "se" then
    ({| width := grow_w; height := grow_h |}, sp)
  else if String.eqb handle "sw" then
    ({| width := shrink_w; height := grow_h |},
     {| pos_x := left shrink_w; pos_y := pos_y sp |})
  else if String.eqb handle "ne" then
    ({| width := grow_w; height := shrink_h |},
     {| pos_x := pos_x sp; pos_y := top shrink_h |})
  else if String.eqb handle "nw" then
    ({| width := shrink_w; height := shrink_h |},
     {| pos_x := left shrink_w; pos_y := top shrink_h |})
  else if String.eqb handle "n" then
    ({| width := width ss; height := shrink_h |},
     {| pos_x := pos_x sp; pos_y := top shrink_h |})
  else if String.eqb handle "s" then
    ({| width := width ss; height := grow_h |}, sp)
  else if String.eqb handle "e" then
    ({| width := grow_w; height := height ss |}, sp)
  else if String.eqb handle "w" then
    ({| width := shrink_w; height := height ss |},
     {| pos_x := left shrink_w; pos_y := pos_y sp |})
  else (ss, sp).

Definition handleTouchMove (pageX pageY : num) (s : container)
  : container :=
  match activeHandle s, startTouch s, startSize s, startPos s with
  | Some handle, Some st, Some ss, Some sp =>
      if String.eqb handle "" then s
      else
        let deltaX := sub pageX (pos_x st) in
        let deltaY := sub pageY (pos_y st) in
        let '(newSize, newPos) := resized handle ss sp deltaX deltaY in
        {| size := newSize;
           position := newPos;
           activeHandle := activeHandle s;
           startTouch := startTouch s;
           startSize := startSize s;
           startPos := startPos s |}
  | _, _, _, _ => s
  end.

Definition handleTouchEnd (s : container) : container :=
  {| size := size s; position := position s;
     activeHandle := None; startTouch := None;
     startSize := None; startPos := None |}.

End Props.

(** The touch events of the handles and of the content area. *)
Inductive event : Type :=
| Grant (handle : string) (pageX pageY : num)
| Move (pageX pageY : num)
| Release.

Definition step (minWidth minHeight : num) (ev : event) (s : container)
  : container :=
  match ev with
  | Grant handle px py => handleTouchStart handle px py s
  | Move px py => handleTouchMove minWidth minHeight px py s
  | Release => handleTouchEnd s
  end.

(** The container when it is mounted. *)
Definition initial (initialWidth initialHeight x0 y0 : num) : container :=
  {| size := {| width := initialWidth; height := initialHeight |};
     position := {| pos_x := x0; pos_y := y0 |};
     activeHandle := None; startTouch := None;
     startSize := None; startPos := None |}.

End Resizable.

(* ================================================================== *)
(** ** Picking a video (CalibrationScreen.tsx, video.ts) *)
(* ================================================================== *)

Module Picker.

(** [createVideoCue(uri, name)]; [t1], [t2] and [t3] are the three
    readings of the clock, in milliseconds, and [rnd] the random text
    of the id. *)
Definition createVideoCue (t1 t2 t3 : nat) (rnd : string)
    (uri : string) (name : option string) : Playback.VideoCue :=
  {| Playback.cue_id := "cue-" ++ toString t1 ++ "-" ++ rnd;
     Playback.name :=
       match name with
       | Some n => if String.eqb n "" then "Cue " ++ toString t2 else n
       | None => "Cue " ++ toString t2
       end;
     Playback.uri := uri;
     Playback.loop := false;
     Playback.duration := None;
     Playback.thumbnail := None;
     Playback.createdAt := of_nat t3 |}.

(** [uri.split('/').pop()?.split('.')[0] || `Cue ${cueCount + 1}`]. *)
Definition fileName (uri : string) (cueCount : nat) : string :=
  let part :=
    match last (split "/" uri) with
    | Some l => split "." l !! 0%nat
    | None => None
    end in
  match part with
  | Some n =>
      if String.eqb n "" then "Cue " ++ toString (cueCount + 1) else n
  | None => "Cue " ++ toString (cueCount + 1)
  end.

(** [pickVideo] once a video was chosen: the cue is named after the
    file and handed to [handleVideoSelected]. *)
Definition pickVideo (t1 t2 t3 : nat) (rnd : string) (uri : string)
    (s : Playback.state) : Playback.state :=
  let name := fileName uri (length (Playback.videoCues s)) in
  Playlist.handleVideoSelected
    (createVideoCue t1 t2 t3 rnd uri (Some name)) s.

End Picker.

(* ================================================================== *)
(** ** Vocabulary of the properties *)
(* ================================================================== *)

(** The text of a natural number contains no dash. *)
Fixpoint no_dash (s : string) : bool :=
  match s with
  | EmptyString => true
  | String c s' => negb (Ascii.eqb c "-") && no_dash s'
  end.

(** No character of a decimal text is white space. *)
Fixpoint no_ws (s : string) : bool :=
  match s with
  | EmptyString => true
  | String c s' => negb (is_ws c) && no_ws s'
  end.

(** The list built by two nested counting loops, rows outside: row
    [r] from [s] on, for [R] rows, and column [c] below [C] give
    [f r c]. *)
Definition grid {A : Type} (f : nat -> nat -> A) (C s R : nat) : list A :=
  flat_map (fun r => map (f r) (seq 0 C)) (seq s R).

(** [a <= b] between numbers; NaN is not comparable. *)
Definition le (a b : num) : Prop :=
  match a, b with
  | NaN, _ | _, NaN => False
  | NInf, _ | _, PInf => True
  | Fin p, Fin q => (p <= q)%Q
  | _, _ => False
  end.

Definition not_nan (a : num) : Prop := a <> NaN.

(** An id as the generator writes it. *)
Definition valid_id (s : string) : Prop :=
  exists r c : nat, s = toString r ++ "-" ++ toString c.

(** Deep equality of two meshes: point by point the same id and the
    same numbers. *)
Definition point_equal (p q : MeshPoint) : Prop :=
  id p = id q /\ num_eq (x p) (x q) /\ num_eq (y p) (y q).

Definition deep_equal (a b : Mesh) : Prop := Forall2 point_equal a b.

(** Recording a sequence of meshes, one [setMesh] each. *)
Definition record_all (N : nat) (ms : list Mesh) (h : MeshHistory.history)
  : MeshHistory.history :=
  fold_left (fun h m => MeshHistory.setMesh N m h) ms h.

(** No two of the meshes have the same JSON text. *)
Definition pairwise_distinct (ms : list Mesh) : Prop :=
  forall i j a b, (i < j)%nat -> ms !! i = Some a -> ms !! j = Some b ->
                  mesh_json_eqb b a = false.

(** Every mesh differs from the one before it, the first from [cur]. *)
Fixpoint chain (cur : Mesh) (ms : list Mesh) : Prop :=
  match ms with
  | [] => True
  | m :: ms' => mesh_json_eqb m cur = false /\ chain m ms'
  end.

(** The cursor is on the last snapshot. *)
Definition cursor_last (h : MeshHistory.history) : Prop :=
  length (MeshHistory.historyRef h) = (MeshHistory.indexRef h + 1)%nat.

(** A family of meshes with pairwise different texts: one point whose
    [x] is [k]. *)
Definition sample_mesh (k : nat) : Mesh :=
  [ {| id := "0-0"; x := of_nat k; y := Fin 0 |} ].

(** The rational carried by a finite number. *)
Definition to_Q (a : num) : Q :=
  match a with
  | Fin q => q
  | _ => 0%Q
  end.



(** Square of the hit threshold, handle radius plus hit slop. *)
Definition threshold2 : Q :=
  ((inject_Z 20 + inject_Z 12) * (inject_Z 20 + inject_Z 12))%Q.



(** The real number a root stands for, for a finite radicand. *)
Definition root_val (r : root) : R := sqrt (Q2R (to_Q (radicand r))).



(** One call on the history: the five operations of the hook, which are
    also those of the application. *)
Inductive history_op : Type :=
| OpSetMesh (m : Mesh)
| OpSetMeshWith (f : option Mesh -> Mesh)
| OpUndo
| OpRedo
| OpReset (m : Mesh).

Definition apply_op (N : nat) (o : history_op) (h : MeshHistory.history)
  : MeshHistory.history :=
  match o with
  | OpSetMesh m => MeshHistory.setMesh N m h
  | OpSetMeshWith f => MeshHistory.setMeshWith N f h
  | OpUndo => MeshHistory.undo h
  | OpRedo => MeshHistory.redo h
  | OpReset m => MeshHistory.resetHistory m h
  end.

Definition run_ops (N : nat) (ops : list history_op)
    (h : MeshHistory.history) : MeshHistory.history :=
  fold_left (fun h o => apply_op N o h) ops h.

(** The cursor is a valid index and the mesh shown is the snapshot at
    the cursor. *)
Definition in_sync (h : MeshHistory.history) : Prop :=
  MeshHistory.valid h
  /\ MeshHistory.mesh h
     = MeshHistory.historyRef h !! MeshHistory.indexRef h.

(** The cue cursor points into the playlist, or is 0 when there is no
    cue. *)
Definition cursor_ok (s : Playback.state) : Prop :=
  (Playback.currentCueIndex s < length (Playback.videoCues s))%nat
  \/ (Playback.videoCues s = [] /\ Playback.currentCueIndex s = 0%nat).

(** One call on the playlist of the application. *)
Inductive playlist_op : Type :=
| AddCue (c : Playback.VideoCue)
| RemoveCue (cueId : string)
| ToggleLoop (cueId : string)
| SelectCue (index : Z)
| NextCue
| PrevCue.

Definition apply_playlist_op (o : playlist_op) (s : Playback.state)
  : Playback.state :=
  match o with
  | AddCue c => Playlist.handleVideoSelected c s
  | RemoveCue i => Playlist.handleRemoveCue i s
  | ToggleLoop i => Playlist.handleToggleCueLoop i s
  | SelectCue i => Playlist.handleSelectCue i s
  | NextCue => Playback.onNextCue s
  | PrevCue => Playback.onPrevCue s
  end.

(** What holds of the flags of the playback screen at all times. *)
Definition screen_ok (s : Playback.state) : Prop :=
  Playback.armed s = negb (Playback.playing s)
  /\ (Playback.playing s = true -> Playback.blackout s = false)
  /\ (Playback.playing s = true -> Playback.showControls s = false).

(** A point of the unit square. *)
Definition unit_point (p : MeshPoint) : Prop :=
  exists a b : Q,
    x p = Fin a /\ y p = Fin b
    /\ (0 <= a)%Q /\ (a <= 1)%Q /\ (0 <= b)%Q /\ (b <= 1)%Q.

(** A mesh with the ids of the default grid, in their order, all of
    whose points lie in the unit square. *)
Definition default_shape (m : Mesh) : Prop :=
  map id m = map id (buildDefaultMesh DEFAULT_ROWS DEFAULT_COLS)
  /\ Forall unit_point m.

(** Events as the platform sends them: a viewport of positive width
    and height, touch positions that are numbers. *)
Definition sane_event (ev : Calibration.event) : Prop :=
  match ev with
  | Calibration.Layout w h =>
      exists a b : Q, w = Fin a /\ h = Fin b /\ (0 < a)%Q /\ (0 < b)%Q
  | Calibration.TouchStart lx ly | Calibration.TouchMove lx ly =>
      not_nan lx /\ not_nan ly
  | _ => True
  end.

(** The function that [updatePoint] maps over the mesh. *)
Definition moved (sz : Size) (pid : string) (tx ty : num) (p : MeshPoint)
  : MeshPoint :=
  if String.eqb (id p) pid
  then {| id := id p;
          x := div (max2 (Fin 0) (min2 (width sz) tx)) (width sz);
          y := div (max2 (Fin 0) (min2 (height sz) ty)) (height sz) |}
  else p.

(** A viewport of positive width and height. *)
Definition positive_size (sz : Size) : Prop :=
  exists a b : Q,
    sz = {| width := Fin a; height := Fin b |} /\ (0 < a)%Q /\ (0 < b)%Q.

(** What holds of the calibration screen at all times: the history is
    in step with the mesh shown and within its bound, every snapshot is
    a grid of the default shape, the viewport is positive once known,
    and the point being dragged is a point of the grid. *)
Definition calibration_ok (st : Touch.editor * MeshHistory.history)
  : Prop :=
  in_sync (snd st)
  /\ Forall default_shape (MeshHistory.historyRef (snd st))
  /\ (length (MeshHistory.historyRef (snd st)) <= App.MAX_HISTORY)%nat
  /\ (forall sz, Touch.size (fst st) = Some sz -> positive_size sz)
  /\ (forall pid, Touch.activePointId (fst st) = Some pid ->
        In pid (map id (buildDefaultMesh DEFAULT_ROWS DEFAULT_COLS))).










(** The character [c] does not occur in the text. *)
Fixpoint no_char (c : ascii) (s : string) : bool :=
  match s with
  | EmptyString => true
  | String d s' => negb (Ascii.eqb d c) && no_char c s'
  end.

(** One round of a performance: the trigger button, then the end of
    the video. *)
Definition play_round (s : Playback.state) : Playback.state :=
  Playback.handlePlaybackFinished (Playback.handleManualTrigger s).

(** A text of ASCII characters.  On such a text the blanks that
    [Number] strips are the six of [is_ws], and [Number] is NaN in the
    model exactly when it is in the code. *)
Fixpoint ascii_text (s : string) : bool :=
  match s with
  | EmptyString => true
  | String c s' => (nat_of_ascii c <? 128)%nat && ascii_text s'
  end.

(** The part of the id that holds the row ([k = 0]) or the column
    ([k = 1]) is missing or is a text of ASCII characters. *)
Definition ascii_part (k : nat) (p : MeshPoint) : Prop :=
  match id_part k p with
  | Some s => ascii_text s = true
  | None => True
  end.

(** Up to this bound every integer is held exactly by a JavaScript
    number, so that [Number] of its decimal text and the sum
    [Math.max(...) + 1] are exact in the code as they are here. *)
Definition MAX_EXACT : Z := 2 ^ 53.

(* ================================================================== *)
(** ** The model on concrete inputs *)
(* ================================================================== *)

Example Number_decimal :
  num_eq (Number (Some " 12 ")) (of_Z 12)
  /\ num_eq (Number (Some "")) (of_Z 0)
  /\ num_eq (Number (Some "1e3")) (of_Z 1000)
  /\ num_eq (Number (Some ".5")) (Fin (1 # 2))
  /\ num_eq (Number (Some "0x1F")) (of_Z 31).
Proof. repeat split; vm_compute; reflexivity. Qed.

Example Number_not_a_number :
  Number (Some "abc") = NaN /\ Number (Some "12px") = NaN
  /\ Number (Some ".") = NaN /\ Number (Some "-0x10") = NaN
  /\ Number None = NaN.
Proof. repeat split; vm_compute; reflexivity. Qed.

Example split_examples :
  split "-" "1-2" = ["1"; "2"] /\ split "-" "12" = ["12"]
  /\ split "-" "" = [""] /\ split "-" "a-b-c" = ["a"; "b"; "c"].
Proof. repeat split; reflexivity. Qed.

Example Math_max_examples :
  Math_max [] = NInf /\ Math_max [of_Z 1; NaN; of_Z 3] = NaN
  /\ Math_max [of_Z 1; of_Z 3; of_Z 2] = of_Z 3.
Proof. repeat split; vm_compute; reflexivity. Qed.

Example default_mesh_corner :
  buildDefaultMesh DEFAULT_ROWS DEFAULT_COLS !! 15%nat
  = Some {| id := "3-3"; x := Fin (3 # 3); y := Fin (3 # 3) |}.
Proof. vm_compute. reflexivity. Qed.

Example history_run :
  let h := useMeshHistory.setMesh (sample_mesh 2)
             (useMeshHistory.setMesh (sample_mesh 1)
                (MeshHistory.init (sample_mesh 0))) in
  MeshHistory.historyRef h = [sample_mesh 0; sample_mesh 1; sample_mesh 2]
  /\ MeshHistory.indexRef h = 2%nat
  /\ MeshHistory.canUndo h = true /\ MeshHistory.canRedo h = false
  /\ MeshHistory.indexRef (useMeshHistory.undo h) = 1%nat
  /\ MeshHistory.canRedo (useMeshHistory.undo h) = true.
Proof. repeat split; vm_compute; reflexivity. Qed.

Example escape_toggles_blackout :
  let s := Playback.mkState true false false false [] 0 in
  Playback.handleKeyPress "Escape" s
  = Playback.mkState false true false true [] 0.
Proof. reflexivity. Qed.

(* ================================================================== *)
(** ** Facts about numbers and number texts *)
(* ================================================================== *)

Section NumFacts.

Lemma num_eq_refl a : num_eq a a.
Proof. destruct a; simpl; auto. reflexivity. Qed.

Lemma num_eq_sym a b : num_eq a b -> num_eq b a.
Proof. destruct a, b; simpl; auto. intros H; symmetry; exact H. Qed.

Lemma num_eq_trans a b c : num_eq a b -> num_eq b c -> num_eq a c.
Proof.
  destruct a, b, c; simpl; auto; try tauto.
  intros H1 H2. rewrite H1. exact H2.
Qed.

Lemma ltb_Fin p q : ltb (Fin p) (Fin q) = true <-> (p < q)%Q.
Proof.
  simpl. destruct (Qlt_le_dec p q) as [H|H]; split; auto; try discriminate.
  intros H'. exfalso. apply (Qlt_not_le _ _ H'). exact H.
Qed.

Lemma ltb_Fin_false p q : ltb (Fin p) (Fin q) = false <-> (q <= p)%Q.
Proof.
  simpl. destruct (Qlt_le_dec p q) as [H|H]; split; auto; try discriminate.
  intros H'. exfalso. apply (Qlt_not_le _ _ H). exact H'.
Qed.

Lemma Qeq_bool_false_iff p q : Qeq_bool p q = false <-> ~ (p == q)%Q.
Proof.
  split.
  - intros H E. apply Qeq_bool_iff in E. congruence.
  - intros H. destruct (Qeq_bool p q) eqn:E; auto.
    apply Qeq_bool_iff in E. contradiction.
Qed.

Lemma div_Fin p q : ~ (q == 0)%Q -> div (Fin p) (Fin q) = Fin (p / q).
Proof.
  intros H. simpl. apply Qeq_bool_false_iff in H. rewrite H. reflexivity.
Qed.

End NumFacts.

Section NumberText.

(** Reading the decimal text of [d] accumulates its value. *)
Lemma read_digits_uint (d : Decimal.uint) :
  forall (a k : nat),
    read_digits 10 (NilEmpty.string_of_uint d) (Z.of_nat a) k
    = (Z.of_nat (Nat.of_uint_acc d a), (Decimal.nb_digits d + k)%nat, "").
Proof.
  induction d; intros a k; cbn [NilEmpty.string_of_uint read_digits];
    try reflexivity;
    match goal with
    | |- context [digit_val 10 ?c] =>
        let v := eval vm_compute in (digit_val 10 c) in
        change (digit_val 10 c) with v; cbv iota beta
    end;
    match goal with
    | |- read_digits 10 _ ?acc _ = _ =>
        replace acc with (Z.of_nat (Z.to_nat acc))
          by (rewrite Z2Nat.id; lia)
    end;
    rewrite IHd; cbn [Nat.of_uint_acc Decimal.nb_digits];
    rewrite Nat.tail_mul_spec;
    match goal with
    | |- (Z.of_nat (Nat.of_uint_acc _ ?X), ?N1, _)
         = (Z.of_nat (Nat.of_uint_acc _ ?Y), ?N2, _) =>
        replace X with Y by lia; replace N1 with N2 by lia; reflexivity
    end.
Qed.

Lemma no_dash_uint d : no_dash (NilEmpty.string_of_uint d) = true.
Proof. induction d; simpl; auto. Qed.

Lemma no_dash_toString n : no_dash (toString n) = true.
Proof. apply no_dash_uint. Qed.

Lemma no_ws_uint d : no_ws (NilEmpty.string_of_uint d) = true.
Proof. induction d; simpl; auto. Qed.

Lemma trim_no_ws s : no_ws s = true -> trim s = s.
Proof.
  intros H. unfold trim.
  assert (Hl : trim_left s = s).
  { destruct s as [|c s]; simpl in *; auto.
    apply andb_prop in H as [H _]. apply negb_true_iff in H.
    rewrite H. reflexivity. }
  rewrite Hl. clear Hl.
  induction s as [|c s IH]; simpl in *; auto.
  apply andb_prop in H as [Hc Hs]. apply negb_true_iff in Hc.
  rewrite (IH Hs), Hc. destruct s; reflexivity.
Qed.

Lemma unsigned_decimal_uint d :
  d <> Decimal.Nil ->
  num_eq (unsigned_decimal (NilEmpty.string_of_uint d))
         (of_nat (Nat.of_uint d)).
Proof.
  intros Hd. unfold unsigned_decimal.
  change 0 with (Z.of_nat 0). rewrite read_digits_uint.
  replace (Decimal.nb_digits d + 0)%nat with (S (pred (Decimal.nb_digits d)))
    by (destruct d; simpl; [congruence | lia ..]).
  cbn. unfold Nat.of_uint. unfold Qeq. simpl. lia.
Qed.

(** [Number] reads back the text of a natural number. *)
Lemma StringToNumber_uint d :
  num_eq (StringToNumber (NilEmpty.string_of_uint d))
         (of_nat (Nat.of_uint d)).
Proof.
  unfold StringToNumber. rewrite trim_no_ws by apply no_ws_uint.
  destruct d as [|d|d|d|d|d|d|d|d|d|d];
    try (cbn; reflexivity);
    try (match goal with
         | |- context [NilEmpty.string_of_uint (?D d)] =>
             change (num_eq (unsigned_decimal (NilEmpty.string_of_uint (D d)))
                       (of_nat (Nat.of_uint (D d))));
             apply unsigned_decimal_uint; discriminate
         end).
  destruct d as [|d|d|d|d|d|d|d|d|d|d];
    match goal with
    | |- context [NilEmpty.string_of_uint (Decimal.D0 ?D)] =>
        change (num_eq (unsigned_decimal
                          (NilEmpty.string_of_uint (Decimal.D0 D)))
                  (of_nat (Nat.of_uint (Decimal.D0 D))));
        apply unsigned_decimal_uint; discriminate
    end.
Qed.

Lemma Number_toString n : num_eq (Number (Some (toString n))) (of_nat n).
Proof.
  unfold Number, toString.
  rewrite <- (DecimalNat.Unsigned.of_to n) at 2.
  apply StringToNumber_uint.
Qed.

(** Splitting at the dash. *)
Lemma split_no_dash s : no_dash s = true -> split "-" s = [s].
Proof.
  induction s as [|c s IH]; simpl; auto.
  intros H. apply andb_prop in H as [Hc Hs]. apply negb_true_iff in Hc.
  rewrite Hc, (IH Hs). reflexivity.
Qed.

Lemma split_dash s t :
  no_dash s = true -> split "-" (s ++ "-" ++ t) = s :: split "-" t.
Proof.
  induction s as [|c s IH]; simpl in *; auto.
  intros H. apply andb_prop in H as [Hc Hs]. apply negb_true_iff in Hc.
  rewrite Hc, (IH Hs). reflexivity.
Qed.

Lemma split_id r c :
  split "-" (toString r ++ "-" ++ toString c) = [toString r; toString c].
Proof.
  rewrite split_dash by apply no_dash_toString.
  rewrite split_no_dash by apply no_dash_toString. reflexivity.
Qed.

End NumberText.

(* ================================================================== *)
(** ** The generated grid *)
(* ================================================================== *)

Section Grid.

Context {A : Type} (f : nat -> nat -> A) (C : nat).

Lemma lookup_map {B D : Type} (g : B -> D) (l : list B) (i : nat) :
  map g l !! i = option_map g (l !! i).
Proof.
  revert i. induction l as [|b l IH]; intros [|i]; simpl; auto.
Qed.

Lemma grid_length s R : length (grid f C s R) = (R * C)%nat.
Proof.
  unfold grid. revert s. induction R as [|R IH]; intros s; simpl; auto.
  rewrite length_app, length_map, length_seq, IH. reflexivity.
Qed.

Lemma grid_lookup R : forall s r c,
  (r < R)%nat -> (c < C)%nat ->
  grid f C s R !! (r * C + c)%nat = Some (f (s + r)%nat c).
Proof.
  unfold grid. induction R as [|R IH]; intros s r c Hr Hc; [lia|].
  cbn [seq flat_map]. destruct r as [|r].
  - rewrite lookup_app_l by (rewrite length_map, length_seq; simpl; lia).
    simpl. rewrite lookup_map, lookup_seq_lt by lia.
    simpl. rewrite Nat.add_0_r. reflexivity.
  - rewrite lookup_app_r by (rewrite length_map, length_seq; simpl; lia).
    rewrite length_map, length_seq.
    replace (S r * C + c - C)%nat with (r * C + c)%nat by (simpl; lia).
    rewrite IH by lia. f_equal. f_equal. lia.
Qed.

Lemma grid_In s R a :
  In a (grid f C s R) <->
  exists r c, (s <= r < s + R)%nat /\ (c < C)%nat /\ a = f r c.
Proof.
  unfold grid. rewrite in_flat_map. split.
  - intros (r & Hr & Ha). apply in_map_iff in Ha as (c & <- & Hc).
    apply in_seq in Hr, Hc. exists r, c. repeat split; lia.
  - intros (r & c & Hr & Hc & ->). exists r. split.
    + apply in_seq. lia.
    + apply in_map. apply in_seq. lia.
Qed.

(** Every position below [R * C] is a cell of the grid. *)
Lemma grid_lookup_inv R s i a :
  grid f C s R !! i = Some a ->
  exists r c, (r < R)%nat /\ (c < C)%nat /\ i = (r * C + c)%nat
              /\ a = f (s + r)%nat c.
Proof.
  intros H.
  assert (Hi : (i < R * C)%nat).
  { rewrite <- (grid_length s R). eapply lookup_lt_Some; eauto. }
  assert (HC : (0 < C)%nat) by (destruct C; lia).
  exists (i / C)%nat, (i mod C)%nat.
  assert (Hr : (i / C < R)%nat) by (apply Nat.Div0.div_lt_upper_bound; lia).
  assert (Hc : (i mod C < C)%nat) by (apply Nat.mod_upper_bound; lia).
  assert (Hd : i = (i / C * C + i mod C)%nat).
  { rewrite (Nat.div_mod_eq i C) at 1. lia. }
  repeat split; auto.
  rewrite Hd, grid_lookup in H by auto. congruence.
Qed.

End Grid.

Lemma buildDefaultMesh_grid rows cols :
  buildDefaultMesh rows cols
  = grid (grid_point rows cols) (Z.to_nat cols) 0 (Z.to_nat rows).
Proof. reflexivity. Qed.

(* ================================================================== *)
(** ** Order of numbers, [Math.max] and [Math.min] *)
(* ================================================================== *)

Section MaxMin.

Lemma le_refl a : not_nan a -> le a a.
Proof. destruct a; simpl; auto. intros _. apply Qle_refl. Qed.

Lemma le_trans a b c : le a b -> le b c -> le a c.
Proof.
  destruct a, b, c; simpl; auto; try tauto.
  intros H1 H2. eapply Qle_trans; eauto.
Qed.

Lemma le_antisym a b : le a b -> le b a -> num_eq a b.
Proof.
  destruct a, b; simpl; auto; try tauto. apply Qle_antisym.
Qed.

Lemma num_eq_le_r a q : num_eq a (Fin q) -> le a (Fin q).
Proof.
  destruct a; simpl; auto. intros H. apply Qle_lteq. right. exact H.
Qed.

Lemma num_eq_le_l a q : num_eq (Fin q) a -> le (Fin q) a.
Proof.
  destruct a; simpl; auto. intros H. apply Qle_lteq. right. exact H.
Qed.

Lemma max2_spec a b :
  not_nan a -> not_nan b ->
  (max2 a b = a \/ max2 a b = b) /\ le a (max2 a b) /\ le b (max2 a b).
Proof.
  unfold not_nan.
  destruct a as [| | |p], b as [| | |q]; simpl; try tauto;
    intros _ _; try (repeat split; auto; apply Qle_refl).
  destruct (Qlt_le_dec p q) as [H|H]; simpl; repeat split; auto;
    try apply Qle_refl; auto using Qlt_le_weak.
Qed.

Lemma min2_spec a b :
  not_nan a -> not_nan b ->
  (min2 a b = a \/ min2 a b = b) /\ le (min2 a b) a /\ le (min2 a b) b.
Proof.
  unfold not_nan.
  destruct a as [| | |p], b as [| | |q]; simpl; try tauto;
    intros _ _; try (repeat split; auto; apply Qle_refl).
  destruct (Qlt_le_dec q p) as [H|H]; simpl; repeat split; auto;
    try apply Qle_refl; auto using Qlt_le_weak.
Qed.

(** Without NaN the fold of [max2] returns a greatest element. *)
Lemma fold_max2_spec l : forall acc,
  not_nan acc -> Forall not_nan l ->
  In (fold_left max2 l acc) (acc :: l)
  /\ Forall (fun a => le a (fold_left max2 l acc)) (acc :: l).
Proof.
  induction l as [|b l IH]; intros acc Ha Hl.
  - simpl. split; auto. constructor; auto. apply le_refl; auto.
  - inversion Hl as [|? ? Hb Hl']; subst.
    destruct (max2_spec acc b Ha Hb) as (Hor & Hle1 & Hle2).
    assert (Hm : not_nan (max2 acc b)) by (destruct Hor as [-> | ->]; auto).
    destruct (IH _ Hm Hl') as (Hin & Hall). cbn [fold_left].
    inversion Hall as [|? ? Hhd Htl]; subst. split.
    + destruct Hin as [Hin|Hin]; [|right; right; exact Hin].
      rewrite <- Hin. destruct Hor as [-> | ->]; [left | right; left]; auto.
    + constructor; [eapply le_trans; eauto|].
      constructor; [eapply le_trans; eauto|]. exact Htl.
Qed.

Lemma fold_min2_spec l : forall acc,
  not_nan acc -> Forall not_nan l ->
  In (fold_left min2 l acc) (acc :: l)
  /\ Forall (fun a => le (fold_left min2 l acc) a) (acc :: l).
Proof.
  induction l as [|b l IH]; intros acc Ha Hl.
  - simpl. split; auto. constructor; auto. apply le_refl; auto.
  - inversion Hl as [|? ? Hb Hl']; subst.
    destruct (min2_spec acc b Ha Hb) as (Hor & Hle1 & Hle2).
    assert (Hm : not_nan (min2 acc b)) by (destruct Hor as [-> | ->]; auto).
    destruct (IH _ Hm Hl') as (Hin & Hall). cbn [fold_left].
    inversion Hall as [|? ? Hhd Htl]; subst. split.
    + destruct Hin as [Hin|Hin]; [|right; right; exact Hin].
      rewrite <- Hin. destruct Hor as [-> | ->]; [left | right; left]; auto.
    + constructor; [eapply le_trans; eauto|].
      constructor; [eapply le_trans; eauto|]. exact Htl.
Qed.

(** One NaN argument makes [Math.max] NaN. *)
Lemma fold_max2_nan l : fold_left max2 l NaN = NaN.
Proof. induction l; simpl; auto. Qed.

Lemma Math_max_nan l : In NaN l -> Math_max l = NaN.
Proof.
  unfold Math_max. generalize NInf.
  induction l as [|b l IH]; intros acc Hin; [destruct Hin|].
  cbn [fold_left]. destruct Hin as [->|Hin].
  - replace (max2 acc NaN) with NaN by (destruct acc; reflexivity).
    apply fold_max2_nan.
  - apply IH. exact Hin.
Qed.

(** The greatest of a list of integers. *)
Lemma Math_max_of_Z (l : list num) (M : Z) :
  Forall (fun a => exists z, num_eq a (of_Z z) /\ z <= M) l ->
  Exists (fun a => num_eq a (of_Z M)) l ->
  num_eq (Math_max l) (of_Z M).
Proof.
  intros Hall Hex. unfold Math_max.
  assert (Hnn : Forall not_nan l).
  { eapply Forall_impl; [exact Hall|]. intros a (z & Hz & _) ->. exact Hz. }
  destruct (fold_max2_spec l NInf) as (Hin & Hge); [discriminate | auto |].
  set (m := fold_left max2 l NInf) in *.
  apply Exists_exists in Hex as (a & Ha & HaM).
  inversion Hge as [|? ? _ Hge']; subst.
  rewrite Forall_forall in Hge', Hall.
  assert (Hlow : le (of_Z M) m).
  { eapply le_trans; [apply num_eq_le_l, num_eq_sym; exact HaM|]. auto. }
  destruct Hin as [Hin|Hin].
  - rewrite <- Hin in Hlow. destruct Hlow.
  - apply list_elem_of_In in Hin.
    destruct (Hall _ Hin) as (z & Hz & HzM).
    apply le_antisym; [|exact Hlow].
    eapply le_trans; [apply num_eq_le_r; exact Hz|].
    simpl. rewrite <- Zle_Qle. exact HzM.
Qed.

End MaxMin.

(* ================================================================== *)
(** ** Mesh generation and the derived grid shape *)
(* ================================================================== *)

Section Generate.

Lemma of_nat_inj n m : num_eq (of_nat n) (of_nat m) -> n = m.
Proof.
  unfold of_nat, of_Z, num_eq, Qeq. simpl. lia.
Qed.

Lemma toString_inj n m : toString n = toString m -> n = m.
Proof.
  intros H. apply of_nat_inj.
  eapply num_eq_trans; [apply num_eq_sym, Number_toString|].
  rewrite H. apply Number_toString.
Qed.

Lemma id_inj r c r' c' :
  toString r ++ "-" ++ toString c = toString r' ++ "-" ++ toString c' ->
  r = r' /\ c = c'.
Proof.
  intros H. apply (f_equal (split "-")) in H. rewrite !split_id in H.
  inversion H. split; apply toString_inj; assumption.
Qed.

Lemma id_part_grid_point rows cols r c :
  id_part 0 (grid_point rows cols r c) = Some (toString r)
  /\ id_part 1 (grid_point rows cols r c) = Some (toString c).
Proof.
  unfold id_part.
  change (id (grid_point rows cols r c))
    with (toString r ++ "-" ++ toString c).
  rewrite split_id. split; reflexivity.
Qed.

Lemma unit_interval (a b : Z) :
  0 <= a <= b -> 0 < b ->
  (0 <= inject_Z a / inject_Z b)%Q /\ (inject_Z a / inject_Z b <= 1)%Q.
Proof.
  intros Ha Hb.
  assert (Hb' : (0 < inject_Z b)%Q) by (rewrite <- (Zlt_Qlt 0); exact Hb).
  split.
  - apply Qle_shift_div_l; auto. rewrite Qmult_0_l.
    rewrite <- (Zle_Qle 0). lia.
  - apply Qle_shift_div_r; auto. rewrite Qmult_1_l.
    rewrite <- Zle_Qle. lia.
Qed.

Lemma inject_Z_nonzero (z : Z) : z <> 0 -> ~ (inject_Z z == 0)%Q.
Proof.
  unfold Qeq. simpl. lia.
Qed.

(** [m + 1 || 1] when [m] is a non-negative integer. *)
Lemma plus_one_or_one (m : num) (M : Z) :
  0 <= M -> num_eq m (of_Z M) ->
  num_eq (or_else (add m (of_Z 1)) (of_Z 1)) (of_Z (M + 1)).
Proof.
  intros HM Hm. destruct m as [| | |q]; simpl in Hm; try contradiction.
  unfold or_else, add, of_Z, truthy.
  assert (Hq : (q + inject_Z 1 == inject_Z (M + 1))%Q).
  { rewrite Hm, inject_Z_plus. reflexivity. }
  assert (Hnz : Qeq_bool (q + inject_Z 1) 0 = false).
  { apply Qeq_bool_false_iff. rewrite Hq. apply inject_Z_nonzero. lia. }
  rewrite Hnz. simpl. exact Hq.
Qed.

Lemma derive_dim_grid (k : nat) (rows cols : Z) (sel : nat -> nat -> nat)
    (M : Z) :
  1 <= rows -> 1 <= cols -> 0 <= M ->
  (forall r c, id_part k (grid_point rows cols r c)
               = Some (toString (sel r c))) ->
  (forall r c, Z.of_nat r < rows -> Z.of_nat c < cols ->
               Z.of_nat (sel r c) <= M) ->
  (exists r c, Z.of_nat r < rows /\ Z.of_nat c < cols
               /\ Z.of_nat (sel r c) = M) ->
  num_eq (derive_dim k (buildDefaultMesh rows cols)) (of_Z (M + 1)).
Proof.
  intros Hr Hc HM Hpart Hle (r0 & c0 & Hr0 & Hc0 & Hsel).
  unfold derive_dim. apply plus_one_or_one; auto.
  apply Math_max_of_Z.
  - apply Forall_forall. intros a Ha. apply list_elem_of_In in Ha.
    apply in_map_iff in Ha as (p & <- & Hp).
    rewrite buildDefaultMesh_grid in Hp.
    apply grid_In in Hp as (r & c & Hr' & Hc' & ->).
    exists (Z.of_nat (sel r c)). rewrite Hpart. split.
    + apply Number_toString.
    + apply Hle; lia.
  - apply Exists_exists.
    exists (Number (id_part k (grid_point rows cols r0 c0))).
    split.
    + apply list_elem_of_In. apply in_map_iff.
      exists (grid_point rows cols r0 c0). split; auto.
      rewrite buildDefaultMesh_grid. apply grid_In.
      exists r0, c0. repeat split; auto; lia.
    + rewrite Hpart, <- Hsel. apply Number_toString.
Qed.

End Generate.

(** C1.  For all [rows, cols >= 2] the generator [buildDefaultMesh]
    returns exactly [rows * cols] points; the point at position
    [r * cols + c] has id [r-c], [x = c / (cols - 1)] and
    [y = r / (rows - 1)], both in the unit interval; the ids are
    pairwise different; and the grid dimensions the editor derives from
    the ids (greatest row or column index plus one) are [rows] and
    [cols] again. *)
Theorem buildDefaultMesh_spec (rows cols : Z) :
  2 <= rows -> 2 <= cols ->
  let mesh := buildDefaultMesh rows cols in
  length mesh = Z.to_nat (rows * cols)
  /\ NoDup (map id mesh)
  /\ (forall r c : nat, Z.of_nat r < rows -> Z.of_nat c < cols ->
        mesh !! (r * Z.to_nat cols + c)%nat
        = Some {| id := toString r ++ "-" ++ toString c;
                  x := Fin (inject_Z (Z.of_nat c) / inject_Z (cols - 1));
                  y := Fin (inject_Z (Z.of_nat r) / inject_Z (rows - 1)) |})
  /\ (forall p, In p mesh ->
        exists r c : nat,
          Z.of_nat r < rows /\ Z.of_nat c < cols
          /\ id p = toString r ++ "-" ++ toString c
          /\ x p = Fin (inject_Z (Z.of_nat c) / inject_Z (cols - 1))
          /\ y p = Fin (inject_Z (Z.of_nat r) / inject_Z (rows - 1))
          /\ le (Fin 0) (x p) /\ le (x p) (Fin 1)
          /\ le (Fin 0) (y p) /\ le (y p) (Fin 1))
  /\ num_eq (derive_rows mesh) (of_Z rows)
  /\ num_eq (derive_cols mesh) (of_Z cols).
Proof.
  intros Hrows Hcols mesh.
  assert (Hpt : forall r c,
             grid_point rows cols r c
             = {| id := toString r ++ "-" ++ toString c;
                  x := Fin (inject_Z (Z.of_nat c) / inject_Z (cols - 1));
                  y := Fin (inject_Z (Z.of_nat r) / inject_Z (rows - 1)) |}).
  { intros r c. unfold grid_point, of_nat, of_Z.
    rewrite !div_Fin by (apply inject_Z_nonzero; lia). reflexivity. }
  subst mesh. rewrite buildDefaultMesh_grid.
  split; [|split; [|split; [|split; [|split]]]].
  - rewrite grid_length, Z2Nat.inj_mul by lia. reflexivity.
  - apply NoDup_alt. intros i j s Hi Hj.
    rewrite lookup_map in Hi, Hj.
    destruct (grid _ _ _ _ !! i) as [p|] eqn:Ei; [|discriminate].
    destruct (grid _ _ _ _ !! j) as [q|] eqn:Ej; [|discriminate].
    apply grid_lookup_inv in Ei as (r & c & _ & _ & -> & ->).
    apply grid_lookup_inv in Ej as (r' & c' & _ & _ & -> & ->).
    cbn [option_map Nat.add] in Hi, Hj. rewrite Hpt in Hi, Hj.
    cbn [id] in Hi, Hj. rewrite <- Hj in Hi. injection Hi as E.
    apply id_inj in E as [-> ->]. reflexivity.
  - intros r c Hr Hc. rewrite grid_lookup by lia. cbn [Nat.add].
    rewrite Hpt. reflexivity.
  - intros p Hp. apply grid_In in Hp as (r & c & Hr & Hc & ->).
    exists r, c. rewrite Hpt. cbn [id x y le].
    destruct (unit_interval (Z.of_nat c) (cols - 1)) as [? ?]; try lia.
    destruct (unit_interval (Z.of_nat r) (rows - 1)) as [? ?]; try lia.
    repeat split; auto; lia.
  - replace rows with (rows - 1 + 1) at 3 by lia.
    apply (derive_dim_grid 0 rows cols (fun r _ => r)); try lia.
    + intros r c. apply id_part_grid_point.
    + exists (Z.to_nat (rows - 1)), 0%nat. lia.
  - replace cols with (cols - 1 + 1) at 3 by lia.
    apply (derive_dim_grid 1 rows cols (fun _ c => c)); try lia.
    + intros r c. apply id_part_grid_point.
    + exists 0%nat, (Z.to_nat (cols - 1)). lia.
Qed.

(** The default mesh of the application, 4 by 4. *)
Lemma buildDefaultMesh_spec_witness :
  2 <= 4 /\ 2 <= 4
  /\ length (buildDefaultMesh 4 4) = Z.to_nat (4 * 4)
  /\ num_eq (derive_rows (buildDefaultMesh 4 4)) (of_Z 4).
Proof.
  split; [lia|]. split; [lia|].
  destruct (buildDefaultMesh_spec 4 4 ltac:(lia) ltac:(lia))
    as (Hlen & _ & _ & _ & Hr & _).
  split; [exact Hlen | exact Hr].
Defined.

(* ------------------------------------------------------------------ *)
(** *** Dimensions below two *)

(** C10, as the specification states it, fails: with one row and four
    columns the generator returns four points and every [y] is NaN. *)
Lemma buildDefaultMesh_one_row :
  buildDefaultMesh 1 4
  = [ {| id := "0-0"; x := Fin (0 # 3); y := NaN |};
      {| id := "0-1"; x := Fin (1 # 3); y := NaN |};
      {| id := "0-2"; x := Fin (2 # 3); y := NaN |};
      {| id := "0-3"; x := Fin (3 # 3); y := NaN |} ].
Proof. vm_compute. reflexivity. Qed.

(** C10, amended.  [buildDefaultMesh] checks nothing and always returns
    a mesh, of [max rows 0 * max cols 0] points: none when a dimension
    is zero or negative; with a single row every [y] is NaN and with a
    single column every [x] is NaN, the quotient [0 / 0]. *)
Theorem buildDefaultMesh_small (rows cols : Z) :
  let mesh := buildDefaultMesh rows cols in
  length mesh = (Z.to_nat rows * Z.to_nat cols)%nat
  /\ (rows <= 0 \/ cols <= 0 -> mesh = [])
  /\ (rows = 1 -> Forall (fun p => y p = NaN) mesh)
  /\ (cols = 1 -> Forall (fun p => x p = NaN) mesh).
Proof.
  intros mesh. subst mesh. rewrite buildDefaultMesh_grid.
  split; [apply grid_length|]. split; [|split].
  - intros H. apply length_zero_iff_nil. rewrite grid_length.
    destruct H as [H|H]; [replace (Z.to_nat rows) with 0%nat by lia
                         | replace (Z.to_nat cols) with 0%nat by lia]; lia.
  - intros ->. apply Forall_forall. intros p Hp.
    apply list_elem_of_In, grid_In in Hp as (r & c & Hr & _ & ->).
    assert (r = 0%nat) as -> by lia. reflexivity.
  - intros ->. apply Forall_forall. intros p Hp.
    apply list_elem_of_In, grid_In in Hp as (r & c & _ & Hc & ->).
    assert (c = 0%nat) as -> by lia. reflexivity.
Qed.

Lemma buildDefaultMesh_small_witness :
  length (buildDefaultMesh 1 4) = 4%nat
  /\ Forall (fun p => y p = NaN) (buildDefaultMesh 1 4)
  /\ buildDefaultMesh 0 4 = [].
Proof.
  destruct (buildDefaultMesh_small 1 4) as (Hlen & _ & Hy & _).
  destruct (buildDefaultMesh_small 0 4) as (_ & Hnil & _).
  split; [exact Hlen|]. split; [apply Hy; reflexivity|].
  apply Hnil. left. lia.
Defined.

(* ------------------------------------------------------------------ *)
(** *** Ids that are not row-column pairs *)

Section Derive.

Lemma derive_dim_nan (k : nat) (mesh : Mesh) :
  Exists (fun p => Number (id_part k p) = NaN) mesh ->
  derive_dim k mesh = of_Z 1.
Proof.
  intros H. unfold derive_dim. rewrite Math_max_nan; [reflexivity|].
  apply Exists_exists in H as (p & Hp & E).
  apply list_elem_of_In in Hp. apply in_map_iff. exists p. auto.
Qed.

Lemma derive_dim_max (k : nat) (mesh : Mesh) (M : nat) :
  Forall (fun p => exists n, id_part k p = Some (toString n)
                             /\ (n <= M)%nat) mesh ->
  Exists (fun p => id_part k p = Some (toString M)) mesh ->
  num_eq (derive_dim k mesh) (of_Z (Z.of_nat M + 1)).
Proof.
  intros Hall Hex. unfold derive_dim. apply plus_one_or_one; [lia|].
  apply Math_max_of_Z.
  - rewrite Forall_forall in Hall. apply Forall_forall. intros a Ha.
    apply list_elem_of_In, in_map_iff in Ha as (p & <- & Hp).
    apply list_elem_of_In in Hp.
    destruct (Hall p Hp) as (n & -> & Hn).
    exists (Z.of_nat n). split; [apply Number_toString | lia].
  - apply Exists_exists in Hex as (p & Hp & E). apply Exists_exists.
    exists (Number (id_part k p)). split.
    + apply list_elem_of_In, in_map_iff. exists p.
      split; auto. apply list_elem_of_In. exact Hp.
    + rewrite E. apply Number_toString.
Qed.

End Derive.

(** C9, as the specification states it, fails: for the one-point mesh
    with id [a-b], not a pair of integers, the derivation returns one
    row and one column; and for the two ids [0-0] and [2-2], which skip
    index 1, it returns 3 by 3. *)
Lemma derive_dim_malformed :
  ~ valid_id "a-b"
  /\ derive_rows [ {| id := "a-b"; x := Fin 0; y := Fin 0 |} ] = of_Z 1
  /\ derive_cols [ {| id := "a-b"; x := Fin 0; y := Fin 0 |} ] = of_Z 1
  /\ num_eq (derive_rows [ {| id := "0-0"; x := Fin 0; y := Fin 0 |};
                           {| id := "2-2"; x := Fin 1; y := Fin 1 |} ])
            (of_Z 3)
  /\ num_eq (derive_cols [ {| id := "0-0"; x := Fin 0; y := Fin 0 |};
                           {| id := "2-2"; x := Fin 1; y := Fin 1 |} ])
            (of_Z 3).
Proof.
  split; [|repeat split; vm_compute; reflexivity].
  intros (r & c & E).
  apply (f_equal (split "-")) in E. rewrite split_id in E.
  change (split "-" "a-b") with ["a"; "b"] in E.
  injection E as Er _.
  pose proof (Number_toString r) as H. rewrite <- Er in H. exact H.
Qed.

(** C9, amended.  The derivation of the grid dimensions never fails.
    When the row (column) part of some id is missing, or is a text of
    ASCII characters that is not the text of a number, the row (column)
    count is 1.  When the parts are texts of natural numbers, the
    greatest of them below 2^53 so that the count is a number held
    exactly, the count is the greatest of them plus one, whether or not
    every smaller index occurs. *)
Theorem derive_dim_total (k : nat) (mesh : Mesh) :
  (Exists (fun p => ascii_part k p /\ Number (id_part k p) = NaN) mesh ->
   derive_dim k mesh = of_Z 1)
  /\ (forall M : nat,
        Z.of_nat M < MAX_EXACT ->
        Forall (fun p => exists n, id_part k p = Some (toString n)
                                   /\ (n <= M)%nat) mesh ->
        Exists (fun p => id_part k p = Some (toString M)) mesh ->
        num_eq (derive_dim k mesh) (of_Z (Z.of_nat M + 1))).
Proof.
  split.
  - intros H. apply derive_dim_nan.
    eapply Exists_impl; [exact H|]. intros p [_ E]. exact E.
  - intros M _ Hall Hex. apply derive_dim_max; assumption.
Qed.

Lemma derive_dim_total_witness :
  derive_dim 1 [ {| id := "7"; x := Fin 0; y := Fin 0 |} ] = of_Z 1
  /\ derive_dim 0 [ {| id := "a-b"; x := Fin 0; y := Fin 0 |} ] = of_Z 1
  /\ num_eq (derive_dim 0 [ {| id := "0-0"; x := Fin 0; y := Fin 0 |};
                            {| id := "2-2"; x := Fin 1; y := Fin 1 |} ])
            (of_Z (Z.of_nat 2 + 1)).
Proof.
  split; [|split].
  - apply (derive_dim_total 1). apply Exists_cons_hd.
    split; [exact I | reflexivity].
  - apply (derive_dim_total 0). apply Exists_cons_hd.
    split; reflexivity.
  - apply (derive_dim_total 0).
    + reflexivity.
    + repeat constructor.
      * exists 0%nat. split; [reflexivity | lia].
      * exists 2%nat. split; [reflexivity | lia].
    + apply Exists_cons_tl, Exists_cons_hd. reflexivity.
Defined.

(* ================================================================== *)
(** ** Equality of JSON texts *)
(* ================================================================== *)

Section JsonEquality.

Lemma json_eqb_refl a : json_eqb a a = true.
Proof. destruct a; simpl; auto. apply Qeq_bool_refl. Qed.

Lemma json_eqb_sym a b : json_eqb a b = json_eqb b a.
Proof. destruct a, b; simpl; auto. apply Qeq_bool_comm. Qed.

Lemma json_eqb_trans a b c :
  json_eqb a b = true -> json_eqb b c = true -> json_eqb a c = true.
Proof.
  destruct a, b, c; simpl; auto; try discriminate.
  apply Qeq_bool_trans.
Qed.

Lemma num_eq_json_eqb a b : num_eq a b -> json_eqb a b = true.
Proof.
  destruct a, b; simpl; auto; try contradiction. apply Qeq_bool_iff.
Qed.

Lemma point_json_eqb_refl p : point_json_eqb p p = true.
Proof.
  unfold point_json_eqb. rewrite String.eqb_refl, !json_eqb_refl. reflexivity.
Qed.

Lemma point_json_eqb_sym p q : point_json_eqb p q = point_json_eqb q p.
Proof.
  unfold point_json_eqb.
  rewrite String.eqb_sym, (json_eqb_sym (x p)), (json_eqb_sym (y p)).
  reflexivity.
Qed.

Lemma point_json_eqb_trans p q r :
  point_json_eqb p q = true -> point_json_eqb q r = true ->
  point_json_eqb p r = true.
Proof.
  unfold point_json_eqb. intros H1 H2.
  apply andb_prop in H1 as [H1 Hy1]. apply andb_prop in H1 as [Hi1 Hx1].
  apply andb_prop in H2 as [H2 Hy2]. apply andb_prop in H2 as [Hi2 Hx2].
  apply String.eqb_eq in Hi1, Hi2.
  rewrite Hi1, Hi2, String.eqb_refl.
  rewrite (json_eqb_trans _ _ _ Hx1 Hx2), (json_eqb_trans _ _ _ Hy1 Hy2).
  reflexivity.
Qed.

Lemma mesh_json_eqb_refl a : mesh_json_eqb a a = true.
Proof.
  induction a as [|p a IH]; simpl; auto.
  rewrite point_json_eqb_refl, IH. reflexivity.
Qed.

Lemma mesh_json_eqb_sym a : forall b, mesh_json_eqb a b = mesh_json_eqb b a.
Proof.
  induction a as [|p a IH]; intros [|q b]; simpl; auto.
  rewrite point_json_eqb_sym, IH. reflexivity.
Qed.

Lemma mesh_json_eqb_trans a : forall b c,
  mesh_json_eqb a b = true -> mesh_json_eqb b c = true ->
  mesh_json_eqb a c = true.
Proof.
  induction a as [|p a IH]; intros [|q b] [|r c]; simpl; auto;
    try discriminate.
  intros H1 H2.
  apply andb_prop in H1 as [Hp1 Ha1]. apply andb_prop in H2 as [Hp2 Ha2].
  rewrite (point_json_eqb_trans _ _ _ Hp1 Hp2), (IH _ _ Ha1 Ha2).
  reflexivity.
Qed.

(** A mesh that differs from [b] differs from every mesh with the text
    of [b]. *)
Lemma mesh_json_eqb_false_trans a b c :
  mesh_json_eqb a b = false -> mesh_json_eqb c b = true ->
  mesh_json_eqb a c = false.
Proof.
  intros Hab Hcb. destruct (mesh_json_eqb a c) eqn:E; auto.
  rewrite (mesh_json_eqb_trans _ _ _ E Hcb) in Hab. discriminate.
Qed.

(** Deep-equal meshes have the same JSON text. *)
Lemma deep_equal_json a b : deep_equal a b -> mesh_json_eqb a b = true.
Proof.
  induction 1 as [|p q a b (Hi & Hx & Hy) _ IH]; simpl; auto.
  unfold point_json_eqb.
  rewrite Hi, String.eqb_refl, (num_eq_json_eqb _ _ Hx),
    (num_eq_json_eqb _ _ Hy), IH.
  reflexivity.
Qed.

End JsonEquality.

(* ================================================================== *)
(** ** Mesh history: record, undo, redo *)
(* ================================================================== *)

Section HistoryFacts.

Import MeshHistory.
Local Open Scope list_scope.

Variable N : nat.

Lemma setMesh_unchanged (m : Mesh) (h : history) :
  hasChanged m (historyRef h !! indexRef h) = false -> setMesh N m h = h.
Proof. intros H. unfold setMesh. rewrite H. reflexivity. Qed.

Lemma setMesh_changed (m : Mesh) (h : history) :
  hasChanged m (historyRef h !! indexRef h) = true ->
  setMesh N m h
  = let pushed := take (indexRef h + 1) (historyRef h) ++ [m] in
    if (N <? length pushed)%nat
    then {| historyRef := drop 1 pushed; indexRef := indexRef h;
            mesh := Some m |}
    else {| historyRef := pushed; indexRef := (indexRef h + 1)%nat;
            mesh := Some m |}.
Proof. intros H. unfold setMesh. rewrite H. reflexivity. Qed.

(** After a recorded change the cursor is on the new snapshot, which is
    the last one. *)
Lemma setMesh_changed_cursor (m : Mesh) (h : history) :
  valid h ->
  hasChanged m (historyRef h !! indexRef h) = true ->
  let h' := setMesh N m h in
  historyRef h' !! indexRef h' = Some m
  /\ length (historyRef h') = (indexRef h' + 1)%nat
  /\ mesh h' = Some m.
Proof.
  unfold valid. intros Hv Hc. rewrite setMesh_changed by exact Hc.
  cbv zeta.
  assert (Hlen : length (take (indexRef h + 1) (historyRef h))
                 = (indexRef h + 1)%nat)
    by (rewrite length_take; lia).
  destruct (N <? _)%nat eqn:E; cbn [historyRef indexRef mesh].
  - rewrite lookup_drop, length_drop, length_app, Hlen. simpl length.
    rewrite lookup_app_r by lia. rewrite Hlen.
    replace (1 + indexRef h - (indexRef h + 1))%nat with 0%nat by lia.
    repeat split; auto. lia.
  - rewrite length_app, Hlen. simpl length.
    rewrite lookup_app_r by lia. rewrite Hlen, Nat.sub_diag.
    repeat split; auto.
Qed.

(** Recording a mesh that differs from the snapshot at the cursor puts
    it right after that snapshot, when the bound is at least two. *)
Lemma setMesh_after (m cur : Mesh) (h : history) :
  (2 <= N)%nat ->
  historyRef h !! indexRef h = Some cur ->
  mesh_json_eqb m cur = false ->
  let h' := setMesh N m h in
  exists j, indexRef h' = S j
            /\ historyRef h' !! j = Some cur
            /\ historyRef h' !! S j = Some m
            /\ length (historyRef h') = S (S j)
            /\ mesh h' = Some m.
Proof.
  intros HN Hcur Hne.
  assert (Hv : (indexRef h < length (historyRef h))%nat)
    by (eapply lookup_lt_Some; eauto).
  rewrite setMesh_changed by (rewrite Hcur; simpl; rewrite Hne; reflexivity).
  cbv zeta.
  assert (Hlen : length (take (indexRef h + 1) (historyRef h))
                 = (indexRef h + 1)%nat)
    by (rewrite length_take; lia).
  assert (Hi : (take (indexRef h + 1) (historyRef h) ++ [m]) !! indexRef h
               = Some cur).
  { rewrite lookup_app_l by lia. rewrite lookup_take_lt by lia. exact Hcur. }
  assert (Hl : (take (indexRef h + 1) (historyRef h) ++ [m])
                 !! (indexRef h + 1)%nat = Some m).
  { rewrite lookup_app_r by lia. rewrite Hlen, Nat.sub_diag. reflexivity. }
  destruct (N <? _)%nat eqn:E; cbn [historyRef indexRef mesh].
  - apply Nat.ltb_lt in E. rewrite length_app, Hlen in E. simpl in E.
    destruct (indexRef h) as [|j] eqn:Ej; [lia|]. exists j.
    rewrite !lookup_drop, length_drop, length_app, Hlen. simpl length.
    replace (1 + S j)%nat with (S j + 1)%nat by lia.
    repeat split; auto. lia.
  - exists (indexRef h). rewrite length_app, Hlen. simpl length.
    replace (S (indexRef h)) with (indexRef h + 1)%nat by lia.
    repeat split; auto. lia.
Qed.

Lemma undo_at_zero (h : history) : indexRef h = 0%nat -> undo h = h.
Proof. intros H. unfold undo. rewrite H. reflexivity. Qed.

Lemma redo_at_last (h : history) :
  indexRef h = (length (historyRef h) - 1)%nat -> redo h = h.
Proof.
  intros H. unfold redo.
  replace (Z.of_nat (indexRef h) <? Z.of_nat (length (historyRef h)) - 1)
    with false; [reflexivity|].
  symmetry. apply Z.ltb_ge. lia.
Qed.

End HistoryFacts.

(** C5.  Recording a mesh that is deep-equal to the snapshot at the
    cursor changes nothing: the snapshots, their number, the cursor and
    the current mesh stay as they are, in the hook and in the
    application alike, for a mesh value and for an updater function. *)
Theorem setMesh_deep_equal_noop (h : MeshHistory.history)
    (newMesh cur : Mesh) :
  MeshHistory.historyRef h !! MeshHistory.indexRef h = Some cur ->
  deep_equal newMesh cur ->
  (forall N, MeshHistory.setMesh N newMesh h = h)
  /\ useMeshHistory.setMesh newMesh h = h
  /\ App.setMesh newMesh h = h
  /\ (forall f, f (Some cur) = newMesh -> useMeshHistory.setMeshWith f h = h)
  /\ MeshHistory.historyLength (useMeshHistory.setMesh newMesh h)
     = MeshHistory.historyLength h
  /\ MeshHistory.historyLength (App.setMesh newMesh h)
     = MeshHistory.historyLength h.
Proof.
  intros Hcur Heq.
  assert (H : forall N, MeshHistory.setMesh N newMesh h = h).
  { intros N. apply setMesh_unchanged. rewrite Hcur. simpl.
    rewrite (deep_equal_json _ _ Heq). reflexivity. }
  unfold useMeshHistory.setMesh, App.setMesh, useMeshHistory.setMeshWith,
    MeshHistory.setMeshWith.
  repeat split; auto.
  - intros f Hf. rewrite Hcur, Hf. apply H.
  - rewrite H. reflexivity.
  - rewrite H. reflexivity.
Qed.

Lemma setMesh_deep_equal_noop_witness :
  useMeshHistory.setMesh (buildDefaultMesh 4 4)
    (MeshHistory.init (buildDefaultMesh 4 4))
  = MeshHistory.init (buildDefaultMesh 4 4).
Proof.
  refine (proj1 (proj2 (setMesh_deep_equal_noop
            (MeshHistory.init (buildDefaultMesh 4 4))
            (buildDefaultMesh 4 4) (buildDefaultMesh 4 4) eq_refl _))).
  unfold deep_equal. apply Forall2_same_length_lookup. split; [reflexivity|].
  intros i p q Hp Hq. rewrite Hp in Hq. injection Hq as <-.
  repeat split; try apply num_eq_refl.
Defined.

(** C4.  In a history whose cursor is valid and whose bound is at least
    two (the hook keeps 50 snapshots, the application 30), recording [A],
    then [B] with a different JSON text, then undoing makes the current
    mesh the snapshot recorded for [A]: [A] itself when the record of [A]
    was not suppressed, otherwise the snapshot already at the cursor,
    which has the JSON text of [A].  A redo after that makes [B] current.
    Undo changes nothing when the cursor is 0 and redo changes nothing
    when the cursor is on the last snapshot. *)
Theorem record_undo_redo (N : nat) (h : MeshHistory.history) (A B : Mesh) :
  (2 <= N)%nat ->
  MeshHistory.valid h ->
  mesh_json_eqb B A = false ->
  let h1 := MeshHistory.setMesh N A h in
  let h2 := MeshHistory.setMesh N B h1 in
  let h3 := MeshHistory.undo h2 in
  let h4 := MeshHistory.redo h3 in
  (exists A',
      MeshHistory.mesh h3 = Some A'
      /\ MeshHistory.historyRef h3 !! MeshHistory.indexRef h3 = Some A'
      /\ mesh_json_eqb A' A = true
      /\ (MeshHistory.hasChanged A
            (MeshHistory.historyRef h !! MeshHistory.indexRef h) = true ->
          A' = A))
  /\ MeshHistory.mesh h4 = Some B
  /\ MeshHistory.historyRef h4 !! MeshHistory.indexRef h4 = Some B
  /\ (forall g, MeshHistory.indexRef g = 0%nat -> MeshHistory.undo g = g)
  /\ (forall g, MeshHistory.indexRef g
                = (length (MeshHistory.historyRef g) - 1)%nat ->
                MeshHistory.redo g = g).
Proof.
  intros HN Hv Hne h1 h2 h3 h4.
  assert (H1 : exists A',
             MeshHistory.historyRef h1 !! MeshHistory.indexRef h1 = Some A'
             /\ mesh_json_eqb A' A = true
             /\ (MeshHistory.hasChanged A
                   (MeshHistory.historyRef h !! MeshHistory.indexRef h) = true
                 -> A' = A)).
  { subst h1.
    destruct (MeshHistory.hasChanged A
                (MeshHistory.historyRef h !! MeshHistory.indexRef h)) eqn:Hc.
    - destruct (setMesh_changed_cursor N A h Hv Hc) as (Hl & _ & _).
      exists A. split; [exact Hl|]. split; auto. apply mesh_json_eqb_refl.
    - rewrite (setMesh_unchanged N A h Hc).
      destruct (lookup_lt_is_Some_2 _ _ Hv) as [cur Hcur].
      exists cur. rewrite Hcur in Hc |- *. simpl in Hc.
      apply negb_false_iff in Hc. rewrite mesh_json_eqb_sym.
      split; auto. split; auto. discriminate. }
  destruct H1 as (A' & HA' & HAA & Hsame).
  assert (HneB : mesh_json_eqb B A' = false)
    by (eapply mesh_json_eqb_false_trans; eauto).
  destruct (setMesh_after N B A' h1 HN HA' HneB)
    as (j & Hidx & Hj & HSj & Hlen & Hm).
  fold h2 in Hidx, Hj, HSj, Hlen, Hm.
  assert (E3 : h3 = {| MeshHistory.historyRef := MeshHistory.historyRef h2;
                       MeshHistory.indexRef := j;
                       MeshHistory.mesh := Some A' |}).
  { subst h3. unfold MeshHistory.undo. rewrite Hidx. cbn [Nat.ltb Nat.leb].
    replace (S j - 1)%nat with j by lia. rewrite Hj. reflexivity. }
  assert (E4 : h4 = {| MeshHistory.historyRef := MeshHistory.historyRef h2;
                       MeshHistory.indexRef := S j;
                       MeshHistory.mesh := Some B |}).
  { subst h4. rewrite E3. unfold MeshHistory.redo.
    cbn [MeshHistory.historyRef MeshHistory.indexRef]. rewrite Hlen.
    replace (Z.of_nat j <? Z.of_nat (S (S j)) - 1) with true
      by (symmetry; apply Z.ltb_lt; lia).
    replace (j + 1)%nat with (S j) by lia. rewrite HSj. reflexivity. }
  split; [|split; [|split; [|split]]].
  - exists A'. rewrite E3. cbn. auto.
  - rewrite E4. reflexivity.
  - rewrite E4. cbn. exact HSj.
  - apply undo_at_zero.
  - apply redo_at_last.
Qed.

Lemma record_undo_redo_witness :
  MeshHistory.mesh
    (useMeshHistory.redo
       (useMeshHistory.undo
          (useMeshHistory.setMesh [ {| id := "0-0"; x := Fin 1; y := Fin 1 |} ]
             (useMeshHistory.setMesh
                [ {| id := "0-0"; x := Fin (1 # 2); y := Fin 0 |} ]
                (MeshHistory.init
                   [ {| id := "0-0"; x := Fin 0; y := Fin 0 |} ])))))
  = Some [ {| id := "0-0"; x := Fin 1; y := Fin 1 |} ].
Proof.
  refine (proj1 (proj2 (record_undo_redo useMeshHistory.MAX_HISTORY
            (MeshHistory.init [ {| id := "0-0"; x := Fin 0; y := Fin 0 |} ])
            [ {| id := "0-0"; x := Fin (1 # 2); y := Fin 0 |} ]
            [ {| id := "0-0"; x := Fin 1; y := Fin 1 |} ] _ _ _))).
  - unfold useMeshHistory.MAX_HISTORY. lia.
  - unfold MeshHistory.valid. simpl. lia.
  - reflexivity.
Defined.

(* ------------------------------------------------------------------ *)
(** *** The bound of the history *)

Section HistoryBound.

Import MeshHistory.
Local Open Scope list_scope.
Local Open Scope nat_scope.

Variable N : nat.
Hypothesis HN : 1 <= N.

Lemma pairwise_distinct_chain ms : forall m,
  pairwise_distinct (m :: ms) -> chain m ms.
Proof.
  induction ms as [|m2 ms IH]; intros m H; simpl; auto. split.
  - apply (H 0 1 m m2); auto.
  - apply IH. intros i j a b Hij Ha Hb. apply (H (S i) (S j) a b); auto. lia.
Qed.

Lemma pairwise_distinct_take ms k :
  pairwise_distinct ms -> pairwise_distinct (take k ms).
Proof.
  intros H i j a b Hij Ha Hb.
  apply lookup_take_Some in Ha as [Ha _], Hb as [Hb _]. eapply H; eauto.
Qed.

Lemma setMesh_last (m : Mesh) (h : history) :
  cursor_last h ->
  length (historyRef h) <= N ->
  hasChanged m (historyRef h !! indexRef h) = true ->
  let h' := setMesh N m h in
  historyRef h' = drop (length (historyRef h) + 1 - N) (historyRef h ++ [m])
  /\ cursor_last h'
  /\ length (historyRef h') <= N
  /\ historyRef h' !! indexRef h' = Some m.
Proof.
  unfold cursor_last. intros Hl Hle Hc.
  assert (Hv : valid h) by (unfold valid; lia).
  destruct (setMesh_changed_cursor N m h Hv Hc) as (Hcur & Hlast & _).
  cbv zeta. split; [|split; [exact Hlast | split; [|exact Hcur]]].
  - rewrite setMesh_changed by exact Hc. cbv zeta.
    rewrite take_ge by lia. rewrite length_app. simpl length.
    destruct (N <? _) eqn:E; cbn [historyRef].
    + apply Nat.ltb_lt in E. f_equal. lia.
    + apply Nat.ltb_ge in E.
      replace (length (historyRef h) + 1 - N) with 0 by lia. reflexivity.
  - rewrite setMesh_changed by exact Hc. cbv zeta.
    rewrite take_ge by lia. rewrite length_app. simpl length.
    destruct (N <? _) eqn:E; cbn [historyRef].
    + rewrite length_drop, length_app. simpl. lia.
    + apply Nat.ltb_ge in E. rewrite length_app. simpl. lia.
Qed.

Lemma record_all_last ms : forall (h : history) (cur : Mesh),
  cursor_last h ->
  length (historyRef h) <= N ->
  historyRef h !! indexRef h = Some cur ->
  chain cur ms ->
  let h' := record_all N ms h in
  historyRef h'
  = drop (length (historyRef h) + length ms - N) (historyRef h ++ ms)
  /\ cursor_last h'
  /\ length (historyRef h') <= N.
Proof.
  induction ms as [|m ms IH]; intros h cur Hl Hle Hcur Hch; cbv zeta.
  - simpl. rewrite app_nil_r.
    replace (length (historyRef h) + 0 - N) with 0 by lia. auto.
  - destruct Hch as [Hne Hch].
    assert (Hc : hasChanged m (historyRef h !! indexRef h) = true)
      by (rewrite Hcur; simpl; rewrite Hne; reflexivity).
    destruct (setMesh_last m h Hl Hle Hc) as (Hst & Hl1 & Hle1 & Hcur1).
    destruct (IH (setMesh N m h) m Hl1 Hle1 Hcur1 Hch) as (Hst' & Hl' & Hle').
    change (record_all N (m :: ms) h) with (record_all N ms (setMesh N m h)).
    split; [|split; assumption].
    rewrite Hst'. rewrite Hst at 2.
    rewrite <- drop_app_le
      by (rewrite length_app; simpl; lia).
    rewrite drop_drop, <- app_assoc. simpl app. f_equal.
    rewrite Hst, length_drop, length_app. simpl. lia.
Qed.

(** From the seed: once at least [N] pairwise distinct meshes were
    recorded the history holds [N] snapshots with the cursor on the
    last; with more than [N] they are the last [N] recorded. *)
Lemma record_all_init (s0 : Mesh) (ms : list Mesh) :
  pairwise_distinct ms ->
  N <= length ms ->
  let h := record_all N ms (init s0) in
  length (historyRef h) = N
  /\ indexRef h = N - 1
  /\ (N < length ms -> historyRef h = drop (length ms - N) ms).
Proof.
  intros Hpd Hlen. destruct ms as [|m1 ms]; [simpl in Hlen; lia|].
  pose proof (pairwise_distinct_chain ms m1 Hpd) as Hch.
  assert (Hl0 : cursor_last (init s0)) by reflexivity.
  assert (Hle0 : length (historyRef (init s0)) <= N) by (simpl; lia).
  assert (Hc0 : historyRef (init s0) !! indexRef (init s0) = Some s0)
    by reflexivity.
  simpl length in Hlen. cbv zeta.
  destruct (mesh_json_eqb m1 s0) eqn:E.
  - change (record_all N (m1 :: ms) (init s0))
      with (record_all N ms (setMesh N m1 (init s0))).
    rewrite (setMesh_unchanged N m1 (init s0))
      by (simpl; rewrite E; reflexivity).
    assert (Hch' : chain s0 ms).
    { destruct ms as [|m2 ms]; simpl in *; auto.
      destruct Hch as [Hne Hch]. split; auto.
      eapply mesh_json_eqb_false_trans; eauto.
      rewrite mesh_json_eqb_sym. exact E. }
    destruct (record_all_last ms (init s0) s0 Hl0 Hle0 Hc0 Hch')
      as (Hst & Hl & Hle).
    cbn [init historyRef length] in Hst.
    assert (Hlen' : length (historyRef (record_all N ms (init s0))) = N).
    { rewrite Hst, length_drop. simpl. lia. }
    split; [exact Hlen'|]. split; [unfold cursor_last in Hl; lia|].
    intros Hlt. simpl length in Hlt. rewrite Hst. simpl length.
    replace (1 + length ms - N) with (S (length ms - N)) by lia.
    replace (S (length ms) - N) with (S (length ms - N)) by lia.
    reflexivity.
  - assert (Hch' : chain s0 (m1 :: ms)) by (simpl; auto).
    destruct (record_all_last (m1 :: ms) (init s0) s0 Hl0 Hle0 Hc0 Hch')
      as (Hst & Hl & Hle).
    cbn [init historyRef length] in Hst.
    assert (Hlen' : length (historyRef (record_all N (m1 :: ms) (init s0)))
                    = N).
    { rewrite Hst, length_drop. simpl. lia. }
    split; [exact Hlen'|]. split; [unfold cursor_last in Hl; lia|].
    intros _. rewrite Hst.
    replace (1 + S (length ms) - N) with (S (S (length ms) - N)) by lia.
    reflexivity.
Qed.

End HistoryBound.

(** C3.  In a history bounded at [N] and seeded with one mesh,
    recording [N + 5] meshes with pairwise different JSON texts leaves
    exactly [N] snapshots, the recorded meshes from the sixth on, so
    that the oldest snapshot is the sixth recorded mesh; the cursor is
    [N - 1], and it already was [N - 1], with [N] snapshots, after each
    of the records from the [N]-th on. *)
Theorem history_bound (N : nat) (s0 : Mesh) (ms : list Mesh) :
  (1 <= N)%nat ->
  length ms = (N + 5)%nat ->
  pairwise_distinct ms ->
  let h := record_all N ms (MeshHistory.init s0) in
  MeshHistory.historyLength h = N
  /\ MeshHistory.historyRef h = drop 5 ms
  /\ MeshHistory.historyRef h !! 0%nat = ms !! 5%nat
  /\ MeshHistory.indexRef h = (N - 1)%nat
  /\ (forall k, (N <= k <= N + 5)%nat ->
        let hk := record_all N (take k ms) (MeshHistory.init s0) in
        MeshHistory.historyLength hk = N
        /\ MeshHistory.indexRef hk = (N - 1)%nat).
Proof.
  intros HN Hlen Hpd h.
  destruct (record_all_init N HN s0 ms Hpd) as (Hl & Hi & Hst); [lia|].
  fold h in Hl, Hi, Hst.
  assert (E : MeshHistory.historyRef h = drop 5 ms).
  { rewrite Hst by lia. f_equal. lia. }
  unfold MeshHistory.historyLength.
  split; [exact Hl|]. split; [exact E|]. split; [|split; [exact Hi|]].
  - rewrite E, lookup_drop. reflexivity.
  - intros k Hk. cbv zeta.
    destruct (record_all_init N HN s0 (take k ms)) as (Hl' & Hi' & _).
    + apply pairwise_distinct_take. exact Hpd.
    + rewrite length_take. lia.
    + auto.
Qed.

Lemma sample_meshes_distinct (n : nat) :
  pairwise_distinct (map sample_mesh (seq 1 n)).
Proof.
  intros i j a b Hij Ha Hb. rewrite lookup_map in Ha, Hb.
  destruct (seq 1 n !! i) as [ka|] eqn:Ei; [|discriminate].
  destruct (seq 1 n !! j) as [kb|] eqn:Ej; [|discriminate].
  apply lookup_seq in Ei as [-> _], Ej as [-> _].
  injection Ha as <-. injection Hb as <-.
  unfold sample_mesh, mesh_json_eqb, point_json_eqb.
  cbn [id x y json_eqb of_nat of_Z].
  assert (Hq : Qeq_bool (inject_Z (Z.of_nat (S j))) (inject_Z (Z.of_nat (S i)))
               = false).
  { apply Qeq_bool_false_iff. unfold Qeq. simpl Qnum. simpl Qden. lia. }
  rewrite Hq. reflexivity.
Qed.

Lemma history_bound_witness :
  MeshHistory.historyLength
    (record_all App.MAX_HISTORY (map sample_mesh (seq 1 35))
       (MeshHistory.init (sample_mesh 0)))
  = 30%nat
  /\ MeshHistory.historyRef
       (record_all App.MAX_HISTORY (map sample_mesh (seq 1 35))
          (MeshHistory.init (sample_mesh 0))) !! 0%nat
     = Some (sample_mesh 6).
Proof.
  destruct (history_bound App.MAX_HISTORY (sample_mesh 0)
              (map sample_mesh (seq 1 35)))
    as (Hlen & _ & Hold & _).
  - unfold App.MAX_HISTORY. lia.
  - reflexivity.
  - apply sample_meshes_distinct.
  - split; [exact Hlen | exact Hold].
Defined.

(* ================================================================== *)
(** ** Playback controller *)
(* ================================================================== *)

Section PlaybackFacts.

Import Playback.

(** A trigger key is none of the other keys the screen reacts to. *)
Lemma trigger_key_cases (key : string) :
  includes TRIGGER_KEYS key = true ->
  String.eqb key "Escape" = false
  /\ includes NEXT_CUE_KEYS key = false
  /\ includes PREV_CUE_KEYS key = false.
Proof.
  unfold includes, TRIGGER_KEYS. cbn [existsb]. intros H.
  repeat (apply orb_prop in H as [H|H];
          [apply String.eqb_eq in H; subst key; repeat split; reflexivity|]).
  discriminate.
Qed.

(** The key of the hardware button and the button on the screen have
    the same effect, in every state. *)
Lemma hardware_manual_same (key : string) (s : state) :
  includes TRIGGER_KEYS key = true ->
  handleKeyPress key s = handleManualTrigger s.
Proof.
  intros H. destruct (trigger_key_cases key H) as (He & Hn & Hp).
  unfold handleKeyPress, handleManualTrigger.
  rewrite He, Hn, Hp, H, !andb_false_r.
  destruct (negb (armed s) || blackout s); reflexivity.
Qed.

Lemma fire_manual (t : trigger) (s : state) :
  is_trigger t -> fire t s = handleManualTrigger s.
Proof.
  destruct t as [key|]; simpl; intros H; [|reflexivity].
  apply hardware_manual_same. exact H.
Qed.

End PlaybackFacts.

(** C8.  In the Armed state a trigger, from the hardware key or from
    the button on the screen alike, starts playback and disarms, leaving
    the playlist and the cue cursor as they are.  A trigger while
    Playing changes nothing.  A completion signal while Playing, when
    the current cue does not loop and a next cue exists, moves the cue
    cursor forward by exactly one and returns to Armed. *)
Theorem trigger_and_completion (s : Playback.state) :
  (forall t, Playback.Armed s -> Playback.is_trigger t ->
     let s' := Playback.fire t s in
     Playback.Playing s'
     /\ Playback.videoCues s' = Playback.videoCues s
     /\ Playback.currentCueIndex s' = Playback.currentCueIndex s
     /\ s' = Playback.fire Playback.ManualButton s)
  /\ (forall t, Playback.Playing s -> Playback.is_trigger t ->
        Playback.fire t s = s)
  /\ (Playback.Playing s ->
      Playback.currentCueLoop s = false ->
      (Playback.currentCueIndex s + 1 < length (Playback.videoCues s))%nat ->
      let s' := Playback.handlePlaybackFinished s in
      Playback.Armed s'
      /\ Playback.currentCueIndex s' = (Playback.currentCueIndex s + 1)%nat
      /\ Playback.videoCues s' = Playback.videoCues s).
Proof.
  split; [|split].
  - intros t (Ha & Hp & Hb) Ht. cbv zeta.
    rewrite (fire_manual t s Ht). cbn [Playback.fire].
    unfold Playback.handleManualTrigger. rewrite Ha, Hb. cbn.
    repeat split; auto.
  - intros t (Hp & Ha & Hb) Ht.
    rewrite (fire_manual t s Ht).
    unfold Playback.handleManualTrigger. rewrite Ha. reflexivity.
  - intros (Hp & Ha & Hb) Hloop Hnext. cbv zeta.
    unfold Playback.handlePlaybackFinished, Playback.onNextCue.
    rewrite Hloop. cbn [negb andb Playback.set_flags Playback.currentCueIndex
                          Playback.videoCues].
    replace (Z.of_nat (Playback.currentCueIndex s)
             <? Z.of_nat (length (Playback.videoCues s)) - 1) with true
      by (symmetry; apply Z.ltb_lt; lia).
    unfold Playback.Armed. cbn. repeat split; auto.
Qed.

Lemma trigger_and_completion_witness :
  let cue n := Playback.mkCue "cue" n "file:///a.mp4" false None None (Fin 0) in
  let armed0 := Playback.mkState false true true false [cue "a"; cue "b"] 0 in
  let playing0 :=
    Playback.mkState true false false false [cue "a"; cue "b"] 0 in
  Playback.fire (Playback.HardwareKey " ") armed0 = playing0
  /\ Playback.fire Playback.ManualButton playing0 = playing0
  /\ Playback.currentCueIndex (Playback.handlePlaybackFinished playing0)
     = 1%nat.
Proof.
  intros cue armed0 playing0.
  destruct (trigger_and_completion armed0) as (H1 & _ & _).
  destruct (trigger_and_completion playing0) as (_ & H2 & H3).
  split; [|split].
  - destruct (H1 (Playback.HardwareKey " ")) as (_ & _ & _ & E).
    + repeat split.
    + reflexivity.
    + exact E.
  - apply H2; [repeat split | exact I].
  - destruct H3 as (_ & E & _).
    + repeat split.
    + reflexivity.
    + simpl. lia.
    + exact E.
Defined.

(* ================================================================== *)
(** ** Editor: dragging a point *)
(* ================================================================== *)

Section Drag.

(** [Math.max(0, Math.min(w, t))] clamps [t] to the interval from 0 to
    [w]. *)
Lemma clamp_spec (w t : Q) :
  (0 < w)%Q ->
  exists c : Q,
    max2 (Fin 0) (min2 (Fin w) (Fin t)) = Fin c
    /\ (0 <= c)%Q /\ (c <= w)%Q
    /\ ((t <= 0)%Q -> c = 0%Q)
    /\ ((0 < t)%Q -> (t < w)%Q -> c = t)
    /\ ((w <= t)%Q -> c = w).
Proof.
  intros Hw. unfold max2, min2, ltb.
  destruct (Qlt_le_dec t w) as [H1|H1];
    match goal with
    | |- context [Qlt_le_dec 0 ?m] => destruct (Qlt_le_dec 0 m) as [H2|H2]
    end;
    eexists; (split; [reflexivity|]);
    repeat split; intros; try reflexivity; try lra.
Qed.

Lemma unit_quotient (c w : Q) :
  (0 < w)%Q -> (0 <= c)%Q -> (c <= w)%Q ->
  (0 <= c / w)%Q /\ (c / w <= 1)%Q.
Proof.
  intros Hw H0 H1. split.
  - apply Qle_shift_div_l; auto. lra.
  - apply Qle_shift_div_r; auto. lra.
Qed.

End Drag.

(** C7.  In a viewport of positive width and height, [updatePoint]
    hands on a mesh of the same length in which every point with the
    given id has new coordinates and every other point is the point it
    was.  The new coordinates are the touch position clamped to the
    viewport, [0 .. width] by [0 .. height], divided by the width and
    the height, so they lie in the unit interval.  In the default 4 by 4
    mesh, dragging point [1-1] changes position 5 and leaves the 15 other
    points as they were. *)
Theorem updatePoint_frame (mesh : Mesh) (pid : string) (w h tx ty : Q) :
  (0 < w)%Q -> (0 < h)%Q ->
  exists (cx cy : Q) (mesh' : Mesh),
    Editor.updatePoint (Some {| width := Fin w; height := Fin h |})
      mesh pid (Fin tx) (Fin ty) = Some mesh'
    /\ ((0 <= cx)%Q /\ (cx <= w)%Q
        /\ ((tx <= 0)%Q -> cx = 0%Q)
        /\ ((0 < tx)%Q -> (tx < w)%Q -> cx = tx)
        /\ ((w <= tx)%Q -> cx = w))
    /\ ((0 <= cy)%Q /\ (cy <= h)%Q
        /\ ((ty <= 0)%Q -> cy = 0%Q)
        /\ ((0 < ty)%Q -> (ty < h)%Q -> cy = ty)
        /\ ((h <= ty)%Q -> cy = h))
    /\ (0 <= cx / w)%Q /\ (cx / w <= 1)%Q
    /\ (0 <= cy / h)%Q /\ (cy / h <= 1)%Q
    /\ length mesh' = length mesh
    /\ (forall i p, mesh !! i = Some p -> id p = pid ->
          mesh' !! i = Some {| id := pid; x := Fin (cx / w);
                               y := Fin (cy / h) |})
    /\ (forall i p, mesh !! i = Some p -> id p <> pid ->
          mesh' !! i = Some p)
    /\ (mesh = buildDefaultMesh 4 4 -> pid = "1-1" ->
          mesh' !! 5%nat = Some {| id := "1-1"; x := Fin (cx / w);
                                   y := Fin (cy / h) |}
          /\ forall i, i <> 5%nat -> mesh' !! i = mesh !! i).
Proof.
  intros Hw Hh.
  destruct (clamp_spec w tx Hw) as (cx & Ex & Hx0 & Hx1 & Hxs).
  destruct (clamp_spec h ty Hh) as (cy & Ey & Hy0 & Hy1 & Hys).
  exists cx, cy. eexists. unfold Editor.updatePoint.
  cbn [width height]. rewrite Ex, Ey.
  rewrite !div_Fin by (intros E; lra).
  split; [reflexivity|].
  destruct (unit_quotient cx w Hw Hx0 Hx1) as [? ?].
  destruct (unit_quotient cy h Hh Hy0 Hy1) as [? ?].
  split; [auto|]. split; [auto|].
  split; [auto|]. split; [auto|]. split; [auto|]. split; [auto|].
  assert (Hhit : forall (m : Mesh) i p, m !! i = Some p -> id p = pid ->
            map (fun p => if String.eqb (id p) pid
                          then {| id := id p; x := Fin (cx / w);
                                  y := Fin (cy / h) |}
                          else p) m !! i
            = Some {| id := pid; x := Fin (cx / w); y := Fin (cy / h) |}).
  { intros m i p Hp Hid. rewrite lookup_map, Hp. cbn [option_map].
    rewrite Hid, String.eqb_refl. reflexivity. }
  assert (Hmiss : forall (m : Mesh) i p, m !! i = Some p -> id p <> pid ->
            map (fun p => if String.eqb (id p) pid
                          then {| id := id p; x := Fin (cx / w);
                                  y := Fin (cy / h) |}
                          else p) m !! i = Some p).
  { intros m i p Hp Hid. rewrite lookup_map, Hp. cbn [option_map].
    apply String.eqb_neq in Hid. rewrite Hid. reflexivity. }
  split; [apply length_map|].
  split; [apply Hhit|]. split; [apply Hmiss|].
  intros -> ->. rewrite buildDefaultMesh_grid. split.
  - apply (Hhit _ 5%nat (grid_point 4 4 1 1)); [|reflexivity].
    apply (grid_lookup (grid_point 4 4) 4 4 0 1 1); lia.
  - intros i Hi.
    destruct (grid (grid_point 4 4) (Z.to_nat 4) 0 (Z.to_nat 4) !! i)
      as [p|] eqn:Ep.
    + apply (Hmiss _ i p Ep).
      apply grid_lookup_inv in Ep as (r & c & Hr & Hc & -> & ->).
      intros E. apply (id_inj (0 + r) c 1 1) in E as [E1 E2].
      apply Hi. subst c. cbn [Nat.add] in E1. subst r. reflexivity.
    + rewrite lookup_map, Ep. reflexivity.
Qed.

Lemma updatePoint_frame_witness :
  (0 < 800)%Q /\ (0 < 600)%Q
  /\ exists (cx cy : Q) (mesh' : Mesh),
       Editor.updatePoint (Some {| width := Fin 800; height := Fin 600 |})
         (buildDefaultMesh 4 4) "1-1" (Fin 320) (Fin 180) = Some mesh'
       /\ cx = 320%Q /\ cy = 180%Q
       /\ mesh' !! 5%nat = Some {| id := "1-1"; x := Fin (cx / 800);
                                   y := Fin (cy / 600) |}
       /\ forall i, i <> 5%nat -> mesh' !! i = buildDefaultMesh 4 4 !! i.
Proof.
  assert (Hw : (0 < 800)%Q) by reflexivity.
  assert (Hh : (0 < 600)%Q) by reflexivity.
  split; [exact Hw|]. split; [exact Hh|].
  destruct (updatePoint_frame (buildDefaultMesh 4 4) "1-1" 800 600 320 180
              Hw Hh)
    as (cx & cy & mesh' & Hup & (_ & _ & _ & Hcx & _) & (_ & _ & _ & Hcy & _)
        & _ & _ & _ & _ & _ & _ & _ & Hdef).
  exists cx, cy, mesh'. split; [exact Hup|].
  split; [apply Hcx; reflexivity|]. split; [apply Hcy; reflexivity|].
  apply Hdef; reflexivity.
Defined.

(* ================================================================== *)
(** ** Editor: hit test *)
(* ================================================================== *)

Section HitTest.

Variables w h tx ty : Q.

Let sz : Size := {| width := Fin w; height := Fin h |}.
Let step := Editor.nearest_step sz (Fin tx) (Fin ty).








End HitTest.

(* ------------------------------------------------------------------ *)
(** *** Distances as real numbers *)

Section RealDistances.

Lemma Q2R_nonneg (a : Q) : (0 <= a)%Q -> (0 <= Q2R a)%R.
Proof.
  intros H. apply Qle_Rle in H. rewrite RMicromega.Q2R_0 in H. exact H.
Qed.

Lemma sqrt_Q_lt (a b : Q) :
  (0 <= a)%Q -> (0 <= b)%Q ->
  ((a < b)%Q <-> (sqrt (Q2R a) < sqrt (Q2R b))%R).
Proof.
  intros Ha Hb. apply Q2R_nonneg in Ha, Hb. split; intros H.
  - apply sqrt_lt_1; auto. apply Qlt_Rlt. exact H.
  - apply Rlt_Qlt. apply sqrt_lt_0; auto.
Qed.


Lemma sqrt_threshold2 : sqrt (Q2R threshold2) = 32%R.
Proof.
  replace (Q2R threshold2) with (32 * 32)%R.
  - apply sqrt_square. lra.
  - unfold threshold2. rewrite Q2R_mult, Q2R_plus.
    unfold Q2R, inject_Z. cbn [Qnum Qden]. rewrite Rinv_1. lra.
Qed.

(** The order of roots is the order of the real square roots, and the
    initial [minDist] is 32. *)
Lemma root_ltb_real (a b : Q) :
  (0 <= a)%Q -> (0 <= b)%Q ->
  (root_ltb (Math_sqrt (Fin a)) (Math_sqrt (Fin b)) = true
   <-> (root_val (Math_sqrt (Fin a)) < root_val (Math_sqrt (Fin b)))%R).
Proof.
  intros Ha Hb. unfold Math_sqrt.
  rewrite !(proj2 (ltb_Fin_false _ _)) by assumption.
  unfold root_ltb, root_val. cbn [radicand to_Q].
  rewrite ltb_Fin. apply sqrt_Q_lt; assumption.
Qed.

Lemma root_val_threshold :
  root_val (root_of (add Editor.HANDLE_HIT_SLOP Editor.HANDLE_RADIUS))
  = 32%R.
Proof. apply sqrt_threshold2. Qed.


End RealDistances.



(* ================================================================== *)
(** ** Warp renderer on the identity mesh *)
(* ================================================================== *)

Section ExtremeOfList.

(** An element below (above) all others is the [Math.min] ([Math.max])
    of the list. *)
Lemma Math_min_least (l : list num) (q : Q) :
  Forall not_nan l -> In (Fin q) l ->
  Forall (fun b => le (Fin q) b) l ->
  num_eq (Math_min l) (Fin q).
Proof.
  intros Hnn Hin Hall. unfold Math_min.
  destruct (fold_min2_spec l PInf) as (Hres & Hle); [discriminate | auto |].
  set (m := fold_left min2 l PInf) in *.
  inversion Hle as [|? ? _ Hle']; subst.
  rewrite Forall_forall in Hle', Hall.
  apply list_elem_of_In in Hin.
  assert (Hm : le m (Fin q)) by auto.
  destruct Hres as [Hres|Hres].
  - rewrite <- Hres in Hm. destruct Hm.
  - apply list_elem_of_In in Hres.
    apply le_antisym; [exact Hm | auto].
Qed.

Lemma Math_max_greatest (l : list num) (q : Q) :
  Forall not_nan l -> In (Fin q) l ->
  Forall (fun b => le b (Fin q)) l ->
  num_eq (Math_max l) (Fin q).
Proof.
  intros Hnn Hin Hall. unfold Math_max.
  destruct (fold_max2_spec l NInf) as (Hres & Hle); [discriminate | auto |].
  set (m := fold_left max2 l NInf) in *.
  inversion Hle as [|? ? _ Hle']; subst.
  rewrite Forall_forall in Hle', Hall.
  apply list_elem_of_In in Hin.
  assert (Hm : le (Fin q) m) by auto.
  destruct Hres as [Hres|Hres].
  - rewrite <- Hres in Hm. destruct Hm.
  - apply list_elem_of_In in Hres.
    apply le_antisym; [auto | exact Hm].
Qed.

(** The least and the greatest of four finite numbers of which the
    first is below the second, the third equals the second and the
    fourth the first: the corners of a rectangle along one axis. *)
Lemma min_max_rect (a b c d : Q) :
  (a <= b)%Q -> (c == b)%Q -> (d == a)%Q ->
  num_eq (Math_min [Fin a; Fin b; Fin c; Fin d]) (Fin a)
  /\ num_eq (Math_max [Fin a; Fin b; Fin c; Fin d]) (Fin b).
Proof.
  intros Hab Hc Hd. split.
  - apply Math_min_least.
    + repeat constructor; discriminate.
    + left. reflexivity.
    + repeat constructor; simpl; lra.
  - apply Math_max_greatest.
    + repeat constructor; discriminate.
    + right. left. reflexivity.
    + repeat constructor; simpl; lra.
Qed.


End ExtremeOfList.

Section IdentityMesh.

Variables (g : nat) (W H : Q).
Hypothesis Hg : (2 <= g)%nat.

Let identity : Mesh := buildDefaultMesh (Z.of_nat g) (Z.of_nat g).



End IdentityMesh.

Section RenderIdentity.

Variables (g : nat) (W H vw vh : Q).
Hypothesis Hg : (2 <= g)%nat.
Hypothesis HW : (0 < W)%Q.
Hypothesis HH : (0 < H)%Q.
Hypothesis Hvw : (0 < vw)%Q.
Hypothesis Hvh : (0 < vh)%Q.

Let identity : Mesh := buildDefaultMesh (Z.of_nat g) (Z.of_nat g).



End RenderIdentity.

Section RenderFrame.




End RenderFrame.



(* ================================================================== *)
(** ** Further properties of the mesh history *)
(* ================================================================== *)

Section HistoryInvariant.

Import MeshHistory.
Local Open Scope list_scope.
Local Open Scope nat_scope.

Variable N : nat.

Lemma setMesh_length (m : Mesh) (h : history) :
  valid h ->
  hasChanged m (historyRef h !! indexRef h) = true ->
  length (historyRef (setMesh N m h))
  = if N <? indexRef h + 2 then indexRef h + 1 else indexRef h + 2.
Proof.
  unfold valid. intros Hv Hc. rewrite setMesh_changed by exact Hc. cbv zeta.
  assert (Hp : length (take (indexRef h + 1) (historyRef h) ++ [m])
               = indexRef h + 2).
  { rewrite length_app, length_take. simpl length. lia. }
  rewrite Hp.
  destruct (N <? indexRef h + 2); cbn [historyRef].
  - rewrite length_drop, Hp. lia.
  - exact Hp.
Qed.

Lemma setMesh_in_sync (m : Mesh) (h : history) :
  in_sync h -> in_sync (setMesh N m h).
Proof.
  intros [Hv Hs].
  destruct (hasChanged m (historyRef h !! indexRef h)) eqn:Hc.
  - destruct (setMesh_changed_cursor N m h Hv Hc) as (Hl & Hlen & Hm).
    split; [unfold valid; lia|]. rewrite Hm, Hl. reflexivity.
  - rewrite setMesh_unchanged by exact Hc. split; assumption.
Qed.

Lemma undo_in_sync (h : history) : in_sync h -> in_sync (undo h).
Proof.
  unfold in_sync, undo, valid. intros [Hv Hs].
  destruct (0 <? indexRef h) eqn:E; [|split; assumption].
  split; cbn [historyRef indexRef mesh]; [lia | reflexivity].
Qed.

Lemma redo_in_sync (h : history) : in_sync h -> in_sync (redo h).
Proof.
  unfold in_sync, redo, valid. intros [Hv Hs].
  destruct (Z.of_nat (indexRef h) <? Z.of_nat (length (historyRef h)) - 1)%Z
    eqn:E; [|split; assumption].
  apply Z.ltb_lt in E.
  split; cbn [historyRef indexRef mesh]; [lia | reflexivity].
Qed.

Lemma setMesh_bounded (m : Mesh) (h : history) :
  valid h ->
  length (historyRef h) <= Nat.max 1 N ->
  length (historyRef (setMesh N m h)) <= Nat.max 1 N.
Proof.
  intros Hv Hle.
  destruct (hasChanged m (historyRef h !! indexRef h)) eqn:Hc.
  - rewrite setMesh_length by assumption. unfold valid in Hv.
    destruct (N <? indexRef h + 2) eqn:E.
    + lia.
    + apply Nat.ltb_ge in E. lia.
  - rewrite setMesh_unchanged by exact Hc. exact Hle.
Qed.

Lemma apply_op_inv (o : history_op) (h : history) :
  in_sync h /\ length (historyRef h) <= Nat.max 1 N ->
  in_sync (apply_op N o h)
  /\ length (historyRef (apply_op N o h)) <= Nat.max 1 N.
Proof.
  intros [Hs Hle]. destruct o as [m|f| | |m]; cbn [apply_op].
  - split; [apply setMesh_in_sync; exact Hs|].
    apply setMesh_bounded; [apply Hs | exact Hle].
  - unfold setMeshWith. split; [apply setMesh_in_sync; exact Hs|].
    apply setMesh_bounded; [apply Hs | exact Hle].
  - split; [apply undo_in_sync; exact Hs|].
    unfold undo. destruct (0 <? indexRef h); exact Hle.
  - split; [apply redo_in_sync; exact Hs|].
    unfold redo. destruct (_ <? _)%Z; exact Hle.
  - split; [split; [unfold valid; simpl; lia | reflexivity]|].
    simpl. lia.
Qed.

End HistoryInvariant.

(** X1.  Whatever sequence of [setMesh] (with a mesh or an updater),
    [undo], [redo] and [resetHistory] calls follows the creation of the
    history, the cursor is a valid index, the mesh shown is the snapshot
    at the cursor, and the history holds at least one and at most
    [MAX_HISTORY] snapshots (one, should the bound be zero). *)
Theorem history_invariant (N : nat) (s0 : Mesh) (ops : list history_op) :
  let h := run_ops N ops (MeshHistory.init s0) in
  (MeshHistory.indexRef h < length (MeshHistory.historyRef h))%nat
  /\ MeshHistory.mesh h
     = MeshHistory.historyRef h !! MeshHistory.indexRef h
  /\ (1 <= MeshHistory.historyLength h <= Nat.max 1 N)%nat.
Proof.
  cbv zeta. unfold run_ops.
  assert (H0 : in_sync (MeshHistory.init s0)
               /\ (length (MeshHistory.historyRef (MeshHistory.init s0))
                   <= Nat.max 1 N)%nat).
  { split; [split; [unfold MeshHistory.valid; simpl; lia | reflexivity]|].
    simpl. lia. }
  revert H0. generalize (MeshHistory.init s0).
  induction ops as [|o ops IH]; intros h Hinv; cbn [fold_left].
  - destruct Hinv as [[Hv Hs] Hle]. unfold MeshHistory.valid in Hv.
    unfold MeshHistory.historyLength. repeat split; auto; lia.
  - apply IH. apply apply_op_inv. exact Hinv.
Qed.

(** X2.  When the mesh shown is the snapshot at a valid cursor, [redo]
    followed by [undo] gives the state back whenever [canRedo] holds,
    and [undo] followed by [redo] does whenever [canUndo] holds.  The
    two flags say exactly when the operations act: [undo] leaves the
    state as it is if and only if [canUndo] is false, and likewise
    [redo] and [canRedo]. *)
Theorem undo_redo_inverse (h : MeshHistory.history) :
  (in_sync h -> MeshHistory.canRedo h = true ->
   MeshHistory.undo (MeshHistory.redo h) = h)
  /\ (in_sync h -> MeshHistory.canUndo h = true ->
      MeshHistory.redo (MeshHistory.undo h) = h)
  /\ (MeshHistory.undo h = h <-> MeshHistory.canUndo h = false)
  /\ (MeshHistory.redo h = h <-> MeshHistory.canRedo h = false).
Proof.
  destruct h as [hist idx m].
  unfold in_sync, MeshHistory.valid, MeshHistory.canRedo, MeshHistory.canUndo,
    MeshHistory.undo, MeshHistory.redo.
  cbn [MeshHistory.historyRef MeshHistory.indexRef MeshHistory.mesh].
  split; [|split; [|split]].
  - intros [Hv Hs] Hr. rewrite Hr.
    cbn [MeshHistory.historyRef MeshHistory.indexRef MeshHistory.mesh].
    replace (0 <? idx + 1)%nat with true by (symmetry; apply Nat.ltb_lt; lia).
    replace (idx + 1 - 1)%nat with idx by lia. rewrite Hs. reflexivity.
  - intros [Hv Hs] Hu. rewrite Hu.
    cbn [MeshHistory.historyRef MeshHistory.indexRef MeshHistory.mesh].
    apply Nat.ltb_lt in Hu.
    replace (Z.of_nat (idx - 1) <? Z.of_nat (length hist) - 1) with true
      by (symmetry; apply Z.ltb_lt; lia).
    replace (idx - 1 + 1)%nat with idx by lia. rewrite Hs. reflexivity.
  - destruct (0 <? idx)%nat eqn:E; split; intros H; try reflexivity;
      try discriminate.
    apply Nat.ltb_lt in E. injection H as Hi _. lia.
  - destruct (Z.of_nat idx <? Z.of_nat (length hist) - 1) eqn:E;
      split; intros H; try reflexivity; try discriminate.
    injection H as Hi _. lia.
Qed.

Lemma undo_redo_inverse_witness :
  let h := useMeshHistory.undo
             (useMeshHistory.setMesh (sample_mesh 1)
                (MeshHistory.init (sample_mesh 0))) in
  MeshHistory.undo (MeshHistory.redo h) = h
  /\ MeshHistory.redo (MeshHistory.undo (MeshHistory.redo h))
     = MeshHistory.redo h.
Proof.
  intros h.
  destruct (undo_redo_inverse h) as (H1 & _).
  destruct (undo_redo_inverse (MeshHistory.redo h)) as (_ & H2 & _).
  split.
  - apply H1; [|reflexivity].
    split; [unfold MeshHistory.valid; simpl; lia | reflexivity].
  - apply H2; [|reflexivity].
    split; [unfold MeshHistory.valid; simpl; lia | reflexivity].
Defined.

(** X3.  Recording the same mesh twice in a row is recording it once:
    in a history with a valid cursor the second [setMesh] finds its
    argument at the cursor and changes nothing. *)
Theorem setMesh_idempotent (N : nat) (m : Mesh) (h : MeshHistory.history) :
  MeshHistory.valid h ->
  MeshHistory.setMesh N m (MeshHistory.setMesh N m h)
  = MeshHistory.setMesh N m h.
Proof.
  intros Hv.
  destruct (MeshHistory.hasChanged m
              (MeshHistory.historyRef h !! MeshHistory.indexRef h)) eqn:Hc.
  - destruct (setMesh_changed_cursor N m h Hv Hc) as (Hl & _ & _).
    apply setMesh_unchanged. rewrite Hl. simpl.
    rewrite mesh_json_eqb_refl. reflexivity.
  - rewrite (setMesh_unchanged N m h Hc).
    apply setMesh_unchanged. exact Hc.
Qed.

Lemma setMesh_idempotent_witness :
  App.setMesh (sample_mesh 1)
    (App.setMesh (sample_mesh 1) (MeshHistory.init (sample_mesh 0)))
  = App.setMesh (sample_mesh 1) (MeshHistory.init (sample_mesh 0)).
Proof.
  apply (setMesh_idempotent App.MAX_HISTORY).
  unfold MeshHistory.valid. simpl. lia.
Defined.

(** X4.  A recorded change made after undoing discards the undone
    snapshots: whatever the length of the history was, the new mesh is
    the last snapshot, so that [canRedo] is false and [redo] does
    nothing; and below the bound the snapshots up to the old cursor are
    kept as they were, the new mesh following them. *)
Theorem setMesh_discards_redo (N : nat) (m : Mesh)
    (h : MeshHistory.history) :
  MeshHistory.valid h ->
  MeshHistory.hasChanged m
    (MeshHistory.historyRef h !! MeshHistory.indexRef h) = true ->
  let h' := MeshHistory.setMesh N m h in
  MeshHistory.canRedo h' = false
  /\ MeshHistory.redo h' = h'
  /\ MeshHistory.historyRef h' !! MeshHistory.indexRef h' = Some m
  /\ ((MeshHistory.indexRef h + 2 <= N)%nat ->
      MeshHistory.historyRef h'
      = (take (MeshHistory.indexRef h + 1) (MeshHistory.historyRef h)
         ++ [m])%list
      /\ MeshHistory.indexRef h' = (MeshHistory.indexRef h + 1)%nat).
Proof.
  intros Hv Hc h'.
  destruct (setMesh_changed_cursor N m h Hv Hc) as (Hl & Hlen & Hm).
  fold h' in Hl, Hlen, Hm.
  assert (Hr : MeshHistory.canRedo h' = false).
  { unfold MeshHistory.canRedo. rewrite Hlen. apply Z.ltb_ge. lia. }
  split; [exact Hr|]. split; [|split; [exact Hl|]].
  - unfold MeshHistory.redo. unfold MeshHistory.canRedo in Hr.
    rewrite Hr. reflexivity.
  - intros Hb. subst h'. rewrite setMesh_changed by exact Hc. cbv zeta.
    unfold MeshHistory.valid in Hv.
    replace (N <? length (take (MeshHistory.indexRef h + 1)
                            (MeshHistory.historyRef h) ++ [m]))%nat
      with false.
    + split; reflexivity.
    + symmetry. apply Nat.ltb_ge.
      rewrite length_app, length_take. simpl. lia.
Qed.

Lemma setMesh_discards_redo_witness :
  let h := useMeshHistory.undo
             (useMeshHistory.undo
                (useMeshHistory.setMesh (sample_mesh 2)
                   (useMeshHistory.setMesh (sample_mesh 1)
                      (MeshHistory.init (sample_mesh 0))))) in
  MeshHistory.historyRef (useMeshHistory.setMesh (sample_mesh 3) h)
  = [sample_mesh 0; sample_mesh 3]
  /\ MeshHistory.canRedo (useMeshHistory.setMesh (sample_mesh 3) h) = false.
Proof.
  intros h.
  destruct (setMesh_discards_redo useMeshHistory.MAX_HISTORY
              (sample_mesh 3) h) as (Hr & _ & _ & Hk).
  - unfold MeshHistory.valid. simpl. lia.
  - reflexivity.
  - split; [|exact Hr].
    destruct Hk as [Hk _]; [unfold useMeshHistory.MAX_HISTORY; simpl; lia|].
    exact Hk.
Defined.

Section UndoChain.

Import MeshHistory.
Local Open Scope nat_scope.

Lemma record_all_in_sync (N : nat) (ms : list Mesh) : forall h,
  in_sync h -> in_sync (record_all N ms h).
Proof.
  induction ms as [|m ms IH]; intros h Hs; [exact Hs|].
  apply IH. apply setMesh_in_sync. exact Hs.
Qed.

Lemma in_sync_eta (h : history) :
  in_sync h ->
  h = {| historyRef := historyRef h; indexRef := indexRef h;
         mesh := historyRef h !! indexRef h |}.
Proof. intros [_ Hs]. destruct h as [hist idx m]. simpl in *. congruence. Qed.

Lemma iter_undo (k : nat) (h : history) :
  in_sync h -> k <= indexRef h ->
  Nat.iter k undo h
  = {| historyRef := historyRef h; indexRef := indexRef h - k;
       mesh := historyRef h !! (indexRef h - k) |}.
Proof.
  intros Hs. induction k as [|k IH]; intros Hk.
  - cbn [Nat.iter nat_rect]. rewrite Nat.sub_0_r. apply in_sync_eta. exact Hs.
  - cbn [Nat.iter nat_rect]. fold (Nat.iter k undo h). rewrite IH by lia.
    unfold undo. cbn [historyRef indexRef mesh].
    replace (0 <? indexRef h - k) with true
      by (symmetry; apply Nat.ltb_lt; lia).
    replace (indexRef h - k - 1) with (indexRef h - S k) by lia.
    reflexivity.
Qed.

Lemma iter_redo (k : nat) (h : history) :
  in_sync h -> indexRef h + k < length (historyRef h) ->
  Nat.iter k redo h
  = {| historyRef := historyRef h; indexRef := indexRef h + k;
       mesh := historyRef h !! (indexRef h + k) |}.
Proof.
  intros Hs. induction k as [|k IH]; intros Hk.
  - cbn [Nat.iter nat_rect]. rewrite Nat.add_0_r. apply in_sync_eta. exact Hs.
  - cbn [Nat.iter nat_rect]. fold (Nat.iter k redo h). rewrite IH by lia.
    unfold redo. cbn [historyRef indexRef mesh].
    replace (Z.of_nat (indexRef h + k)
             <? Z.of_nat (length (historyRef h)) - 1)%Z with true
      by (symmetry; apply Z.ltb_lt; lia).
    replace (indexRef h + k + 1) with (indexRef h + S k) by lia.
    reflexivity.
Qed.

End UndoChain.

(** X5.  Below the bound nothing is lost: after recording fewer than
    [MAX_HISTORY] meshes, each different from the one before it, into a
    fresh history, the snapshots are the seed followed by the recorded
    meshes; [k] undos show the mesh recorded [k] steps earlier; as many
    undos as there were records show the seed again, where [canUndo] is
    false; and as many redos after that restore the state reached by
    recording. *)
Theorem undo_back_to_seed (N : nat) (s0 : Mesh) (ms : list Mesh) :
  chain s0 ms ->
  (length ms < N)%nat ->
  let h := record_all N ms (MeshHistory.init s0) in
  let n := length ms in
  MeshHistory.historyRef h = s0 :: ms
  /\ (forall k, (k <= n)%nat ->
        MeshHistory.mesh (Nat.iter k MeshHistory.undo h)
        = (s0 :: ms) !! (n - k)%nat)
  /\ MeshHistory.mesh (Nat.iter n MeshHistory.undo h) = Some s0
  /\ MeshHistory.canUndo (Nat.iter n MeshHistory.undo h) = false
  /\ Nat.iter n MeshHistory.redo (Nat.iter n MeshHistory.undo h) = h.
Proof.
  intros Hch Hlt h n.
  assert (HN : (1 <= N)%nat) by lia.
  assert (Hs0 : in_sync (MeshHistory.init s0)).
  { split; [unfold MeshHistory.valid; simpl; lia | reflexivity]. }
  destruct (record_all_last N HN ms (MeshHistory.init s0) s0)
    as (Hst & Hlast & _); try reflexivity; try exact Hch.
  { simpl. lia. }
  fold h in Hst, Hlast.
  assert (Hhist : MeshHistory.historyRef h = s0 :: ms).
  { rewrite Hst. cbn [MeshHistory.init MeshHistory.historyRef length].
    replace (1 + length ms - N)%nat with 0%nat by lia. reflexivity. }
  assert (Hidx : MeshHistory.indexRef h = n).
  { unfold cursor_last in Hlast. rewrite Hhist in Hlast. simpl in Hlast.
    subst n. lia. }
  assert (Hs : in_sync h) by (apply record_all_in_sync; exact Hs0).
  assert (Hk : forall k, (k <= n)%nat ->
             Nat.iter k MeshHistory.undo h
             = {| MeshHistory.historyRef := s0 :: ms;
                  MeshHistory.indexRef := (n - k)%nat;
                  MeshHistory.mesh := (s0 :: ms) !! (n - k)%nat |}).
  { intros k Hkn. rewrite iter_undo by (auto; lia).
    rewrite Hhist, Hidx. reflexivity. }
  split; [exact Hhist|]. split; [|split; [|split]].
  - intros k Hkn. rewrite Hk by exact Hkn. reflexivity.
  - rewrite Hk by lia. cbn [MeshHistory.mesh]. rewrite Nat.sub_diag.
    reflexivity.
  - rewrite Hk by lia. unfold MeshHistory.canUndo.
    cbn [MeshHistory.indexRef]. rewrite Nat.sub_diag. reflexivity.
  - rewrite Hk by lia. rewrite Nat.sub_diag.
    rewrite iter_redo.
    + cbn [MeshHistory.historyRef MeshHistory.indexRef].
      rewrite (in_sync_eta h Hs), Hhist, Hidx. reflexivity.
    + split; [unfold MeshHistory.valid; simpl; lia | reflexivity].
    + simpl. subst n. lia.
Qed.

Lemma undo_back_to_seed_witness :
  let ms := [sample_mesh 1; sample_mesh 2; sample_mesh 3] in
  let h := record_all App.MAX_HISTORY ms (MeshHistory.init (sample_mesh 0)) in
  MeshHistory.mesh (Nat.iter 3 MeshHistory.undo h) = Some (sample_mesh 0)
  /\ Nat.iter 3 MeshHistory.redo (Nat.iter 3 MeshHistory.undo h) = h.
Proof.
  intros ms h.
  destruct (undo_back_to_seed App.MAX_HISTORY (sample_mesh 0) ms)
    as (_ & _ & Hseed & _ & Hredo).
  - repeat split.
  - unfold App.MAX_HISTORY. simpl. lia.
  - split; [exact Hseed | exact Hredo].
Defined.

(* ================================================================== *)
(** ** The playlist of the application *)
(* ================================================================== *)

Section PlaylistFacts.

Import Playback.

Lemma apply_playlist_op_ok (o : playlist_op) (s : state) :
  cursor_ok s -> cursor_ok (apply_playlist_op o s).
Proof.
  unfold cursor_ok. intros Hok.
  destruct o as [c|i|i|i| |]; cbn [apply_playlist_op].
  - left. unfold Playlist.handleVideoSelected. cbn.
    rewrite length_app. simpl. lia.
  - unfold Playlist.handleRemoveCue. cbv zeta.
    set (l' := List.filter _ _).
    destruct (length l' <=? currentCueIndex s)%nat eqn:E; cbn.
    + destruct l' as [|c rest]; [right; split; reflexivity|].
      left. simpl length. lia.
    + apply Nat.leb_gt in E. left. exact E.
  - unfold Playlist.handleToggleCueLoop. cbn. rewrite length_map.
    destruct Hok as [H|[H1 H2]]; [left; exact H|].
    right. rewrite H1. split; [reflexivity | exact H2].
  - unfold Playlist.handleSelectCue.
    destruct ((0 <=? i)%Z && (i <? Z.of_nat (length (videoCues s)))%Z)
      eqn:E; [|exact Hok].
    apply andb_prop in E as [E1 E2].
    apply Z.leb_le in E1. apply Z.ltb_lt in E2. left. cbn. lia.
  - unfold onNextCue.
    destruct (Z.of_nat (currentCueIndex s)
              <? Z.of_nat (length (videoCues s)) - 1)%Z eqn:E; [|exact Hok].
    apply Z.ltb_lt in E. left. cbn. lia.
  - unfold onPrevCue.
    destruct (0 <? currentCueIndex s)%nat eqn:E; [|exact Hok].
    apply Nat.ltb_lt in E. left. cbn. destruct Hok as [H|[_ H]]; lia.
Qed.

Lemma toggle_loop_twice (i : string) (c : VideoCue) :
  Playlist.toggle_loop i (Playlist.toggle_loop i c) = c.
Proof.
  unfold Playlist.toggle_loop.
  destruct (String.eqb (cue_id c) i) eqn:E; cbn [cue_id]; rewrite E.
  - destruct c; cbn. rewrite negb_involutive. reflexivity.
  - reflexivity.
Qed.

End PlaylistFacts.

(** X6.  Starting from any stored playlist with the cursor at 0, as the
    application starts, and after any sequence of adding, removing,
    loop toggling, selecting and stepping to the next or previous cue,
    the cue cursor points at a cue of the playlist, or is 0 when the
    playlist is empty; so a playlist that is not empty always has a
    current cue. *)
Theorem playlist_cursor_invariant (cues : list Playback.VideoCue)
    (ops : list playlist_op) :
  let s := fold_left (fun s o => apply_playlist_op o s) ops
             (Screen.initial cues 0) in
  cursor_ok s
  /\ (Playback.videoCues s <> [] ->
      exists cue,
        Playback.videoCues s !! Playback.currentCueIndex s = Some cue).
Proof.
  cbv zeta.
  assert (H0 : cursor_ok (Screen.initial cues 0)).
  { unfold cursor_ok. cbn. destruct cues; [right; auto | left; simpl; lia]. }
  revert H0. generalize (Screen.initial cues 0).
  induction ops as [|o ops IH]; intros s Hok; cbn [fold_left].
  - split; [exact Hok|]. intros Hne.
    destruct Hok as [H|[H _]]; [|contradiction].
    apply lookup_lt_is_Some_2 in H. destruct H as [cue H]. eauto.
  - apply IH. apply apply_playlist_op_ok. exact Hok.
Qed.

(** X7.  Toggling the loop flag of a cue id twice gives the playlist
    back.  One toggle keeps the number, order, ids and sources of the
    cues and the cursor, flips the loop flag of every cue with that id
    and leaves the other cues as they were. *)
Theorem toggle_loop_involution (cueId : string) (s : Playback.state) :
  Playlist.handleToggleCueLoop cueId (Playlist.handleToggleCueLoop cueId s)
  = s
  /\ let s' := Playlist.handleToggleCueLoop cueId s in
     Playback.currentCueIndex s' = Playback.currentCueIndex s
     /\ map Playback.cue_id (Playback.videoCues s')
        = map Playback.cue_id (Playback.videoCues s)
     /\ map Playback.uri (Playback.videoCues s')
        = map Playback.uri (Playback.videoCues s)
     /\ forall k c, Playback.videoCues s !! k = Some c ->
          exists c', Playback.videoCues s' !! k = Some c'
                     /\ Playback.loop c'
                        = (if String.eqb (Playback.cue_id c) cueId
                           then negb (Playback.loop c)
                           else Playback.loop c)
                     /\ (Playback.cue_id c <> cueId -> c' = c).
Proof.
  split.
  - unfold Playlist.handleToggleCueLoop, Playlist.set_cues. cbn.
    rewrite map_map.
    rewrite (map_ext _ (fun c => c)) by (intros c; apply toggle_loop_twice).
    rewrite map_id. destruct s; reflexivity.
  - cbv zeta. unfold Playlist.handleToggleCueLoop. cbn.
    split; [reflexivity|]. rewrite !map_map.
    split; [|split].
    + apply map_ext. intros c. unfold Playlist.toggle_loop.
      destruct (String.eqb (Playback.cue_id c) cueId); reflexivity.
    + apply map_ext. intros c. unfold Playlist.toggle_loop.
      destruct (String.eqb (Playback.cue_id c) cueId); reflexivity.
    + intros k c Hk. exists (Playlist.toggle_loop cueId c).
      rewrite lookup_map, Hk. split; [reflexivity|].
      unfold Playlist.toggle_loop.
      destruct (String.eqb (Playback.cue_id c) cueId) eqn:E.
      * split; [reflexivity|]. intros Hne.
        apply String.eqb_eq in E. contradiction.
      * split; reflexivity.
Qed.

(** X8.  Stepping to the next cue and back, or to the previous cue and
    forth, returns to the same state whenever the first step moved: a
    next cue exists, or the cursor is above 0 and inside the playlist.
    On the last cue [handleNextCue] changes nothing, and on the first
    cue [handlePrevCue] changes nothing. *)
Theorem next_prev_inverse (s : Playback.state) :
  ((Playback.currentCueIndex s + 1 < length (Playback.videoCues s))%nat ->
   Playback.onPrevCue (Playback.onNextCue s) = s)
  /\ ((0 < Playback.currentCueIndex s < length (Playback.videoCues s))%nat ->
      Playback.onNextCue (Playback.onPrevCue s) = s)
  /\ ((length (Playback.videoCues s) <= Playback.currentCueIndex s + 1)%nat ->
      Playback.onNextCue s = s)
  /\ (Playback.currentCueIndex s = 0%nat -> Playback.onPrevCue s = s).
Proof.
  destruct s as [p a c b cues idx].
  unfold Playback.onNextCue, Playback.onPrevCue, Playback.set_index.
  cbn [Playback.playing Playback.armed Playback.showControls
       Playback.blackout Playback.videoCues Playback.currentCueIndex].
  split; [|split; [|split]].
  - intros H.
    replace (Z.of_nat idx <? Z.of_nat (length cues) - 1) with true
      by (symmetry; apply Z.ltb_lt; lia).
    cbn [Playback.playing Playback.armed Playback.showControls
         Playback.blackout Playback.videoCues Playback.currentCueIndex].
    replace (0 <? idx + 1)%nat with true
      by (symmetry; apply Nat.ltb_lt; lia).
    replace (idx + 1 - 1)%nat with idx by lia. reflexivity.
  - intros H.
    replace (0 <? idx)%nat with true by (symmetry; apply Nat.ltb_lt; lia).
    cbn [Playback.playing Playback.armed Playback.showControls
         Playback.blackout Playback.videoCues Playback.currentCueIndex].
    replace (Z.of_nat (idx - 1) <? Z.of_nat (length cues) - 1)
      with true by (symmetry; apply Z.ltb_lt; lia).
    replace (idx - 1 + 1)%nat with idx by lia. reflexivity.
  - intros H.
    replace (Z.of_nat idx <? Z.of_nat (length cues) - 1) with false
      by (symmetry; apply Z.ltb_ge; lia).
    reflexivity.
  - intros ->. reflexivity.
Qed.

Lemma next_prev_inverse_witness :
  let cue n := Playback.mkCue n n "file:///a.mp4" false None None (Fin 0) in
  let s := Screen.initial [cue "a"; cue "b"; cue "c"] 1 in
  Playback.onPrevCue (Playback.onNextCue s) = s
  /\ Playback.onNextCue (Playback.onPrevCue s) = s
  /\ Playback.onNextCue (Playback.onNextCue s) = Playback.onNextCue s.
Proof.
  intros cue s.
  destruct (next_prev_inverse s) as (H1 & H2 & _).
  destruct (next_prev_inverse (Playback.onNextCue s)) as (_ & _ & H3 & _).
  split; [apply H1; simpl; lia|].
  split; [apply H2; simpl; lia|].
  apply H3. simpl. lia.
Defined.

(** X9.  After [handleRemoveCue] no cue of the playlist has the removed
    id, the cues that remain are those with other ids in their old
    order, and the cursor is the old cursor capped at the new last
    position.  Removing an id that no cue has changes nothing. *)
Theorem remove_cue_spec (cueId : string) (s : Playback.state) :
  cursor_ok s ->
  let s' := Playlist.handleRemoveCue cueId s in
  Forall (fun c => Playback.cue_id c <> cueId) (Playback.videoCues s')
  /\ Playback.videoCues s'
     = List.filter (fun c => negb (String.eqb (Playback.cue_id c) cueId))
         (Playback.videoCues s)
  /\ Playback.currentCueIndex s'
     = Nat.min (Playback.currentCueIndex s)
         (length (Playback.videoCues s') - 1)
  /\ (Forall (fun c => Playback.cue_id c <> cueId) (Playback.videoCues s) ->
      s' = s).
Proof.
  intros Hok s'.
  set (keep := fun c => negb (String.eqb (Playback.cue_id c) cueId)).
  assert (Hcues : Playback.videoCues s'
                  = List.filter keep (Playback.videoCues s)).
  { subst s'. unfold Playlist.handleRemoveCue. cbv zeta. fold keep.
    destruct (_ <=? _)%nat; reflexivity. }
  assert (Hidx : Playback.currentCueIndex s'
                 = Nat.min (Playback.currentCueIndex s)
                     (length (List.filter keep (Playback.videoCues s)) - 1)).
  { subst s'. unfold Playlist.handleRemoveCue. cbv zeta. fold keep.
    pose proof (filter_length_le keep (Playback.videoCues s)) as Hle.
    destruct (_ <=? _)%nat eqn:E; cbn.
    - apply Nat.leb_le in E. lia.
    - apply Nat.leb_gt in E. lia. }
  split; [|split; [exact Hcues|split; [rewrite Hcues; exact Hidx|]]].
  - rewrite Hcues. apply Forall_forall. intros c Hc.
    apply list_elem_of_In, filter_In in Hc as [_ Hc]. unfold keep in Hc.
    apply negb_true_iff, String.eqb_neq in Hc. exact Hc.
  - intros Hall.
    assert (Hsame : List.filter keep (Playback.videoCues s)
                    = Playback.videoCues s).
    { clear -Hall. induction Hall as [|c l Hc _ IH]; [reflexivity|].
      simpl. unfold keep at 1. apply String.eqb_neq in Hc. rewrite Hc.
      simpl. rewrite IH. reflexivity. }
    rewrite Hsame in Hcues, Hidx.
    assert (Hi : Playback.currentCueIndex s' = Playback.currentCueIndex s).
    { rewrite Hidx. destruct Hok as [H|[H1 H2]]; [lia|]. rewrite H2. lia. }
    assert (Hflags : Playback.playing s' = Playback.playing s
                     /\ Playback.armed s' = Playback.armed s
                     /\ Playback.showControls s' = Playback.showControls s
                     /\ Playback.blackout s' = Playback.blackout s).
    { subst s'. unfold Playlist.handleRemoveCue. cbv zeta.
      destruct (_ <=? _)%nat; repeat split. }
    destruct Hflags as (Hp & Ha & Hc & Hb).
    destruct s' as [p' a' c' b' cues' idx'], s as [p a c b cues idx].
    cbn in *. congruence.
Qed.

Lemma remove_cue_spec_witness :
  let cue n := Playback.mkCue n n "file:///a.mp4" false None None (Fin 0) in
  let s := Screen.initial [cue "a"; cue "b"; cue "c"] 2 in
  Playback.videoCues (Playlist.handleRemoveCue "c" s) = [cue "a"; cue "b"]
  /\ Playback.currentCueIndex (Playlist.handleRemoveCue "c" s) = 1%nat
  /\ Playlist.handleRemoveCue "z" s = s.
Proof.
  intros cue s.
  assert (Hok : cursor_ok s) by (left; simpl; lia).
  destruct (remove_cue_spec "c" s Hok) as (_ & Hc & Hi & _).
  destruct (remove_cue_spec "z" s Hok) as (_ & _ & _ & Hz).
  split; [exact Hc|]. split; [rewrite Hi; reflexivity|].
  apply Hz. repeat constructor; discriminate.
Defined.

(* ================================================================== *)
(** ** The playback screen under arbitrary events *)
(* ================================================================== *)

Section ScreenFacts.

Import Playback.

Lemma nav_key_cases (key : string) :
  includes NEXT_CUE_KEYS key = true \/ includes PREV_CUE_KEYS key = true ->
  String.eqb key "Escape" = false /\ includes TRIGGER_KEYS key = false.
Proof.
  unfold includes, NEXT_CUE_KEYS, PREV_CUE_KEYS. cbn [existsb].
  intros [H|H];
    repeat (apply orb_prop in H as [H|H];
            [apply String.eqb_eq in H; subst key; split; reflexivity|]);
    discriminate.
Qed.

(** Every handler keeps the flags consistent, the playlist as it is and
    the cursor inside it. *)
Lemma step_ok (e : Screen.event) (s : state) :
  screen_ok s ->
  screen_ok (Screen.step e s)
  /\ videoCues (Screen.step e s) = videoCues s
  /\ (cursor_ok s -> cursor_ok (Screen.step e s)).
Proof.
  intros Hs. pose proof Hs as (Ha & Hb & Hc).
  assert (Hsame : screen_ok s /\ videoCues s = videoCues s
                  /\ (cursor_ok s -> cursor_ok s)) by auto.
  assert (Hnext : screen_ok (onNextCue s)
                  /\ videoCues (onNextCue s) = videoCues s
                  /\ (cursor_ok s -> cursor_ok (onNextCue s))).
  { split; [|split; [|apply (apply_playlist_op_ok NextCue)]];
      unfold onNextCue; destruct (_ <? _); auto. }
  assert (Hprev : screen_ok (onPrevCue s)
                  /\ videoCues (onPrevCue s) = videoCues s
                  /\ (cursor_ok s -> cursor_ok (onPrevCue s))).
  { split; [|split; [|apply (apply_playlist_op_ok PrevCue)]];
      unfold onPrevCue; destruct (_ <? _)%nat; auto. }
  assert (Hflags : forall p a c b,
             a = negb p -> (p = true -> b = false) ->
             (p = true -> c = false) ->
             let s' := {| playing := p; armed := a; showControls := c;
                          blackout := b; videoCues := videoCues s;
                          currentCueIndex := currentCueIndex s |} in
             screen_ok s' /\ videoCues s' = videoCues s
             /\ (cursor_ok s -> cursor_ok s')).
  { intros p a c b H1 H2 H3 s'. split; [|split; [reflexivity | auto]].
    unfold screen_ok. cbn. auto. }
  destruct e as [key| | | | | | |]; cbn [Screen.step].
  - unfold handleKeyPress.
    destruct (String.eqb key "Escape").
    { unfold set_blackout, set_flags.
      destruct (playing s) eqn:Ep; cbn [playing armed showControls blackout
                                          videoCues currentCueIndex];
        apply Hflags; auto; try discriminate. }
    destruct (negb (playing s) && includes NEXT_CUE_KEYS key);
      [exact Hnext|].
    destruct (negb (playing s) && includes PREV_CUE_KEYS key);
      [exact Hprev|].
    destruct (negb (armed s) || blackout s) eqn:Eab; [exact Hsame|].
    destruct (includes TRIGGER_KEYS key); [|exact Hsame].
    apply orb_false_iff in Eab as [_ Eb].
    unfold set_flags. apply Hflags; auto.
  - unfold handlePlaybackFinished.
    assert (Hs' : let s' := set_flags s false true (showControls s) in
                  screen_ok s' /\ videoCues s' = videoCues s
                  /\ (cursor_ok s -> cursor_ok s')).
    { unfold set_flags. apply Hflags; auto; discriminate. }
    cbv zeta in Hs'.
    destruct (negb (currentCueLoop s) && _); [|exact Hs'].
    unfold onNextCue.
    cbn [currentCueIndex videoCues set_flags].
    destruct (_ <? _) eqn:E; [|exact Hs'].
    apply Z.ltb_lt in E. split; [|split; [reflexivity|]].
    + unfold screen_ok. cbn. repeat split; auto; discriminate.
    + intros _. left. cbn. lia.
  - unfold handleManualTrigger.
    destruct (negb (armed s) || blackout s) eqn:Eab; [exact Hsame|].
    apply orb_false_iff in Eab as [_ Eb].
    unfold set_flags. apply Hflags; auto.
  - unfold Screen.handleScreenTap.
    destruct (playing s) eqn:Ep; cbn [negb]; [exact Hsame|].
    unfold set_flags. apply Hflags; auto; discriminate.
  - unfold handleBlackout, set_blackout, set_flags.
    destruct (playing s) eqn:Ep; cbn [playing armed showControls blackout
                                        videoCues currentCueIndex];
      apply Hflags; auto; try discriminate.
  - unfold handleUnblackout, set_blackout. apply Hflags; auto.
  - exact Hnext.
  - exact Hprev.
Qed.

End ScreenFacts.

(** X10.  From the moment the playback screen is shown and whatever
    keys, taps, button presses and completion signals follow: exactly
    one of armed and playing holds; nothing plays during blackout; the
    controls are hidden while playing; the playlist is never changed by
    the screen; and a cue cursor that pointed into the playlist still
    does. *)
Theorem screen_invariant (cues : list Playback.VideoCue) (index : nat)
    (events : list Screen.event) :
  let s := fold_left (fun s e => Screen.step e s) events
             (Screen.initial cues index) in
  Playback.armed s = negb (Playback.playing s)
  /\ (Playback.playing s = true -> Playback.blackout s = false)
  /\ (Playback.playing s = true -> Playback.showControls s = false)
  /\ Playback.videoCues s = cues
  /\ (cursor_ok (Screen.initial cues index) -> cursor_ok s).
Proof.
  cbv zeta. set (P := cursor_ok (Screen.initial cues index)).
  assert (Hgen : forall s,
             screen_ok s /\ Playback.videoCues s = cues /\ (P -> cursor_ok s) ->
             let s' := fold_left (fun s e => Screen.step e s) events s in
             Playback.armed s' = negb (Playback.playing s')
             /\ (Playback.playing s' = true -> Playback.blackout s' = false)
             /\ (Playback.playing s' = true ->
                 Playback.showControls s' = false)
             /\ Playback.videoCues s' = cues
             /\ (P -> cursor_ok s')).
  { induction events as [|e events IH]; intros s (Hs & Hc & Hk);
      cbn [fold_left].
    - destruct Hs as (H1 & H2 & H3). repeat split; auto.
    - destruct (step_ok e s Hs) as (Hs' & Hc' & Hk').
      apply IH. split; [exact Hs'|]. split; [congruence|]. auto. }
  apply Hgen. split; [|split; [reflexivity | auto]].
  unfold screen_ok. cbn. repeat split; auto; discriminate.
Qed.

(** X11.  During blackout a trigger, by key or by button, changes
    nothing.  The blackout button and the Escape key stop a playing
    video and re-arm the screen with the blackout on; leaving the
    blackout after that gives the Armed state, from which the next
    trigger plays. *)
Theorem blackout_suppresses_trigger (s : Playback.state) :
  (forall t, Playback.blackout s = true -> Playback.is_trigger t ->
     Playback.fire t s = s)
  /\ (Playback.Playing s ->
      Playback.handleKeyPress "Escape" s = Playback.handleBlackout s
      /\ Playback.playing (Playback.handleBlackout s) = false
      /\ Playback.armed (Playback.handleBlackout s) = true
      /\ Playback.blackout (Playback.handleBlackout s) = true
      /\ Playback.Armed
           (Playback.handleUnblackout (Playback.handleBlackout s))
      /\ Playback.currentCueIndex (Playback.handleBlackout s)
         = Playback.currentCueIndex s).
Proof.
  split.
  - intros t Hb Ht. rewrite (fire_manual t s Ht).
    unfold Playback.handleManualTrigger. rewrite Hb, orb_true_r.
    reflexivity.
  - intros (Hp & Ha & Hb).
    unfold Playback.handleKeyPress, Playback.handleBlackout,
      Playback.handleUnblackout, Playback.Armed.
    cbn [String.eqb Ascii.eqb Bool.eqb]. rewrite Hp, Hb. cbn.
    repeat split; reflexivity.
Qed.

Lemma blackout_suppresses_trigger_witness :
  let playing0 := Playback.mkState true false false false [] 0 in
  Playback.fire Playback.ManualButton (Playback.handleBlackout playing0)
  = Playback.handleBlackout playing0
  /\ Playback.handleKeyPress "Escape" playing0
     = Playback.handleBlackout playing0.
Proof.
  intros playing0.
  destruct (blackout_suppresses_trigger (Playback.handleBlackout playing0))
    as (H1 & _).
  destruct (blackout_suppresses_trigger playing0) as (_ & H2).
  split.
  - apply H1; [reflexivity | exact I].
  - apply H2. repeat split.
Defined.

(** X12.  The hardware media buttons, through the key each one is
    turned into: play and pause act as the trigger button in every
    state; next track and previous track step the cue cursor as
    [handleNextCue] and [handlePrevCue] do while nothing plays, and
    change nothing while a video plays.  The same holds of every
    navigation key. *)
Theorem media_buttons (s : Playback.state) :
  Playback.handleKeyPress (Screen.media_key Screen.MediaPlay) s
  = Playback.handleManualTrigger s
  /\ Playback.handleKeyPress (Screen.media_key Screen.MediaPause) s
     = Playback.handleManualTrigger s
  /\ (forall key, Playback.includes Playback.NEXT_CUE_KEYS key = true ->
        Playback.handleKeyPress key s
        = if Playback.playing s then s else Playback.onNextCue s)
  /\ (forall key, Playback.includes Playback.PREV_CUE_KEYS key = true ->
        Playback.handleKeyPress key s
        = if Playback.playing s then s else Playback.onPrevCue s)
  /\ Playback.includes Playback.NEXT_CUE_KEYS
       (Screen.media_key Screen.MediaNextTrack) = true
  /\ Playback.includes Playback.PREV_CUE_KEYS
       (Screen.media_key Screen.MediaPreviousTrack) = true.
Proof.
  split; [apply hardware_manual_same; reflexivity|].
  split; [apply hardware_manual_same; reflexivity|].
  split; [|split; [|split; reflexivity]].
  - intros key Hk.
    destruct (nav_key_cases key (or_introl Hk)) as [He Ht].
    unfold Playback.handleKeyPress. rewrite He, Hk, Ht.
    destruct (Playback.playing s); cbn [negb andb]; [|reflexivity].
    destruct (_ || _); reflexivity.
  - intros key Hk.
    destruct (nav_key_cases key (or_intror Hk)) as [He Ht].
    assert (Hn : Playback.includes Playback.NEXT_CUE_KEYS key = false).
    { revert Hk. unfold Playback.includes, Playback.PREV_CUE_KEYS.
      cbn [existsb]. intros H.
      repeat (apply orb_prop in H as [H|H];
              [apply String.eqb_eq in H; subst key; reflexivity|]).
      discriminate. }
    unfold Playback.handleKeyPress. rewrite He, Hn, Hk, Ht.
    destruct (Playback.playing s); cbn [negb andb]; [|reflexivity].
    destruct (_ || _); reflexivity.
Qed.

Lemma media_buttons_witness :
  let cue n := Playback.mkCue n n "file:///a.mp4" false None None (Fin 0) in
  let s := Screen.initial [cue "a"; cue "b"] 0 in
  Playback.currentCueIndex
    (Playback.handleKeyPress (Screen.media_key Screen.MediaNextTrack) s)
  = 1%nat.
Proof.
  intros cue s.
  destruct (media_buttons s) as (_ & _ & Hn & _).
  rewrite (Hn (Screen.media_key Screen.MediaNextTrack) eq_refl).
  reflexivity.
Defined.

(* ================================================================== *)
(** ** The editor under a sequence of drags *)
(* ================================================================== *)

Section EditorFacts.

Import Editor.

Lemma updatePoint_map (sz : Size) (mesh : Mesh) (pid : string)
    (tx ty : num) :
  updatePoint (Some sz) mesh pid tx ty = Some (map (moved sz pid tx ty) mesh).
Proof. reflexivity. Qed.

Lemma moved_id sz pid tx ty p : id (moved sz pid tx ty p) = id p.
Proof. unfold moved. destruct (String.eqb _ _); reflexivity. Qed.

Lemma moved_ids sz pid tx ty (mesh : Mesh) :
  map id (map (moved sz pid tx ty) mesh) = map id mesh.
Proof.
  rewrite map_map. apply map_ext. intros p. apply moved_id.
Qed.

Lemma moved_moved sz pid tx ty tx' ty' p :
  moved sz pid tx' ty' (moved sz pid tx ty p) = moved sz pid tx' ty' p.
Proof.
  unfold moved. destruct (String.eqb (id p) pid) eqn:E.
  - cbn [id]. rewrite E. reflexivity.
  - rewrite E. reflexivity.
Qed.

(** The derived grid shape depends on the ids only. *)
Lemma derive_dim_ids (k : nat) (m m' : Mesh) :
  map id m = map id m' -> derive_dim k m = derive_dim k m'.
Proof.
  intros E. unfold derive_dim.
  assert (H : forall l : Mesh,
             map (fun p => Number (id_part k p)) l
             = map (fun i => Number (split "-" i !! k)) (map id l)).
  { intros l. rewrite map_map. reflexivity. }
  rewrite (H m), (H m'), E. reflexivity.
Qed.

Lemma getPoint_ids (m : Mesh) : forall (m' : Mesh) (r c : nat),
  map id m = map id m' ->
  option_map id (getPoint m r c) = option_map id (getPoint m' r c).
Proof.
  unfold getPoint.
  induction m as [|p m IH]; intros [|p' m'] r c E; try discriminate.
  - reflexivity.
  - cbn [map] in E. injection E as E1 E2. cbn [find]. rewrite E1.
    destruct (String.eqb (id p') _); [cbn; congruence|].
    apply IH, E2.
Qed.

(** A touch position that is a number is clamped into the viewport. *)
Lemma clamp_num (w : Q) (t : num) :
  (0 < w)%Q -> not_nan t ->
  exists c : Q,
    max2 (Fin 0) (min2 (Fin w) t) = Fin c /\ (0 <= c)%Q /\ (c <= w)%Q.
Proof.
  intros Hw Ht. destruct t as [| | |q].
  - contradiction Ht. reflexivity.
  - exists w. cbn [min2 ltb max2]. unfold max2, ltb.
    destruct (Qlt_le_dec 0 w); [|lra].
    split; [reflexivity|]. split; lra.
  - exists 0%Q. cbn. split; [reflexivity|]. split; lra.
  - destruct (clamp_spec w q Hw) as (c & E & H0 & H1 & _).
    exists c. auto.
Qed.

Lemma moved_unit (a b : Q) (pid : string) (tx ty : num) (p : MeshPoint) :
  (0 < a)%Q -> (0 < b)%Q -> not_nan tx -> not_nan ty ->
  unit_point p ->
  unit_point (moved {| width := Fin a; height := Fin b |} pid tx ty p).
Proof.
  intros Ha Hb Hx Hy Hp. unfold moved.
  destruct (String.eqb (id p) pid); [|exact Hp].
  cbn [width height].
  destruct (clamp_num a tx Ha Hx) as (cx & Ex & Hx0 & Hx1).
  destruct (clamp_num b ty Hb Hy) as (cy & Ey & Hy0 & Hy1).
  rewrite Ex, Ey. rewrite !div_Fin by (intros E; lra).
  destruct (unit_quotient cx a Ha Hx0 Hx1) as [? ?].
  destruct (unit_quotient cy b Hb Hy0 Hy1) as [? ?].
  exists (cx / a)%Q, (cy / b)%Q. cbn [x y]. auto 10.
Qed.

(** The hit test answers with the id of a point of the mesh. *)
Lemma nearest_fold_In (sz : Size) (tx ty : num) (mesh : Mesh) :
  forall st i,
    fst (fold_left (nearest_step sz tx ty) mesh st) = Some i ->
    fst st = Some i \/ In i (map id mesh).
Proof.
  induction mesh as [|p mesh IH]; intros st i H; cbn [fold_left] in H.
  - left. exact H.
  - apply IH in H as [H|H]; [|right; right; exact H].
    destruct st as [n m]. unfold nearest_step in H.
    destruct (root_ltb _ m); cbn [fst] in H.
    + right. left. congruence.
    + left. exact H.
Qed.

Lemma findNearestPoint_In (size : option Size) (mesh : Mesh) (tx ty : num)
    (i : string) :
  findNearestPoint size mesh tx ty = Some i -> In i (map id mesh).
Proof.
  unfold findNearestPoint. destruct size as [sz|]; [|discriminate].
  intros H. apply nearest_fold_In in H as [H|H]; [discriminate | exact H].
Qed.

End EditorFacts.

(** X13.  Dragging keeps the grid: the mesh handed on by [updatePoint]
    has the ids of the mesh it was given, in the same order, hence the
    same derived numbers of rows and columns and a point under every
    row-column pair that had one.  A later position of the same drag
    overwrites an earlier one, so that a drag through several positions
    ends in the mesh that the last position alone gives; and a drag of
    an id that no point has gives the mesh itself. *)
Theorem updatePoint_keeps_grid (sz : Size) (mesh : Mesh) (pid : string)
    (x1 y1 x2 y2 : num) :
  exists m1 m2 : Mesh,
    Editor.updatePoint (Some sz) mesh pid x1 y1 = Some m1
    /\ Editor.updatePoint (Some sz) m1 pid x2 y2 = Some m2
    /\ Editor.updatePoint (Some sz) mesh pid x2 y2 = Some m2
    /\ map id m1 = map id mesh
    /\ derive_rows m1 = derive_rows mesh
    /\ derive_cols m1 = derive_cols mesh
    /\ (forall r c, option_map id (getPoint m1 r c)
                    = option_map id (getPoint mesh r c))
    /\ (~ In pid (map id mesh) -> m1 = mesh).
Proof.
  exists (map (moved sz pid x1 y1) mesh), (map (moved sz pid x2 y2) mesh).
  assert (Hids := moved_ids sz pid x1 y1 mesh).
  split; [reflexivity|]. split.
  { rewrite updatePoint_map. f_equal. rewrite map_map.
    apply map_ext. intros p. apply moved_moved. }
  split; [reflexivity|]. split; [exact Hids|].
  split; [apply derive_dim_ids, Hids|].
  split; [apply derive_dim_ids, Hids|].
  split; [intros r c; apply getPoint_ids, Hids|].
  intros Hno. rewrite <- (map_id mesh) at 2.
  apply map_ext_in. intros p Hp. unfold moved.
  destruct (String.eqb (id p) pid) eqn:E; [|reflexivity].
  apply String.eqb_eq in E. contradiction Hno.
  rewrite <- E. apply in_map, Hp.
Qed.

(* ================================================================== *)
(** ** The calibration screen under arbitrary events *)
(* ================================================================== *)

Section CalibrationFacts.

Import MeshHistory.

Lemma default_unit (rows cols : Z) :
  2 <= rows -> 2 <= cols -> Forall unit_point (buildDefaultMesh rows cols).
Proof.
  intros Hr Hc. apply List.Forall_forall. intros p Hp.
  rewrite buildDefaultMesh_grid in Hp.
  apply grid_In in Hp as (r & c & Hr' & Hc' & ->).
  unfold grid_point, unit_point. cbn [x y]. unfold of_nat, of_Z.
  rewrite !div_Fin by (apply inject_Z_nonzero; lia).
  destruct (unit_interval (Z.of_nat c) (cols - 1)) as [? ?]; [lia|lia|].
  destruct (unit_interval (Z.of_nat r) (rows - 1)) as [? ?]; [lia|lia|].
  eexists _, _. split; [reflexivity|]. split; [reflexivity|]. auto.
Qed.

Lemma default_default_shape :
  default_shape (buildDefaultMesh DEFAULT_ROWS DEFAULT_COLS).
Proof.
  split; [reflexivity|]. apply default_unit; unfold DEFAULT_ROWS,
    DEFAULT_COLS; lia.
Qed.

(** The grid shape derived from a mesh of the default shape. *)
Lemma default_shape_dims (m : Mesh) :
  default_shape m ->
  num_eq (derive_rows m) (of_Z DEFAULT_ROWS)
  /\ num_eq (derive_cols m) (of_Z DEFAULT_COLS).
Proof.
  intros [Hids _]. unfold derive_rows, derive_cols.
  rewrite !(derive_dim_ids _ m _ Hids).
  unfold DEFAULT_ROWS, DEFAULT_COLS. split.
  - apply (derive_dim_grid 0 4 4 (fun r _ => r) 3); try lia.
    + intros r c. apply id_part_grid_point.
    + exists 3%nat, 0%nat. lia.
  - apply (derive_dim_grid 1 4 4 (fun _ c => c) 3); try lia.
    + intros r c. apply id_part_grid_point.
    + exists 0%nat, 3%nat. lia.
Qed.

Lemma setMesh_Forall (P : Mesh -> Prop) (N : nat) (m : Mesh) (h : history) :
  Forall P (historyRef h) -> P m -> Forall P (historyRef (setMesh N m h)).
Proof.
  intros Hh Hm. unfold setMesh.
  destruct (negb (hasChanged m (historyRef h !! indexRef h)));
    [exact Hh|].
  assert (Hp : Forall P (take (indexRef h + 1) (historyRef h) ++ [m])%list).
  { apply Forall_app. split; [apply Forall_take, Hh|].
    constructor; [exact Hm | constructor]. }
  cbv zeta. destruct (_ <? _)%nat; cbn [historyRef];
    [apply Forall_drop, Hp | exact Hp].
Qed.

Lemma moved_default_shape (sz : Size) (pid : string) (tx ty : num)
    (m : Mesh) :
  positive_size sz -> not_nan tx -> not_nan ty ->
  default_shape m -> default_shape (map (moved sz pid tx ty) m).
Proof.
  intros (a & b & -> & Ha & Hb) Hx Hy [Hids Hu]. split.
  - rewrite moved_ids. exact Hids.
  - apply Forall_map. eapply Forall_impl; [exact Hu|].
    intros p Hp. apply moved_unit; assumption.
Qed.

Lemma calibration_step_ok (ev : Calibration.event)
    (st : Touch.editor * history) :
  calibration_ok st -> sane_event ev ->
  exists st', Calibration.step ev st = Some st' /\ calibration_ok st'.
Proof.
  destruct st as [e h]. unfold calibration_ok. cbn [fst snd].
  intros (Hs & Hall & Hlen & Hsz & Hact) Hev.
  pose proof Hs as [Hv Hm].
  destruct (historyRef h !! indexRef h) as [m|] eqn:Em;
    [|apply lookup_ge_None in Em; unfold valid in Hv; lia].
  assert (Hshape : default_shape m).
  { eapply Forall_lookup_1; [exact Hall | exact Em]. }
  unfold Calibration.step. rewrite Hm. eexists. split; [reflexivity|].
  assert (Hset : forall m', default_shape m' ->
            in_sync (App.setMesh m' h)
            /\ Forall default_shape (historyRef (App.setMesh m' h))
            /\ (length (historyRef (App.setMesh m' h))
                <= App.MAX_HISTORY)%nat).
  { intros m' Hm'. unfold App.setMesh.
    split; [apply setMesh_in_sync, Hs|].
    split; [apply setMesh_Forall; assumption|].
    exact (setMesh_bounded App.MAX_HISTORY m' h Hv Hlen). }
  assert (Hsame : in_sync h
                  /\ Forall default_shape (historyRef h)
                  /\ (length (historyRef h) <= App.MAX_HISTORY)%nat
                  /\ (forall sz, Touch.size e = Some sz -> positive_size sz)
                  /\ (forall pid, Touch.activePointId e = Some pid ->
                        In pid (map id (buildDefaultMesh DEFAULT_ROWS
                                          DEFAULT_COLS)))) by auto 10.
  destruct ev as [w h'|lx ly|lx ly| | | | |]; cbn [fst snd].
  - repeat (split; [assumption|]). split; [|exact Hact].
    cbn [Touch.handleLayout Touch.size]. intros sz [= <-].
    destruct Hev as (a & b & -> & -> & Ha & Hb). exists a, b. auto.
  - repeat (split; [assumption|]). unfold Touch.handleTouchStart.
    destruct (negb true || negb (Touch.known (Touch.size e)));
      [split; assumption|].
    cbv zeta.
    destruct (Touch.truthy_id _); [|split; assumption].
    cbn [Touch.size Touch.activePointId]. split; [assumption|].
    intros pid Hp. apply findNearestPoint_In in Hp.
    destruct Hshape as [<- _]. exact Hp.
  - unfold Touch.handleTouchMove.
    destruct (negb true || negb (Touch.truthy_id (Touch.activePointId e))
              || negb (Touch.known (Touch.size e)));
      [exact Hsame|].
    destruct (Touch.activePointId e) as [pid|] eqn:Ea;
      [|cbn [fst snd]; rewrite Ea; exact Hsame].
    destruct (Touch.size e) as [sz|] eqn:Es; cbn [Editor.updatePoint];
      [|cbn [fst snd]; rewrite Ea, Es; exact Hsame].
    destruct Hev as [Hx Hy].
    destruct (Hset (map (moved sz pid lx ly) m)) as (H1 & H2 & H3).
    { apply moved_default_shape; auto. }
    split; [exact H1|]. split; [exact H2|]. split; [exact H3|].
    cbn [fst]. rewrite Es, Ea. split; assumption.
  - cbn [Touch.handleTouchEnd Touch.size Touch.activePointId].
    repeat (split; [assumption|]). discriminate.
  - unfold App.handleUndo.
    split; [apply undo_in_sync, Hs|].
    unfold undo. destruct (0 <? indexRef h)%nat; cbn [historyRef]; auto.
  - unfold App.handleRedo.
    split; [apply redo_in_sync, Hs|].
    unfold redo. destruct (_ <? _); cbn [historyRef]; auto.
  - destruct (Hset m Hshape) as (H1 & H2 & H3). auto 10.
  - unfold App.handleResetMesh, resetHistory. cbn [historyRef].
    split; [split; [unfold valid; cbn; lia | reflexivity]|].
    split; [constructor; [apply default_default_shape | constructor]|].
    split; [cbn; unfold App.MAX_HISTORY; lia|]. auto.
Qed.

Lemma calibration_run_ok (events : list Calibration.event) :
  forall st, calibration_ok st -> Forall sane_event events ->
    exists st', Calibration.run events st = Some st' /\ calibration_ok st'.
Proof.
  induction events as [|ev events IH]; intros st Hst Hev;
    cbn [Calibration.run].
  - exists st. auto.
  - apply Forall_cons in Hev as [H1 H2].
    destruct (calibration_step_ok ev st Hst H1) as (st' & -> & Hst').
    apply IH; assumption.
Qed.

End CalibrationFacts.

(** X14.  On the calibration screen of an application that starts from
    the default mesh, whatever layouts, touches and presses of the undo,
    redo, save and reset buttons follow, as long as the viewport has a
    positive size and the touch positions are numbers: the screen can
    always be drawn; the mesh shown is the snapshot at the cursor of the
    history; it has the 16 ids of the default grid in their order, so
    that 4 rows and 4 columns are derived from it; all its points lie in
    the unit square; the history holds between 1 and 30 snapshots; and a
    point being dragged is a point of the mesh. *)
Theorem calibration_session (events : list Calibration.event) :
  Forall sane_event events ->
  exists e h m,
    Calibration.run events Calibration.initial = Some (e, h)
    /\ MeshHistory.mesh h = Some m
    /\ MeshHistory.historyRef h !! MeshHistory.indexRef h = Some m
    /\ map id m = map id (buildDefaultMesh 4 4)
    /\ length m = 16%nat
    /\ Forall unit_point m
    /\ num_eq (derive_rows m) (of_Z 4)
    /\ num_eq (derive_cols m) (of_Z 4)
    /\ (1 <= MeshHistory.historyLength h <= 30)%nat
    /\ (forall pid, Touch.activePointId e = Some pid ->
          exists p, In p m /\ id p = pid).
Proof.
  intros Hev.
  destruct (calibration_run_ok events Calibration.initial) as
    ([e h] & Hrun & Hs & Hall & Hlen & Hsz & Hact); [|exact Hev|].
  { unfold calibration_ok, Calibration.initial. cbn [fst snd].
    split; [split; [unfold MeshHistory.valid; cbn; lia | reflexivity]|].
    split; [constructor; [apply default_default_shape | constructor]|].
    split; [cbn; unfold App.MAX_HISTORY; lia|].
    split; [discriminate | discriminate]. }
  cbn [fst snd] in *. pose proof Hs as [Hv Hm].
  destruct (MeshHistory.historyRef h !! MeshHistory.indexRef h)
    as [m|] eqn:Em;
    [|apply lookup_ge_None in Em; unfold MeshHistory.valid in Hv; lia].
  assert (Hshape : default_shape m).
  { eapply Forall_lookup_1; [exact Hall | exact Em]. }
  destruct (default_shape_dims m Hshape) as [Hr Hc].
  destruct Hshape as [Hids Hu].
  exists e, h, m. split; [exact Hrun|]. split; [exact Hm|].
  split; [exact Em|]. split; [exact Hids|].
  split.
  { rewrite <- (length_map id m), Hids. reflexivity. }
  split; [exact Hu|]. split; [exact Hr|]. split; [exact Hc|].
  split.
  { unfold MeshHistory.historyLength, MeshHistory.valid in *.
    unfold App.MAX_HISTORY in Hlen. lia. }
  intros pid Hp. apply Hact in Hp.
  rewrite <- Hids in Hp. apply in_map_iff in Hp as (p & Hp1 & Hp2).
  exists p. auto.
Qed.

Lemma calibration_session_witness :
  exists e h m,
    Calibration.run
      [Calibration.Layout (Fin 800) (Fin 600);
       Calibration.TouchStart (Fin 270) (Fin 195);
       Calibration.TouchMove (Fin 320) (Fin 180);
       Calibration.TouchMove PInf (Fin 180);
       Calibration.TouchEnd;
       Calibration.UndoButton]
      Calibration.initial = Some (e, h)
    /\ MeshHistory.mesh h = Some m
    /\ Forall unit_point m
    /\ length m = 16%nat.
Proof.
  destruct (calibration_session
              [Calibration.Layout (Fin 800) (Fin 600);
               Calibration.TouchStart (Fin 270) (Fin 195);
               Calibration.TouchMove (Fin 320) (Fin 180);
               Calibration.TouchMove PInf (Fin 180);
               Calibration.TouchEnd;
               Calibration.UndoButton])
    as (e & h & m & H1 & H2 & _ & _ & H5 & H6 & _).
  - repeat constructor; try discriminate.
    exists 800%Q, 600%Q. repeat split.
  - exists e, h, m. auto.
Defined.

(* ================================================================== *)
(** ** The lines of the editor grid *)
(* ================================================================== *)

Section LinesFacts.

Import Lines.

(** [loop_count] counts the turns of the loop: the counter stays below
    the bound up to the count and is not below it at the count. *)
Lemma loop_count_spec (n : num) :
  match loop_count n with
  | Some k =>
      (forall i, (i < k)%nat -> ltb (of_nat i) n = true)
      /\ ltb (of_nat k) n = false
  | None => forall i, ltb (of_nat i) n = true
  end.
Proof.
  destruct n as [| | |q]; cbn [loop_count].
  - split; [intros i Hi; lia | reflexivity].
  - intros i. reflexivity.
  - split; [intros i Hi; lia | reflexivity].
  - pose proof (Qceiling_lt q) as Hlt. pose proof (Qle_ceiling q) as Hle.
    split.
    + intros i Hi. unfold of_nat, of_Z. apply ltb_Fin.
      assert (H : (Z.of_nat i <= Qceiling q - 1)%Z) by lia.
      rewrite Zle_Qle in H. lra.
    + unfold of_nat, of_Z. apply ltb_Fin_false.
      assert (H : (Qceiling q <= Z.of_nat (Z.to_nat (Qceiling q)))%Z) by lia.
      rewrite Zle_Qle in H. lra.
Qed.

Lemma loop_count_int (n : num) (R : Z) :
  num_eq n (of_Z R) -> loop_count n = Some (Z.to_nat R).
Proof.
  destruct n as [| | |q]; cbn [num_eq of_Z]; try contradiction.
  intros E. cbn [loop_count]. rewrite (Qceiling_comp _ _ E), Qceiling_Z.
  reflexivity.
Qed.

Lemma below_last (n : num) (R : Z) (c : nat) :
  num_eq n (of_Z R) ->
  ltb (of_nat c) (sub n (of_Z 1)) = (Z.of_nat c + 1 <? R).
Proof.
  destruct n as [| | |q]; cbn [num_eq of_Z]; try contradiction.
  intros E. unfold sub, of_nat, of_Z. cbn [neg add].
  change (inject_Z 1) with 1%Q.
  assert (H1 : (inject_Z (Z.of_nat c + 1) == inject_Z (Z.of_nat c) + 1)%Q)
    by (rewrite inject_Z_plus; reflexivity).
  destruct (Z.ltb_spec (Z.of_nat c + 1) R) as [H|H].
  - apply ltb_Fin. rewrite Zlt_Qlt in H. lra.
  - apply ltb_Fin_false. rewrite Zle_Qle in H. lra.
Qed.

(** The point that [getPoint] finds in a generated grid. *)
Lemma getPoint_grid (rows cols : Z) (r c : nat) :
  Z.of_nat r < rows -> Z.of_nat c < cols ->
  getPoint (buildDefaultMesh rows cols) r c
  = Some (grid_point rows cols r c).
Proof.
  intros Hr Hc. unfold getPoint.
  destruct (find _ _) as [p|] eqn:E.
  - apply find_some in E as [Hin Hid]. apply String.eqb_eq in Hid.
    rewrite buildDefaultMesh_grid in Hin.
    apply grid_In in Hin as (r' & c' & _ & _ & ->).
    cbn [id grid_point] in Hid. apply id_inj in Hid as [-> ->].
    reflexivity.
  - exfalso.
    assert (Hin : In (grid_point rows cols r c) (buildDefaultMesh rows cols)).
    { rewrite buildDefaultMesh_grid. apply grid_In. exists r, c.
      split; [lia|]. split; [lia | reflexivity]. }
    apply (find_none _ _ E) in Hin. cbn [id grid_point] in Hin.
    rewrite String.eqb_refl in Hin. discriminate.
Qed.

(** The numbers of rows and columns derived from a generated grid. *)
Lemma grid_dims (rows cols : Z) :
  1 <= rows -> 1 <= cols ->
  num_eq (derive_rows (buildDefaultMesh rows cols)) (of_Z rows)
  /\ num_eq (derive_cols (buildDefaultMesh rows cols)) (of_Z cols).
Proof.
  intros Hr Hc. unfold derive_rows, derive_cols. split.
  - replace rows with ((rows - 1) + 1) at 2 by lia.
    apply (derive_dim_grid 0 rows cols (fun r _ => r)); try lia.
    + intros r c. apply id_part_grid_point.
    + exists (Z.to_nat (rows - 1)), 0%nat. lia.
  - replace cols with ((cols - 1) + 1) at 2 by lia.
    apply (derive_dim_grid 1 rows cols (fun _ c => c)); try lia.
    + intros r c. apply id_part_grid_point.
    + exists 0%nat, (Z.to_nat (cols - 1)). lia.
Qed.

(** In a mesh with the ids of a grid every row-column pair of the grid
    has its point. *)
Lemma getPoint_same_ids (rows cols : Z) (mesh : Mesh) (r c : nat) :
  map id mesh = map id (buildDefaultMesh rows cols) ->
  Z.of_nat r < rows -> Z.of_nat c < cols ->
  exists p, getPoint mesh r c = Some p
            /\ id p = toString r ++ "-" ++ toString c.
Proof.
  intros Hids Hr Hc.
  pose proof (getPoint_ids mesh _ r c Hids) as H.
  rewrite (getPoint_grid rows cols r c Hr Hc) in H.
  destruct (getPoint mesh r c) as [p|]; [|discriminate].
  exists p. split; [reflexivity|].
  cbn [option_map] in H. injection H as H. exact H.
Qed.

End LinesFacts.

(** X15.  For a mesh with the ids of a generated grid of [rows] by
    [cols] points, both at least 1, and a known viewport, [renderLines]
    ends and returns [rows * (cols - 1) + (rows - 1) * cols] lines: every
    row-column pair has its point, and every line joins the pixel
    positions of a point and of its right or lower neighbour. *)
Theorem renderLines_grid (rows cols : Z) (sz : Size) (mesh : Mesh) :
  1 <= rows -> 1 <= cols ->
  map id mesh = map id (buildDefaultMesh rows cols) ->
  exists lines,
    Lines.renderLines (Some sz) mesh = Lines.Nodes lines
    /\ Z.of_nat (length lines) = rows * (cols - 1) + (rows - 1) * cols
    /\ (forall r c, Z.of_nat r < rows -> Z.of_nat c < cols ->
          exists p, getPoint mesh r c = Some p
                    /\ id p = toString r ++ "-" ++ toString c)
    /\ (forall ln, In ln lines ->
          exists r c p q,
            getPoint mesh r c = Some p
            /\ ((getPoint mesh r (c + 1) = Some q
                 /\ ln = Lines.segment "h-" sz r c p q)
                \/ (getPoint mesh (r + 1) c = Some q
                    /\ ln = Lines.segment "v-" sz r c p q))).
Proof.
  intros Hr Hc Hids.
  destruct (grid_dims rows cols Hr Hc) as [Hrows Hcols].
  unfold derive_rows, derive_cols in Hrows, Hcols.
  rewrite <- (derive_dim_ids 0 mesh _ Hids) in Hrows.
  rewrite <- (derive_dim_ids 1 mesh _ Hids) in Hcols.
  pose proof (getPoint_same_ids rows cols mesh) as Hget.
  unfold Lines.renderLines, derive_rows, derive_cols. cbv zeta.
  rewrite (loop_count_int _ rows Hrows), (loop_count_int _ cols Hcols).
  destruct (Z.to_nat rows) as [|R] eqn:ER; [lia|].
  destruct (Z.to_nat cols) as [|C] eqn:EC; [lia|].
  eexists. split; [reflexivity|].
  (* the lines of one cell *)
  assert (Hcell : forall r c, (r < S R)%nat -> (c < S C)%nat ->
            length (Lines.cell_lines sz mesh (derive_dim 0 mesh)
                      (derive_dim 1 mesh) r c)
            = ((if (c + 1 <? S C)%nat then 1 else 0)
               + (if (r + 1 <? S R)%nat then 1 else 0))%nat).
  { intros r c Hr' Hc'. unfold Lines.cell_lines. cbv zeta.
    rewrite (below_last _ cols c Hcols), (below_last _ rows r Hrows).
    destruct (Hget r c Hids) as (p & -> & _); [lia|lia|].
    rewrite length_app. f_equal.
    - destruct (Z.ltb_spec (Z.of_nat c + 1) cols) as [H|H];
        destruct (Nat.ltb_spec (c + 1) (S C)) as [H'|H']; try lia.
      + destruct (Hget r (c + 1)%nat Hids) as (q & -> & _); [lia|lia|].
        reflexivity.
      + reflexivity.
    - destruct (Z.ltb_spec (Z.of_nat r + 1) rows) as [H|H];
        destruct (Nat.ltb_spec (r + 1) (S R)) as [H'|H']; try lia.
      + destruct (Hget (r + 1)%nat c Hids) as (q & -> & _); [lia|lia|].
        reflexivity.
      + reflexivity. }
  assert (Hrow : forall r, (r < S R)%nat ->
            length (flat_map (Lines.cell_lines sz mesh (derive_dim 0 mesh)
                                (derive_dim 1 mesh) r) (seq 0 (S C)))
            = (C + (if (r + 1 <? S R)%nat then S C else 0))%nat).
  { intros r Hr'. rewrite (seq_S C 0), flat_map_app, length_app.
    rewrite (flat_map_constant_length
               (c := (1 + (if (r + 1 <? S R)%nat then 1 else 0))%nat)).
    - cbn [flat_map]. rewrite app_nil_r, length_seq, Hcell by lia.
      cbn [Nat.add].
      destruct (Nat.ltb_spec (C + 1) (S C)) as [H|H]; [lia|].
      destruct (r + 1 <? S R)%nat; lia.
    - intros c Hin. apply in_seq in Hin. rewrite Hcell by lia.
      destruct (Nat.ltb_spec (c + 1) (S C)) as [H|H]; [reflexivity | lia]. }
  split; [|split].
  - rewrite (seq_S R 0), flat_map_app, length_app.
    rewrite (flat_map_constant_length (c := (C + S C)%nat)).
    + cbn [flat_map]. rewrite app_nil_r, length_seq, Hrow by lia.
      cbn [Nat.add].
      destruct (Nat.ltb_spec (R + 1) (S R)) as [H|H]; [lia|]. nia.
    + intros r Hin. apply in_seq in Hin. rewrite Hrow by lia.
      destruct (Nat.ltb_spec (r + 1) (S R)) as [H|H]; [reflexivity | lia].
  - intros r c Hr' Hc'. apply Hget; assumption.
  - intros ln Hin. apply in_flat_map in Hin as (r & _ & Hin).
    apply in_flat_map in Hin as (c & _ & Hin).
    unfold Lines.cell_lines in Hin. cbv zeta in Hin.
    destruct (getPoint mesh r c) as [p|] eqn:Ep; [|destruct Hin].
    apply in_app_or in Hin as [Hin|Hin].
    + destruct (if ltb _ _ then getPoint mesh r (c + 1) else None)
        as [q|] eqn:Eq; [|destruct Hin].
      destruct (ltb _ _); [|discriminate].
      destruct Hin as [<-|[]]. exists r, c, p, q. auto.
    + destruct (if ltb _ _ then getPoint mesh (r + 1) c else None)
        as [q|] eqn:Eq; [|destruct Hin].
      destruct (ltb _ _); [|discriminate].
      destruct Hin as [<-|[]]. exists r, c, p, q. auto.
Qed.

Lemma renderLines_grid_witness :
  exists lines,
    Lines.renderLines (Some {| width := Fin 800; height := Fin 600 |})
      (buildDefaultMesh 4 4) = Lines.Nodes lines
    /\ length lines = 24%nat.
Proof.
  destruct (renderLines_grid 4 4 {| width := Fin 800; height := Fin 600 |}
              (buildDefaultMesh 4 4)) as (lines & H1 & H2 & _);
    [lia | lia | reflexivity |].
  exists lines. split; [exact H1 | lia].
Defined.

Section Unbounded.

Lemma max2_not_nan (a b : num) : a <> NaN -> b <> NaN -> max2 a b <> NaN.
Proof.
  intros Ha Hb. destruct a, b; try congruence; unfold max2;
    destruct (ltb _ _); congruence.
Qed.

Lemma max2_PInf_l (b : num) : b <> NaN -> max2 PInf b = PInf.
Proof. destruct b; [congruence | reflexivity..]. Qed.

Lemma max2_PInf_r (a : num) : a <> NaN -> max2 a PInf = PInf.
Proof. destruct a; [congruence | reflexivity..]. Qed.

Lemma fold_max2_PInf (l : list num) :
  ~ In NaN l -> fold_left max2 l PInf = PInf.
Proof.
  induction l as [|b l IH]; intros Hn; cbn [fold_left]; [reflexivity|].
  rewrite max2_PInf_l by (intros ->; apply Hn; left; reflexivity).
  apply IH. intros H. apply Hn. right. exact H.
Qed.

Lemma Math_max_PInf (l : list num) :
  In PInf l -> ~ In NaN l -> Math_max l = PInf.
Proof.
  unfold Math_max. assert (H0 : NInf <> NaN) by discriminate.
  revert H0. generalize NInf as acc.
  induction l as [|b l IH]; intros acc Hacc Hin Hn; [destruct Hin|].
  cbn [fold_left].
  assert (Hb : b <> NaN) by (intros ->; apply Hn; left; reflexivity).
  assert (Hl : ~ In NaN l) by (intros H; apply Hn; right; exact H).
  destruct Hin as [->|Hin].
  - rewrite max2_PInf_r by exact Hacc. apply fold_max2_PInf, Hl.
  - apply IH; [apply max2_not_nan; assumption | exact Hin | exact Hl].
Qed.

End Unbounded.

(** X16.  The loops of [renderLines] run up to the derived numbers of
    rows and columns, which come from the ids.  When the row part of
    some id is the text [Infinity] and every row part is the text of a
    number, the derived number of rows is infinite and [renderLines]
    does not end, whatever the viewport. *)
Theorem renderLines_unbounded (sz : Size) (mesh : Mesh) (p : MeshPoint) :
  In p mesh ->
  id_part 0 p = Some "Infinity" ->
  (forall q, In q mesh -> Number (id_part 0 q) <> NaN) ->
  derive_rows mesh = PInf
  /\ Lines.renderLines (Some sz) mesh = Lines.Diverges.
Proof.
  intros Hp Hid Hall.
  assert (Hrows : derive_rows mesh = PInf).
  { unfold derive_rows, derive_dim. rewrite Math_max_PInf; [reflexivity| |].
    - apply in_map_iff. exists p. split; [|exact Hp].
      rewrite Hid. reflexivity.
    - intros H. apply in_map_iff in H as (q & Hq & Hin).
      exact (Hall q Hin Hq). }
  split; [exact Hrows|].
  unfold Lines.renderLines. cbv zeta. rewrite Hrows. reflexivity.
Qed.

Lemma renderLines_unbounded_witness :
  Lines.renderLines (Some {| width := Fin 800; height := Fin 600 |})
    [ {| id := "0-0"; x := Fin 0; y := Fin 0 |};
      {| id := "Infinity-0"; x := Fin 0; y := Fin 1 |} ]
  = Lines.Diverges.
Proof.
  apply (renderLines_unbounded _ _
           {| id := "Infinity-0"; x := Fin 0; y := Fin 1 |}).
  - right. left. reflexivity.
  - reflexivity.
  - intros q [<-|[<-|[]]]; vm_compute; discriminate.
Defined.

(* ================================================================== *)
(** ** The editor in a viewport of width or height zero *)
(* ================================================================== *)

Section ZeroViewport.

Import Editor.

Lemma clamp_zero (t : num) :
  div (max2 (Fin 0) (min2 (Fin 0) t)) (Fin 0) = NaN.
Proof.
  destruct t as [| | |q]; try reflexivity.
  unfold min2, max2, ltb.
  destruct (Qlt_le_dec q 0) as [H|H].
  - destruct (Qlt_le_dec 0 q) as [H'|H']; [lra | reflexivity].
  - reflexivity.
Qed.

Lemma add_nan_r (a : num) : add a NaN = NaN.
Proof. destruct a; reflexivity. Qed.

Lemma sq_sub_nan (t a : num) : sq (sub t (mul NaN a)) = NaN.
Proof. unfold sub. cbn [mul neg]. rewrite add_nan_r. reflexivity. Qed.

(** A point with a coordinate that is not a number is never nearer
    than the nearest so far. *)
Lemma nearest_step_nan (sz : Size) (tx ty : num) st (p : MeshPoint) :
  x p = NaN \/ y p = NaN -> nearest_step sz tx ty st p = st.
Proof.
  intros H. destruct st as [n m]. unfold nearest_step, pixel_x, pixel_y.
  assert (E : add (sq (sub tx (mul (x p) (width sz))))
                  (sq (sub ty (mul (y p) (height sz)))) = NaN).
  { destruct H as [-> | ->]; rewrite sq_sub_nan;
      [reflexivity | apply add_nan_r]. }
  rewrite E. reflexivity.
Qed.

Lemma nearest_fold_number (sz : Size) (tx ty : num) (mesh : Mesh) :
  forall st i,
    fst (fold_left (nearest_step sz tx ty) mesh st) = Some i ->
    fst st = Some i
    \/ exists p, In p mesh /\ id p = i /\ x p <> NaN /\ y p <> NaN.
Proof.
  induction mesh as [|p mesh IH]; intros st i H; cbn [fold_left] in H.
  - left. exact H.
  - apply IH in H as [H|(q & Hq & Hi)];
      [|right; exists q; split; [right; exact Hq | exact Hi]].
    destruct (x p) as [| | |a] eqn:Ex;
      [rewrite nearest_step_nan in H by (left; exact Ex); left; exact H
      |..];
      (destruct (y p) as [| | |b] eqn:Ey;
       [rewrite nearest_step_nan in H by (right; exact Ey); left; exact H
       |..]);
      (destruct st as [n m]; unfold nearest_step in H;
       destruct (root_ltb _ m); cbn [fst] in H; [|left; exact H];
       right; exists p; rewrite Ex, Ey;
       split; [left; reflexivity|];
       split; [congruence|]; split; discriminate).
Qed.

End ZeroViewport.

(** X17.  The guard of [updatePoint] only asks whether the size of the
    viewport is known.  In a viewport of width 0 every drag, whatever
    the touch position, gives the dragged point the x coordinate NaN,
    and in one of height 0 the y coordinate NaN.  The hit test, in any
    viewport, never answers with a point that has such a coordinate, so
    the point cannot be grabbed again. *)
Theorem zero_viewport_drag (mesh : Mesh) (pid : string) (tx ty : num) :
  (forall sz, exists newMesh,
     Editor.updatePoint (Some sz) mesh pid tx ty = Some newMesh
     /\ forall p, In p newMesh -> id p = pid ->
          (width sz = Fin 0 -> x p = NaN)
          /\ (height sz = Fin 0 -> y p = NaN))
  /\ (forall sz i,
        Editor.findNearestPoint (Some sz) mesh tx ty = Some i ->
        exists p, In p mesh /\ id p = i /\ x p <> NaN /\ y p <> NaN).
Proof.
  split.
  - intros sz. exists (map (moved sz pid tx ty) mesh).
    split; [reflexivity|]. intros p Hin Hid.
    apply in_map_iff in Hin as (p0 & <- & _).
    rewrite moved_id in Hid. unfold moved.
    apply String.eqb_eq in Hid. rewrite Hid. cbn [x y].
    split; intros ->; apply clamp_zero.
  - intros sz i H. unfold Editor.findNearestPoint in H.
    apply nearest_fold_number in H as [H|H]; [discriminate | exact H].
Qed.

Lemma zero_viewport_drag_witness :
  exists newMesh,
    Editor.updatePoint (Some {| width := Fin 0; height := Fin 600 |})
      (buildDefaultMesh 4 4) "1-1" (Fin 320) (Fin 180) = Some newMesh
    /\ (forall p, In p newMesh -> id p = "1-1" -> x p = NaN)
    /\ Editor.findNearestPoint
         (Some {| width := Fin 800; height := Fin 600 |}) newMesh
         (Fin 0) (Fin 180) <> Some "1-1".
Proof.
  destruct (zero_viewport_drag (buildDefaultMesh 4 4) "1-1"
              (Fin 320) (Fin 180)) as [Hup _].
  destruct (Hup {| width := Fin 0; height := Fin 600 |})
    as (newMesh & E & Hnan).
  exists newMesh. split; [exact E|].
  assert (Hx : forall p, In p newMesh -> id p = "1-1" -> x p = NaN).
  { intros p Hin Hid. destruct (Hnan p Hin Hid) as [H _].
    apply H. reflexivity. }
  split; [exact Hx|]. intros H.
  destruct (zero_viewport_drag newMesh "1-1" (Fin 0) (Fin 180))
    as [_ Hhit].
  destruct (Hhit _ _ H) as (p & Hin & Hid & Hp & _).
  exact (Hp (Hx p Hin Hid)).
Defined.

(* ================================================================== *)
(** ** Warp renderer on meshes of any shape *)
(* ================================================================== *)

Section MissingPoints.

Variables (mesh : Mesh) (width height : num) (g : nat).

Let identity : Mesh := buildDefaultMesh (Z.of_nat g) (Z.of_nat g).

Lemma flat_map_ext_In {A B : Type} (f f' : A -> list B) (l : list A) :
  (forall a, In a l -> f a = f' a) -> flat_map f l = flat_map f' l.
Proof.
  induction l as [|a l IH]; intros H; [reflexivity|].
  cbn [flat_map]. rewrite (H a) by (left; reflexivity).
  rewrite IH; [reflexivity|]. intros b Hb. apply H. right. exact Hb.
Qed.

(** Where the mesh has no point the renderer takes the point of the
    regular grid. *)
Lemma getMeshPoint_padded (row col : nat) :
  (row < g)%nat -> (col < g)%nat ->
  Canvas.getMeshPoint (mesh ++ drop (length mesh) identity)%list
    width height g row col
  = Canvas.getMeshPoint mesh width height g row col.
Proof.
  intros Hr Hc. unfold Canvas.getMeshPoint. cbv zeta.
  rewrite lookup_app.
  destruct (mesh !! (row * g + col)%nat) as [p|] eqn:E; [reflexivity|].
  apply lookup_ge_None in E. rewrite lookup_drop.
  replace (length mesh + (row * g + col - length mesh))%nat
    with (row * g + col)%nat by lia.
  unfold identity. rewrite buildDefaultMesh_grid, Nat2Z.id.
  rewrite grid_lookup by assumption. reflexivity.
Qed.

Lemma render_padded (vw0 vh0 : num) :
  Canvas.render (mesh ++ drop (length mesh) identity)%list
    width height g vw0 vh0
  = Canvas.render mesh width height g vw0 vh0.
Proof.
  unfold Canvas.render. cbv zeta.
  apply flat_map_ext_In. intros row Hrow. apply in_seq in Hrow.
  apply flat_map_ext_In. intros col Hcol. apply in_seq in Hcol.
  unfold Canvas.drawCell.
  rewrite !getMeshPoint_padded by lia. reflexivity.
Qed.

End MissingPoints.

(** X18.  Where the mesh has no point at an index the renderer draws
    with the point of the regular grid: filling a short mesh up with
    the points of the identity mesh beyond its length draws the same
    frame.  So the empty mesh, and every initial part of the identity
    mesh, is drawn exactly as the identity mesh. *)
Theorem render_missing_points (mesh : Mesh) (width height : num)
    (g : nat) (vw0 vh0 : num) :
  let identity := buildDefaultMesh (Z.of_nat g) (Z.of_nat g) in
  Canvas.render (mesh ++ drop (length mesh) identity)%list
    width height g vw0 vh0
  = Canvas.render mesh width height g vw0 vh0
  /\ Canvas.render [] width height g vw0 vh0
     = Canvas.render identity width height g vw0 vh0
  /\ forall n, Canvas.render (take n identity) width height g vw0 vh0
               = Canvas.render identity width height g vw0 vh0.
Proof.
  intros identity. split; [apply render_padded|]. split.
  - rewrite <- (render_padded [] width height g vw0 vh0). reflexivity.
  - intros n.
    rewrite <- (render_padded (take n identity) width height g vw0 vh0).
    fold identity. f_equal.
    destruct (Nat.le_gt_cases n (length identity)) as [H|H].
    + rewrite length_take, Nat.min_l by exact H. apply take_drop.
    + rewrite take_ge by lia. rewrite drop_all. apply app_nil_r.
Qed.

Section WarpedFrame.





End WarpedFrame.



Section SubQuads.

Variables (a0 b0 a1 b1 a2 b2 a3 b3 : Q).

Let p0 : Canvas.Pt := {| Canvas.px := Fin a0; Canvas.py := Fin b0 |}.
Let p1 : Canvas.Pt := {| Canvas.px := Fin a1; Canvas.py := Fin b1 |}.
Let p2 : Canvas.Pt := {| Canvas.px := Fin a2; Canvas.py := Fin b2 |}.
Let p3 : Canvas.Pt := {| Canvas.px := Fin a3; Canvas.py := Fin b3 |}.









End SubQuads.



(* ================================================================== *)
(** ** The resizable video container *)
(* ================================================================== *)

Section ResizableFacts.

Import Resizable.

Variables (minW minH : Q).





End ResizableFacts.



Section ResizeGesture.

Import Resizable.


End ResizeGesture.




(* ================================================================== *)
(** ** Picking a video *)
(* ================================================================== *)

Section PickerFacts.

Lemma split_nonempty (sep : ascii) (s : string) : split sep s <> [].
Proof.
  destruct s as [|c s]; cbn [split]; [discriminate|].
  destruct (Ascii.eqb c sep); [discriminate|].
  destruct (split sep s); discriminate.
Qed.

(** A character that is the separator, or occurs nowhere in the text,
    occurs in no part. *)
Lemma split_parts (c sep : ascii) (s : string) :
  c = sep \/ no_char c s = true ->
  Forall (fun w => no_char c w = true) (split sep s).
Proof.
  induction s as [|d s IH]; intros H; cbn [split].
  - repeat constructor.
  - assert (Hs : c = sep \/ no_char c s = true).
    { destruct H as [H|H]; [left; exact H|]. right.
      cbn [no_char] in H. apply andb_prop in H as [_ H]. exact H. }
    specialize (IH Hs).
    destruct (Ascii.eqb d sep) eqn:E.
    + constructor; [reflexivity | exact IH].
    + assert (Hd : negb (Ascii.eqb d c) = true).
      { destruct H as [->|H]; [rewrite E; reflexivity|].
        cbn [no_char] in H. apply andb_prop in H as [H _]. exact H. }
      destruct (split sep s) as [|w ws].
      * repeat constructor. cbn [no_char]. rewrite Hd. reflexivity.
      * apply Forall_cons in IH as [Hw Hws].
        constructor; [|exact Hws]. cbn [no_char]. rewrite Hd, Hw.
        reflexivity.
Qed.

Lemma split_no_char (sep : ascii) (s : string) :
  no_char sep s = true -> split sep s = [s].
Proof.
  induction s as [|c s IH]; cbn [split no_char]; [reflexivity|].
  intros H. apply andb_prop in H as [Hc Hs]. apply negb_true_iff in Hc.
  rewrite Hc, (IH Hs). reflexivity.
Qed.

Lemma split_app (sep : ascii) (s t : string) :
  split sep (s ++ String sep t) = (split sep s ++ split sep t)%list.
Proof.
  induction s as [|c s IH]; cbn [split append].
  - rewrite Ascii.eqb_refl. reflexivity.
  - rewrite IH. destruct (Ascii.eqb c sep); [reflexivity|].
    pose proof (split_nonempty sep s) as Hne.
    destruct (split sep s) as [|w ws]; [contradiction|]. reflexivity.
Qed.

Lemma no_char_uint (c : ascii) (d : Decimal.uint) :
  (nat_of_ascii c < 48)%nat ->
  no_char c (NilEmpty.string_of_uint d) = true.
Proof.
  intros Hc.
  assert (H : forall e, (48 <= nat_of_ascii e)%nat ->
            negb (Ascii.eqb e c) = true).
  { intros e He. apply negb_true_iff, Ascii.eqb_neq. intros ->. lia. }
  induction d; cbn [NilEmpty.string_of_uint no_char]; [reflexivity|..];
    rewrite IHd, andb_true_r; apply H; vm_compute; lia.
Qed.

Lemma fallback_clean (c : ascii) (n : nat) :
  (nat_of_ascii c < 48)%nat -> c <> " "%char ->
  no_char c ("Cue " ++ toString n) = true
  /\ "Cue " ++ toString n <> "".
Proof.
  intros Hc Hsp. split; [|discriminate].
  unfold toString. cbn [append no_char].
  rewrite (no_char_uint c _ Hc).
  assert (H : forall d, (48 <= nat_of_ascii d)%nat ->
            Ascii.eqb d c = false).
  { intros d H2. apply Ascii.eqb_neq. intros ->. lia. }
  rewrite (H "C"%char), (H "u"%char), (H "e"%char) by (vm_compute; lia).
  apply Ascii.eqb_neq in Hsp. rewrite Ascii.eqb_sym in Hsp.
  rewrite Hsp. reflexivity.
Qed.

(** The name that [fileName] gives has neither a slash nor a dot and
    is not empty. *)
Lemma fileName_clean (uri : string) (n : nat) :
  Picker.fileName uri n <> ""
  /\ no_char "/" (Picker.fileName uri n) = true
  /\ no_char "." (Picker.fileName uri n) = true.
Proof.
  destruct (fallback_clean "/" (n + 1)) as [F1 F0];
    [vm_compute; lia | discriminate |].
  destruct (fallback_clean "." (n + 1)) as [F2 _];
    [vm_compute; lia | discriminate |].
  unfold Picker.fileName. cbv zeta.
  destruct (last (split "/" uri)) as [l|] eqn:El; [|auto].
  assert (Hl : no_char "/" l = true).
  { pose proof (split_parts "/" "/" uri (or_introl eq_refl)) as H.
    apply last_Some in El as (pre & El). rewrite El in H.
    apply Forall_app in H as [_ H]. apply Forall_cons in H as [H _].
    exact H. }
  destruct (split "." l !! 0%nat) as [w|] eqn:Ew; [|auto].
  pose proof (split_parts "/" "." l (or_intror Hl)) as H1.
  pose proof (split_parts "." "." l (or_introl eq_refl)) as H2.
  pose proof (Forall_lookup_1 _ _ _ _ H1 Ew) as W1.
  pose proof (Forall_lookup_1 _ _ _ _ H2 Ew) as W2.
  destruct (String.eqb_spec w ""); auto.
Qed.

End PickerFacts.

(** X23.  Picking a video appends one cue to the playlist and makes it
    the current cue.  The cue has the chosen uri, does not loop, and is
    named by [fileName]: a name that is never empty and has neither a
    slash nor a dot in it, so that the fallback name of [createVideoCue]
    is never used.  The video shown afterwards is the chosen one. *)
Theorem pickVideo_appends_cue (t1 t2 t3 : nat) (rnd uri : string)
    (s : Playback.state) :
  let s' := Picker.pickVideo t1 t2 t3 rnd uri s in
  exists c,
    Playback.videoCues s' = (Playback.videoCues s ++ [c])%list
    /\ Playback.currentCueIndex s' = length (Playback.videoCues s)
    /\ Playback.videoCues s' !! Playback.currentCueIndex s' = Some c
    /\ cursor_ok s'
    /\ Playback.uri c = uri
    /\ Playback.loop c = false
    /\ Playback.name c
       = Picker.fileName uri (length (Playback.videoCues s))
    /\ Playback.name c <> ""
    /\ no_char "/" (Playback.name c) = true
    /\ no_char "." (Playback.name c) = true
    /\ Playlist.currentVideoUri s'
       = (if String.eqb uri "" then None else Some uri).
Proof.
  intros s'.
  destruct (fileName_clean uri (length (Playback.videoCues s)))
    as (N0 & N1 & N2).
  set (name := Picker.fileName uri (length (Playback.videoCues s))) in *.
  exists (Picker.createVideoCue t1 t2 t3 rnd uri (Some name)).
  assert (Hname : Playback.name
                    (Picker.createVideoCue t1 t2 t3 rnd uri (Some name))
                  = name).
  { unfold Picker.createVideoCue. cbn [Playback.name].
    apply String.eqb_neq in N0. rewrite N0. reflexivity. }
  assert (Hidx : Playback.currentCueIndex s'
                 = length (Playback.videoCues s)).
  { unfold s', Picker.pickVideo, Playlist.handleVideoSelected. cbv zeta.
    cbn [Playback.currentCueIndex Playback.set_index].
    rewrite length_app. cbn [length]. lia. }
  assert (Hcues : Playback.videoCues s'
                  = (Playback.videoCues s
                     ++ [Picker.createVideoCue t1 t2 t3 rnd uri
                           (Some name)])%list) by reflexivity.
  assert (Hcur : Playback.videoCues s' !! Playback.currentCueIndex s'
                 = Some (Picker.createVideoCue t1 t2 t3 rnd uri
                           (Some name))).
  { rewrite Hidx, Hcues. apply list_lookup_middle. reflexivity. }
  split; [exact Hcues|]. split; [exact Hidx|]. split; [exact Hcur|].
  split.
  { left. rewrite Hidx, Hcues, length_app. cbn [length]. lia. }
  split; [reflexivity|]. split; [reflexivity|].
  split; [exact Hname|]. rewrite Hname.
  split; [exact N0|]. split; [exact N1|]. split; [exact N2|].
  unfold Playlist.currentVideoUri. rewrite Hcur. reflexivity.
Qed.

(** X24.  The name taken from the path of the file: for a uri made
    of a directory, a slash, a base name without slash or dot, a dot
    and an extension without slash, the name is the base name, whatever
    dots the extension has; when the base name is empty, as for a file
    whose name starts with a dot, the name is [Cue n] with [n] the
    number of cues plus one. *)
Theorem fileName_of_path (dir base ext : string) (n : nat) :
  no_char "/" base = true -> no_char "." base = true ->
  no_char "/" ext = true ->
  Picker.fileName (dir ++ "/" ++ base ++ "." ++ ext) n
  = if String.eqb base "" then "Cue " ++ toString (n + 1) else base.
Proof.
  intros Hb1 Hb2 He. unfold Picker.fileName. cbv zeta.
  change (dir ++ "/" ++ base ++ "." ++ ext)
    with (dir ++ String "/" (base ++ String "." ext)).
  rewrite split_app.
  assert (Hrest : no_char "/" (base ++ String "." ext) = true).
  { clear Hb2. induction base as [|c b IH]; cbn [append no_char].
    - exact He.
    - cbn [no_char] in Hb1. apply andb_prop in Hb1 as [H1 H2].
      rewrite H1, (IH H2). reflexivity. }
  rewrite (split_no_char "/" _ Hrest), last_snoc.
  rewrite split_app, (split_no_char "." base Hb2).
  reflexivity.
Qed.

Lemma fileName_of_path_witness :
  Picker.fileName "file:///videos/reveal.mp4" 2 = "reveal"
  /\ Picker.fileName "file:///videos/.hidden" 2 = "Cue 3".
Proof.
  split.
  - apply (fileName_of_path "file:///videos" "reveal" "mp4" 2);
      reflexivity.
  - apply (fileName_of_path "file:///videos" "" "hidden" 2); reflexivity.
Defined.

(* ================================================================== *)
(** ** Playing through the playlist *)
(* ================================================================== *)

Section Performance.

Import Playback.

Lemma play_round_spec (s : state) :
  Armed s ->
  Playing (handleManualTrigger s)
  /\ currentCueIndex (handleManualTrigger s) = currentCueIndex s
  /\ Armed (play_round s)
  /\ videoCues (play_round s) = videoCues s
  /\ currentCueIndex (play_round s)
     = if negb (currentCueLoop s)
          && (Z.of_nat (currentCueIndex s)
              <? Z.of_nat (length (videoCues s)) - 1)
       then (currentCueIndex s + 1)%nat else currentCueIndex s.
Proof.
  intros (Ha & Hp & Hb). unfold play_round, handleManualTrigger.
  rewrite Ha, Hb. cbn [negb orb].
  split; [unfold Playing, set_flags; cbn; auto|].
  split; [reflexivity|].
  unfold handlePlaybackFinished, currentCueLoop, set_flags.
  cbn [videoCues currentCueIndex showControls blackout].
  fold (currentCueLoop s).
  destruct (negb (currentCueLoop s)
            && (Z.of_nat (currentCueIndex s)
                <? Z.of_nat (length (videoCues s)) - 1)) eqn:E.
  - apply andb_prop in E as [_ E]. unfold onNextCue.
    cbn [videoCues currentCueIndex]. rewrite E.
    unfold Armed, set_index. cbn. auto.
  - unfold Armed. cbn. auto.
Qed.

End Performance.

(** X25.  A performance from the Armed state: every round of trigger
    and end of video plays the current cue and leaves the screen Armed
    with the same playlist.  When no cue loops, the rounds play the
    cues in order, one each, and stay on the last cue once it is
    reached; when the current cue loops, every round plays that cue
    again. *)
Theorem performance_in_order (s : Playback.state) (k : nat) :
  Playback.Armed s -> cursor_ok s ->
  let s_k := Nat.iter k play_round s in
  Playback.Armed s_k
  /\ Playback.videoCues s_k = Playback.videoCues s
  /\ Playback.Playing (Playback.handleManualTrigger s_k)
  /\ Playback.currentCueIndex (Playback.handleManualTrigger s_k)
     = Playback.currentCueIndex s_k
  /\ (Forall (fun c => Playback.loop c = false) (Playback.videoCues s) ->
      Playback.currentCueIndex s_k
      = Nat.min (Playback.currentCueIndex s + k)
          (length (Playback.videoCues s) - 1))
  /\ (Playback.currentCueLoop s = true ->
      Playback.currentCueIndex s_k = Playback.currentCueIndex s).
Proof.
  intros Ha Hc. cbv zeta.
  assert (H : Playback.Armed (Nat.iter k play_round s)
              /\ Playback.videoCues (Nat.iter k play_round s)
                 = Playback.videoCues s
              /\ (Forall (fun c => Playback.loop c = false)
                    (Playback.videoCues s) ->
                  Playback.currentCueIndex (Nat.iter k play_round s)
                  = Nat.min (Playback.currentCueIndex s + k)
                      (length (Playback.videoCues s) - 1))
              /\ (Playback.currentCueLoop s = true ->
                  Playback.currentCueIndex (Nat.iter k play_round s)
                  = Playback.currentCueIndex s)).
  { induction k as [|k IH];
      [change (Nat.iter 0 play_round s) with s
      |change (Nat.iter (S k) play_round s)
         with (play_round (Nat.iter k play_round s))].
    - split; [exact Ha|]. split; [reflexivity|]. split; [|reflexivity].
      intros _. destruct Hc as [Hc|[Hc1 Hc2]].
      + lia.
      + rewrite Hc1, Hc2. reflexivity.
    - destruct IH as (IHa & IHc & IHn & IHl).
      destruct (play_round_spec _ IHa) as (_ & _ & Ra & Rc & Ri).
      split; [exact Ra|]. split; [congruence|]. split.
      + intros Hall. specialize (IHn Hall). rewrite Ri, IHc, IHn.
        assert (Hl : Playback.currentCueLoop (Nat.iter k play_round s)
                     = false).
        { unfold Playback.currentCueLoop. rewrite IHc.
          destruct (Playback.videoCues s !! _) as [c|] eqn:E;
            [|reflexivity].
          exact (Forall_lookup_1 _ _ _ _ Hall E). }
        rewrite Hl. cbn [negb andb].
        destruct (Z.ltb_spec
                    (Z.of_nat (Nat.min (Playback.currentCueIndex s + k)
                                 (length (Playback.videoCues s) - 1)))
                    (Z.of_nat (length (Playback.videoCues s)) - 1));
          lia.
      + intros Hl. specialize (IHl Hl). rewrite Ri.
        assert (Hl' : Playback.currentCueLoop (Nat.iter k play_round s)
                      = true).
        { unfold Playback.currentCueLoop in *. rewrite IHc, IHl.
          exact Hl. }
        rewrite Hl'. cbn [negb andb]. exact IHl. }
  destruct H as (H1 & H2 & H3 & H4).
  destruct (play_round_spec _ H1) as (P1 & P2 & _).
  auto 10.
Qed.

Lemma performance_in_order_witness :
  let cue n := Playback.mkCue n n "file:///a.mp4" false None None (Fin 0) in
  let s := Screen.initial [cue "a"; cue "b"; cue "c"] 0 in
  Playback.currentCueIndex (Nat.iter 2 play_round s) = 2%nat
  /\ Playback.currentCueIndex (Nat.iter 5 play_round s) = 2%nat.
Proof.
  intros cue s.
  assert (Ha : Playback.Armed s) by (repeat split).
  assert (Hc : cursor_ok s) by (left; cbn; lia).
  assert (Hall : Forall (fun c => Playback.loop c = false)
                   (Playback.videoCues s)) by (repeat constructor).
  destruct (performance_in_order s 2 Ha Hc) as (_ & _ & _ & _ & H2 & _).
  destruct (performance_in_order s 5 Ha Hc) as (_ & _ & _ & _ & H5 & _).
  split; [rewrite (H2 Hall) | rewrite (H5 Hall)]; reflexivity.
Defined.

(* ================================================================== *)
(** ** What the calibration screen does not record *)
(* ================================================================== *)

Section NotRecorded.

Import MeshHistory.

Lemma setMesh_again (N : nat) (m : Mesh) (h : history) :
  valid h -> setMesh N m (setMesh N m h) = setMesh N m h.
Proof.
  intros Hv.
  destruct (hasChanged m (historyRef h !! indexRef h)) eqn:Hc.
  - destruct (setMesh_changed_cursor N m h Hv Hc) as (Hl & _ & _).
    apply setMesh_unchanged. rewrite Hl. cbn [hasChanged].
    rewrite mesh_json_eqb_refl. reflexivity.
  - rewrite (setMesh_unchanged N m h Hc).
    apply setMesh_unchanged. exact Hc.
Qed.

Lemma setMesh_current (N : nat) (m : Mesh) (h : history) :
  historyRef h !! indexRef h = Some m -> setMesh N m h = h.
Proof.
  intros E. apply setMesh_unchanged. rewrite E. cbn [hasChanged].
  rewrite mesh_json_eqb_refl. reflexivity.
Qed.

Lemma touch_move_cases (m : Mesh) (lx ly : num) (e : Touch.editor) :
  Touch.handleTouchMove true m lx ly e = None
  \/ exists sz pid,
       Touch.size e = Some sz /\ Touch.activePointId e = Some pid
       /\ Touch.handleTouchMove true m lx ly e
          = Some (map (moved sz pid lx ly) m).
Proof.
  unfold Touch.handleTouchMove.
  destruct (negb true || negb (Touch.truthy_id (Touch.activePointId e))
            || negb (Touch.known (Touch.size e))); [left; reflexivity|].
  destruct (Touch.activePointId e) as [pid|]; [|left; reflexivity].
  destruct (Touch.size e) as [sz|]; [|left; reflexivity].
  right. exists sz, pid. auto.
Qed.

End NotRecorded.

(** X26.  What adds no step to the undo history, whenever the mesh
    shown is the snapshot at the cursor: the save button; a touch that
    starts, ends or lays out; a move while no point is grabbed; and a
    move to the position of the move before it, so that a finger at
    rest records nothing. *)
Theorem not_recorded (e : Touch.editor) (h : MeshHistory.history) :
  in_sync h ->
  Calibration.step Calibration.SaveButton (e, h) = Some (e, h)
  /\ (forall ev st,
        match ev with
        | Calibration.Layout _ _ | Calibration.TouchStart _ _
        | Calibration.TouchEnd => True
        | _ => False
        end ->
        Calibration.step ev (e, h) = Some st -> snd st = h)
  /\ (forall lx ly,
        Touch.activePointId e = None ->
        Calibration.step (Calibration.TouchMove lx ly) (e, h)
        = Some (e, h))
  /\ (forall lx ly st,
        Calibration.step (Calibration.TouchMove lx ly) (e, h) = Some st ->
        Calibration.step (Calibration.TouchMove lx ly) st = Some st).
Proof.
  intros Hs. pose proof Hs as [Hv Hm].
  destruct (MeshHistory.historyRef h !! MeshHistory.indexRef h)
    as [m|] eqn:Em;
    [|apply lookup_ge_None in Em; unfold MeshHistory.valid in Hv; lia].
  split; [|split; [|split]].
  - unfold Calibration.step. rewrite Hm. unfold App.setMesh.
    rewrite (setMesh_current _ m h Em). reflexivity.
  - intros ev st Hev. unfold Calibration.step. rewrite Hm.
    destruct ev; try contradiction; intros [= <-]; reflexivity.
  - intros lx ly Ha. unfold Calibration.step. rewrite Hm.
    unfold Touch.handleTouchMove. rewrite Ha. cbn [Touch.truthy_id negb].
    rewrite orb_true_r. reflexivity.
  - intros lx ly st. unfold Calibration.step at 1. rewrite Hm.
    destruct (touch_move_cases m lx ly e)
      as [E|(sz & pid & Esz & Eid & E)]; rewrite E; intros [= <-].
    + unfold Calibration.step. rewrite Hm, E. reflexivity.
    + set (newMesh := map (moved sz pid lx ly) m).
      assert (Hs1 : in_sync (App.setMesh newMesh h))
        by (apply setMesh_in_sync; exact Hs).
      unfold Calibration.step.
      destruct (MeshHistory.hasChanged newMesh
                  (MeshHistory.historyRef h !! MeshHistory.indexRef h))
        eqn:Hc.
      * destruct (setMesh_changed_cursor App.MAX_HISTORY newMesh h Hv Hc)
          as (Hl & _ & Hm1).
        fold (App.setMesh newMesh h) in Hl, Hm1. rewrite Hm1.
        destruct (touch_move_cases newMesh lx ly e)
          as [E'|(sz' & pid' & Esz' & Eid' & E')]; rewrite E';
          [reflexivity|].
        assert (sz' = sz) by congruence. assert (pid' = pid) by congruence.
        subst sz' pid'.
        assert (Hsame : map (moved sz pid lx ly) newMesh = newMesh).
        { unfold newMesh. rewrite map_map. apply map_ext.
          intros p. apply moved_moved. }
        rewrite Hsame. unfold App.setMesh.
        rewrite setMesh_again by exact Hv. reflexivity.
      * unfold App.setMesh.
        rewrite (setMesh_unchanged App.MAX_HISTORY newMesh h Hc).
        rewrite Hm, E. fold newMesh. unfold App.setMesh.
        rewrite (setMesh_unchanged App.MAX_HISTORY newMesh h Hc).
        reflexivity.
Qed.

Lemma not_recorded_witness :
  let e := {| Touch.size := Some {| width := Fin 800; height := Fin 600 |};
              Touch.activePointId := Some "1-1" |} in
  let h := MeshHistory.init (buildDefaultMesh 4 4) in
  exists st,
    Calibration.step (Calibration.TouchMove (Fin 320) (Fin 180)) (e, h)
    = Some st
    /\ Calibration.step (Calibration.TouchMove (Fin 320) (Fin 180)) st
       = Some st
    /\ MeshHistory.historyLength (snd st) = 2%nat.
Proof.
  intros e h.
  assert (Hs : in_sync h).
  { split; [unfold MeshHistory.valid; cbn; lia | reflexivity]. }
  destruct (not_recorded e h Hs) as (_ & _ & _ & Hmove).
  eexists. split; [reflexivity|]. split.
  - apply Hmove. reflexivity.
  - vm_compute. reflexivity.
Defined.
